(** * favicon-fetcher: a shallow embedding of the request-serving core

    The development follows the Go sources of the service:

    - [internal/image/process.go]   the blank-image heuristics, the resize step, the
                                    white fill and the SVG preprocessing;
    - [pkg/ratelimit/ratelimit.go]  the token-bucket limiter, its cleanup, and
                                    client-IP extraction;
    - [internal/cache/cache.go]     the disk cache (reads, atomic writes, touch);
    - the janitor                   TTL, orphan, temp-file and size-limit sweeps,
                                    in both revisions of the file;
    - the singleflight group        duplicate-suppressed execution.

    Part I holds the models, one module per source file; Part II holds the
    properties.  Go's [int], [int64] and [time.Duration] are integers in [Z];
    where the source can overflow or saturate the model says so. *)

From Stdlib Require Import ZArith QArith Qminmax Lia Lqa Ascii DecimalString Floats.SpecFloat.
From stdpp Require Import gmap strings list fin_maps sorting.

Local Open Scope Z_scope.

(* ===================================================================== *)
(** * Part I: models                                                      *)
(* ===================================================================== *)

(** ** Control flow: a [for ... range] loop whose body may [return] *)

Module Loop.

Inductive step (A R : Type) : Type :=
| Continue (a : A)
| Return (r : R).
Arguments Continue {A R} a.
Arguments Return {A R} r.

(** [for _, x := range xs { body }] threading the loop-carried state [a]. *)
Fixpoint for_each {X A R : Type} (body : A -> X -> step A R) (xs : list X) (a : A)
  : step A R :=
  match xs with
  | [] => Continue a
  | x :: xs' =>
      match body a x with
      | Continue a' => for_each body xs' a'
      | Return r => Return r
      end
  end.

(** [for v := lo; v < hi; v += stride]: the values the loop variable takes.
    [fuel] bounds the number of iterations. *)
Fixpoint ticks (fuel : nat) (lo hi stride : Z) : list Z :=
  match fuel with
  | O => []
  | S fuel' => if lo <? hi then lo :: ticks fuel' (lo + stride) hi stride else []
  end.

(** With a stride of at least one, [hi - lo] iterations are enough. *)
Definition range (lo hi stride : Z) : list Z :=
  ticks (Z.to_nat (hi - lo)) lo hi stride.

End Loop.

(** ** internal/image/process.go *)

Module Image.
Import Loop.

(** [color.Color.RGBA()]: alpha-premultiplied channels, each a [uint32] in
    [0, 0xffff]. *)
Record Color : Type := mkColor { cR : Z; cG : Z; cB : Z; cA : Z }.

(** [image.Rectangle], [Min] inclusive and [Max] exclusive.  The coordinates
    are Go [int]s; the bounds of a decoded image are far inside the [int]
    range, so the arithmetic on them is written in [Z]. *)
Record Rectangle : Type := mkRect { MinX : Z; MinY : Z; MaxX : Z; MaxY : Z }.

Definition Dx (r : Rectangle) : Z := MaxX r - MinX r.
Definition Dy (r : Rectangle) : Z := MaxY r - MinY r.

(** [image.Rect(x0, y0, x1, y1)]: the coordinates are swapped where needed so
    that the result is well formed. *)
Definition Rect (x0 y0 x1 y1 : Z) : Rectangle :=
  let '(x0, x1) := if x1 <? x0 then (x1, x0) else (x0, x1) in
  let '(y0, y1) := if y1 <? y0 then (y1, y0) else (y0, y1) in
  mkRect x0 y0 x1 y1.

(** [image.Image]: bounds and a pixel accessor.  A nil interface value is
    [None] at the use sites. *)
Record Image : Type := mkImage { Bounds : Rectangle; At : Z -> Z -> Color }.

(** The file's own [max]. *)
Definition max (a b : Z) : Z := if b <? a then a else b.

(** The sample grid shared by both heuristics: [max(w/20, 1)] strides. *)
Definition stepOf (extent : Z) : Z := max (Z.quot extent 20) 1.

Definition rows (b : Rectangle) : list Z := range (MinY b) (MaxY b) (stepOf (Dy b)).
Definition cols (b : Rectangle) : list Z := range (MinX b) (MaxX b) (stepOf (Dx b)).

(** [a >= 0x8000] *)
Definition isOpaque (c : Color) : bool := 0x8000 <=? cA c.

(** [!(r8 > 250 && g8 > 250 && b8 > 250)] on the channels shifted to 8 bits. *)
Definition notNearWhite (c : Color) : bool :=
  negb ((250 <? Z.shiftr (cR c) 8) && (250 <? Z.shiftr (cG c) 8) && (250 <? Z.shiftr (cB c) 8)).

Definition isBlack (c : Color) : bool :=
  (Z.shiftr (cR c) 8 <? 15) && (Z.shiftr (cG c) 8 <? 15) && (Z.shiftr (cB c) 8 <? 15).

Definition isWhite (c : Color) : bool :=
  (240 <? Z.shiftr (cR c) 8) && (240 <? Z.shiftr (cG c) 8) && (240 <? Z.shiftr (cB c) 8).

(** The body of [IsNearlyBlank]'s inner loop: the counter is bumped on an
    opaque sample that is not near-white, and the function returns [false] as
    soon as the counter exceeds 3. *)
Definition blankBody (img : Image) (y : Z) (count : Z) (x : Z) : step Z bool :=
  let c := At img x y in
  if isOpaque c then
    if notNearWhite c then
      let count := count + 1 in
      if 3 <? count then Return false else Continue count
    else Continue count
  else Continue count.

Definition IsNearlyBlank (img : option Image) : bool :=
  match img with
  | None => true
  | Some img =>
      let b := Bounds img in
      if (Dx b <=? 0) || (Dy b <=? 0) then true
      else
        match for_each (fun count y => for_each (blankBody img y) (cols b) count)
                (rows b) 0 with
        | Return r => r
        | Continue _ => true
        end
  end.

(** The body of [IsNearlyBlankOrBlack]'s inner loop over [(colored, opaque)]. *)
Definition blackBody (img : Image) (y : Z) (st : Z * Z) (x : Z) : Z * Z :=
  let '(colored, opaque) := st in
  let c := At img x y in
  if isOpaque c then
    let opaque := opaque + 1 in
    if negb (isBlack c) && negb (isWhite c) then (colored + 1, opaque)
    else (colored, opaque)
  else (colored, opaque).

Definition IsNearlyBlankOrBlack (img : option Image) : bool :=
  match img with
  | None => true
  | Some img =>
      let b := Bounds img in
      if (Dx b <=? 0) || (Dy b <=? 0) then true
      else
        let '(colored, opaque) :=
          fold_left (fun st y => fold_left (blackBody img y) (cols b) st) (rows b) (0, 0) in
        (opaque <? 5) || (colored <? 3)
  end.

(** The pixels both loops visit, row by row. *)
Definition sampled (img : Image) : list Color :=
  flat_map (fun y => map (fun x => At img x y) (cols (Bounds img))) (rows (Bounds img)).

(** Number of sampled pixels satisfying [p]. *)
Definition tally (p : Color -> bool) (img : Image) : Z :=
  Z.of_nat (length (List.filter p (sampled img))).

(** What [IsNearlyBlank] counts: opaque samples that are not near-white. *)
Definition inked (c : Color) : bool := isOpaque c && notNearWhite c.

(** What [IsNearlyBlankOrBlack] counts as coloured: opaque, neither near-black
    nor near-white. *)
Definition coloured (c : Color) : bool := isOpaque c && (negb (isBlack c) && negb (isWhite c)).

(** The number of samples [IsNearlyBlank] would count on a full scan; a nil
    image has none. *)
Definition inkedSamples (img : option Image) : Z :=
  match img with
  | None => 0
  | Some img => tally inked img
  end.

(** [HasVisibleContent] *)
Definition HasVisibleContent (img : option Image) : bool := negb (IsNearlyBlank img).

(** [image.NewRGBA(r)]: every pixel is transparent black, and so is what [At]
    answers outside the bounds. *)
Definition NewRGBA (r : Rectangle) : Image := mkImage r (fun _ _ => mkColor 0 0 0 0).

(** [CreateBlankImage]: one transparent pixel. *)
Definition CreateBlankImage : Image := NewRGBA (Rect 0 0 1 1).

(** [fillWithWhite] on [img.Pix], the byte buffer of an [*image.RGBA]: four
    bytes to the pixel, written in steps of four.  [None] is the panic of an
    index out of range; [fuel] bounds the iterations. *)
Fixpoint fillFrom (fuel : nat) (i : nat) (pix : list Z) : option (list Z) :=
  match fuel with
  | O => Some pix
  | S fuel' =>
      if (i <? length pix)%nat then
        if (i + 3 <? length pix)%nat then
          fillFrom fuel' (i + 4)
            (<[(i + 3)%nat := 255]> (<[(i + 2)%nat := 255]> (<[(i + 1)%nat := 255]>
               (<[i := 255]> pix))))
        else None
      else Some pix
  end.

(** One unit of fuel for each byte is more than the loop needs. *)
Definition fillWithWhite (pix : list Z) : option (list Z) :=
  fillFrom (S (length pix)) 0 pix.

(** [x/image/draw]: the calls [ResizeImage] can make on the drawing library.
    The resampled pixels are the library's business; the model records which
    kernel is applied, with which compositing operator, onto which
    destination. *)
Inductive Kernel : Type := CatmullRom | OtherKernel.
Inductive Op : Type := Over | Src.

Record ScaleCall : Type := mkScale {
  kernel : Kernel;
  op : Op;
  dstRect : Rectangle;   (* dst.Bounds() *)
  dstZeroed : bool;      (* dst is a fresh image.NewRGBA: every pixel transparent *)
  srcImage : Image;
  srcRect : Rectangle
}.

Section Resize.

(** The scaler of the drawing library: it fills the pixels of the destination
    and leaves its bounds alone. *)
Variable scale : ScaleCall -> Z -> Z -> Color.

Definition runScale (c : ScaleCall) : Image := mkImage (dstRect c) (scale c).

(** [ResizeImage] returns the image together with the library calls it made. *)
Definition ResizeImage (img : Image) (size : Z) : Image * list ScaleCall :=
  let bounds := Bounds img in
  if (Dx bounds =? size) && (Dy bounds =? size) then (img, [])
  else
    let call := mkScale CatmullRom Over (Rect 0 0 size size) true img bounds in
    (runScale call, [call]).

End Resize.

(** Sample inputs. *)

Definition opaqueWhite : Color := mkColor 0xffff 0xffff 0xffff 0xffff.
Definition opaqueRed : Color := mkColor 0xffff 0 0 0xffff.

(** A 3x3 icon: a red top row over two white rows, fully opaque. *)
Definition stripe : Image :=
  mkImage (Rect 0 0 3 3) (fun x y => if y =? 0 then opaqueRed else opaqueWhite).

(** A 2x2 opaque white square. *)
Definition blankSquare : Image := mkImage (Rect 0 0 2 2) (fun _ _ => opaqueWhite).

(** A scaler that paints every destination pixel transparent. *)
Definition clearScale : ScaleCall -> Z -> Z -> Color := fun _ _ _ => mkColor 0 0 0 0.

End Image.

(** ** Go's clock and durations *)

Module GoTime.

(** A [time.Time] is its reading in nanoseconds; a [time.Duration] is an
    [int64] count of nanoseconds. *)
Definition maxDuration : Z := 2 ^ 63 - 1.
Definition minDuration : Z := - 2 ^ 63.

Definition Second : Z := 1000000000.
Definition Minute : Z := 60 * Second.

(** [t.Sub(u)]: the difference, saturated to the range of [Duration]. *)
Definition Sub (t u : Z) : Z :=
  if maxDuration <? t - u then maxDuration
  else if t - u <? minDuration then minDuration
  else t - u.

(** [time.Since(t)] at the clock reading [now]. *)
Definition Since (now t : Z) : Z := Sub now t.

(** [-d] on a [Duration]: the negation of an [int64], which wraps around, so
    that the smallest duration is its own negation. *)
Definition Neg (d : Z) : Z := (- d + 2 ^ 63) mod 2 ^ 64 - 2 ^ 63.

(** [t.Add(d)] *)
Definition Add (t d : Z) : Z := t + d.

End GoTime.

(** ** float64 arithmetic

    The limiter computes in [float64].  The model is written once against the
    operations it uses and read in two ways: IEEE 754 binary64, as specified by
    the Standard Library's [SpecFloat], and exact rational arithmetic. *)

Module Float64.

Class Ops (F : Type) : Type := {
  add : F -> F -> F;
  sub : F -> F -> F;
  mul : F -> F -> F;
  div : F -> F -> F;
  ltb : F -> F -> bool;     (* x < y *)
  leb : F -> F -> bool;     (* x <= y *)
  ofInt : Z -> F            (* float64(n) *)
}.

(** Go's [x > y] and [x >= y]. *)
Definition gtb {F} `{Ops F} (x y : F) : bool := ltb y x.
Definition geb {F} `{Ops F} (x y : F) : bool := leb y x.

(** IEEE 754 binary64: 53 bits of precision, [emax] 1024, round to nearest
    even.  Comparisons with a NaN are false. *)
#[export] Instance ieee : Ops spec_float := {|
  add := SFadd 53 1024;
  sub := SFsub 53 1024;
  mul := SFmul 53 1024;
  div := SFdiv 53 1024;
  ltb := SFltb;
  leb := SFleb;
  ofInt := fun n => binary_normalize 53 1024 n 0 false
|}.

(** Exact arithmetic: no rounding, no infinities, no NaN. *)
#[export] Instance exact : Ops Q := {|
  add := Qplus;
  sub := Qminus;
  mul := Qmult;
  div := Qdiv;
  ltb := fun x y => negb (Qle_bool y x);
  leb := Qle_bool;
  ofInt := inject_Z
|}.

(** The order facts about the constant [1.0] that the limiter's verdict rests
    on.  Both readings satisfy them; for binary64 they hold for NaN and the
    infinities too. *)
Class OrderLaws (F : Type) `{Ops F} : Prop := {
  lt_one_not_ge : forall c : F, ltb c (ofInt 1) = true -> leb (ofInt 1) c = false;
  capped_lt_one_not_ge : forall x c : F,
    ltb c x = false -> ltb c (ofInt 1) = true -> leb (ofInt 1) x = false
}.

(** [d.Seconds()]: [float64(d / Second) + float64(d % Second) / 1e9]. *)
Definition Seconds {F} `{Ops F} (d : Z) : F :=
  add (ofInt (Z.quot d GoTime.Second)) (div (ofInt (Z.rem d GoTime.Second)) (ofInt 1000000000)).

End Float64.

(** ** pkg/ratelimit/ratelimit.go: the token bucket and the limiter *)

Module RateLimit.
Import Float64.

Section Bucket.
Context {F : Type} `{Ops F}.

(** The mutex is left out: a bucket is only touched under its lock, so each
    [allow] is one atomic step on the record. *)
Record TokenBucket : Type := mkBucket {
  rate : F;           (* tokens per second *)
  capacity : F;       (* maximum tokens *)
  tokens : F;         (* current tokens *)
  lastUpdate : Z      (* last token update *)
}.

(** [now] is the reading of [time.Now()]. *)
Definition newTokenBucket (rate capacity : F) (now : Z) : TokenBucket :=
  mkBucket rate capacity capacity now.

Definition allow (b : TokenBucket) (now : Z) : bool * TokenBucket :=
  let elapsed : F := Seconds (GoTime.Sub now (lastUpdate b)) in
  (* Add tokens based on elapsed time *)
  let tokens1 := add (tokens b) (mul elapsed (rate b)) in
  let tokens2 := if gtb tokens1 (capacity b) then capacity b else tokens1 in
  (* Check if we have at least 1 token *)
  if geb tokens2 (ofInt 1)
  then (true, mkBucket (rate b) (capacity b) (sub tokens2 (ofInt 1)) now)
  else (false, mkBucket (rate b) (capacity b) tokens2 now).

(** A sequence of [allow] calls at the clock readings [nows]: the answers, in
    order, and the bucket afterwards. *)
Fixpoint serve (b : TokenBucket) (nows : list Z) : list bool * TokenBucket :=
  match nows with
  | [] => ([], b)
  | now :: rest =>
      let '(ok, b1) := allow b now in
      let '(oks, b2) := serve b1 rest in
      (ok :: oks, b2)
  end.

(** Clock readings that never run backwards, starting from [t0]: Go's
    monotonic clock. *)
Fixpoint ascending (t0 : Z) (nows : list Z) : Prop :=
  match nows with
  | [] => True
  | t :: rest => t0 <= t /\ ascending t rest
  end.

(** [ipBuckets] is a [sync.Map] from client IP to bucket.  The cleanup ticker
    and its channel play no part in admission and are left out. *)
Record Limiter : Type := mkLimiter {
  globalBucket : option TokenBucket;
  ipBuckets : gmap string TokenBucket;
  ipRate : Z;
  ipBurst : Z
}.

(** [NewLimiter]; [None] is the nil limiter. *)
Definition NewLimiter (globalRate globalBurst ipRate ipBurst : Z) (now : Z) : option Limiter :=
  if (globalRate =? 0) && (ipRate =? 0) then None
  else
    Some (mkLimiter
            (if 0 <? globalRate
             then Some (newTokenBucket (ofInt globalRate) (ofInt globalBurst) now)
             else None)
            ∅ ipRate ipBurst).

(** [getOrCreateIPBucket]: [Load], else [LoadOrStore] of a fresh bucket. *)
Definition getOrCreateIPBucket (l : Limiter) (ip : string) (now : Z) : TokenBucket * Limiter :=
  match ipBuckets l !! ip with
  | Some b => (b, l)
  | None =>
      let bucket := newTokenBucket (ofInt (ipRate l)) (ofInt (ipBurst l)) now in
      (bucket, mkLimiter (globalBucket l) (<[ip := bucket]> (ipBuckets l)) (ipRate l) (ipBurst l))
  end.

(** The three places where an [Allow] call may read the clock. *)
Record Readings : Type := mkReadings {
  atGlobal : Z;     (* in the global bucket's allow *)
  atCreate : Z;     (* in newTokenBucket, when the IP is new *)
  atIP : Z          (* in the IP bucket's allow *)
}.

(** [Allow] returns its verdict, the error counters it bumped, and the
    limiter afterwards. *)
Definition Allow (l : Limiter) (ip : string) (t : Readings)
  : bool * list string * Limiter :=
  (* Check global limit first *)
  let '(globalOk, l1) :=
    match globalBucket l with
    | None => (true, l)
    | Some g =>
        let '(ok, g') := allow g (atGlobal t) in
        (ok, mkLimiter (Some g') (ipBuckets l) (ipRate l) (ipBurst l))
    end in
  if negb globalOk then (false, ["rate_limit_global"%string], l1)
  else
    (* Check IP-specific limit *)
    if 0 <? ipRate l1 then
      let '(bucket, l2) := getOrCreateIPBucket l1 ip (atCreate t) in
      let '(ok, bucket') := allow bucket (atIP t) in
      let l3 := mkLimiter (globalBucket l2) (<[ip := bucket']> (ipBuckets l2))
                  (ipRate l2) (ipBurst l2) in
      if negb ok then (false, ["rate_limit_ip"%string], l3)
      else (true, [], l3)
    else (true, [], l1).

(** A run of requests against the limiter: the verdicts in order. *)
Fixpoint traffic (l : Limiter) (reqs : list (string * Readings)) : list bool :=
  match reqs with
  | [] => []
  | (ip, t) :: rest =>
      let '(ok, _, l') := Allow l ip t in
      ok :: traffic l' rest
  end.

(** The bucket an [Allow] call charges for [ip]: the one in the map, or a
    fresh one. *)
Definition bucketFor (l : Limiter) (ip : string) (created : Z) : TokenBucket :=
  default (newTokenBucket (ofInt (ipRate l)) (ofInt (ipBurst l)) created) (ipBuckets l !! ip).

(** [cleanup] at the clock reading [now]: remove the IP buckets that have not
    been used in 10 minutes.  [order] is the order in which [Range] visits
    the entries; no [Allow] runs in between. *)
Definition cleanupStep (cutoff : Z) (buckets : gmap string TokenBucket)
  (e : string * TokenBucket) : gmap string TokenBucket :=
  if lastUpdate (snd e) <? cutoff then delete (fst e) buckets else buckets.

Definition cleanup (order : list (string * TokenBucket) -> list (string * TokenBucket))
  (l : Limiter) (now : Z) : Limiter :=
  let cutoff := now - 10 * GoTime.Minute in
  mkLimiter (globalBucket l)
    (fold_left (cleanupStep cutoff) (order (map_to_list (ipBuckets l))) (ipBuckets l))
    (ipRate l) (ipBurst l).

(** The limiter states from which no request is admitted: a global bucket,
    or the per-IP setup, that can never hold a whole token. *)
Definition starved (l : Limiter) : Prop :=
  (exists g, globalBucket l = Some g /\ ltb (capacity g) (ofInt 1) = true) \/
  (0 < ipRate l /\ ltb (ofInt (ipBurst l)) (ofInt 1) = true /\
   forall ip b, ipBuckets l !! ip = Some b -> ltb (capacity b) (ofInt 1) = true).

End Bucket.

Arguments TokenBucket F : clear implicits.
Arguments Limiter F : clear implicits.

(** The number of requests admitted in a run. *)
Definition admitted (oks : list bool) : Z := Z.of_nat (count_occ bool_dec oks true).

(** Go's [int] is 64 bits wide on the platforms the server is built for, and
    its arithmetic wraps around. *)
Definition wrapInt (z : Z) : Z := (z + 2 ^ 63) mod 2 ^ 64 - 2 ^ 63.

(** cmd/server/main.go: the burst handed to [NewLimiter] for a configured
    rate and burst flag ([0] means "auto: rate*2"). *)
Definition defaultBurst (rateFlag burstFlag : Z) : Z :=
  if (burstFlag =? 0) && (0 <? rateFlag) then wrapInt (rateFlag * 2) else burstFlag.

(** cmd/server/main.go: the limiter the server sets up from its four flags. *)
Definition serverLimiter {F} `{Ops F}
  (rateLimit rateLimitBurst ipRateLimit ipRateLimitBurst : Z) (now : Z) : option (Limiter F) :=
  if (0 <? rateLimit) || (0 <? ipRateLimit) then
    NewLimiter rateLimit (defaultBurst rateLimit rateLimitBurst)
               ipRateLimit (defaultBurst ipRateLimit ipRateLimitBurst) now
  else None.

End RateLimit.

(** ** Go strings: the few library functions the sources call *)

Module GoStrings.
Local Open Scope string_scope.
Local Open Scope Z_scope.

Definition byte (c : ascii) : Z := Z.of_N (N_of_ascii c).

(** [len(s)] *)
Definition len (s : string) : Z := Z.of_nat (String.length s).

(** [strings.HasPrefix(s, prefix)] *)
Definition HasPrefix (s prefix : string) : bool := String.prefix prefix s.

(** [strings.Contains(s, substr)] *)
Fixpoint Contains (s substr : string) : bool :=
  String.prefix substr s ||
  match s with
  | EmptyString => false
  | String _ rest => Contains rest substr
  end.

(** [s[n:]], for [n <= len(s)] *)
Fixpoint drop (n : nat) (s : string) : string :=
  match n, s with
  | O, _ => s
  | S n', String _ rest => drop n' rest
  | S _, EmptyString => EmptyString
  end.

(** [s[:n]], for [n <= len(s)] *)
Fixpoint take (n : nat) (s : string) : string :=
  match n, s with
  | O, _ => EmptyString
  | S n', String c rest => String c (take n' rest)
  | S _, EmptyString => EmptyString
  end.

(** [strings.HasSuffix(s, suffix)] *)
Definition HasSuffix (s suffix : string) : bool :=
  (String.length suffix <=? String.length s)%nat &&
  String.eqb (drop (String.length s - String.length suffix) s) suffix.

(** [strings.TrimSuffix(s, suffix)] *)
Definition TrimSuffix (s suffix : string) : string :=
  if HasSuffix s suffix then take (String.length s - String.length suffix) s else s.

(** [strings.Replace(s, old, new, 1)] for a non-empty [old]: the first
    occurrence is replaced. *)
Fixpoint replaceFirst (old new s : string) {struct s} : string :=
  if String.prefix old s then new +:+ drop (String.length old) s
  else
    match s with
    | EmptyString => EmptyString
    | String c rest => String c (replaceFirst old new rest)
    end.

(** [strings.ReplaceAll(s, old, new)] for a non-empty [old]: the occurrences
    are replaced from left to right, without overlap.  [skip] counts the
    bytes of the occurrence just replaced that are still to be passed
    over. *)
Fixpoint replaceAllFrom (skip : nat) (old new s : string) {struct s} : string :=
  match s with
  | EmptyString => EmptyString
  | String c rest =>
      match skip with
      | S k => replaceAllFrom k old new rest
      | O =>
          if String.prefix old s
          then new +:+ replaceAllFrom (String.length old - 1) old new rest
          else String c (replaceAllFrom O old new rest)
      end
  end.

Definition ReplaceAll (s old new : string) : string := replaceAllFrom O old new s.

(** The bytes of [a] that also occur in [b]. *)
Definition sharedBytes (a b : string) : list ascii :=
  List.filter (fun c => existsb (Ascii.eqb c) (String.list_ascii_of_string b))
    (String.list_ascii_of_string a).

(** [strings.IndexByte(s, c)], [None] for -1 *)
Fixpoint IndexByte (s : string) (c : ascii) : option nat :=
  match s with
  | EmptyString => None
  | String d rest => if Ascii.eqb d c then Some O else S <$> IndexByte rest c
  end.

(** [strings.LastIndexByte(s, c)], [None] for -1 *)
Fixpoint LastIndexByte (s : string) (c : ascii) : option nat :=
  match s with
  | EmptyString => None
  | String d rest =>
      match LastIndexByte rest c with
      | Some i => Some (S i)
      | None => if Ascii.eqb d c then Some O else None
      end
  end.

End GoStrings.

(** ** internal/image/process.go: the SVG source before rendering *)

Module SVG.
Import GoStrings.
Local Open Scope string_scope.

Definition quote : string := String (ascii_of_nat 34) EmptyString.

(** The opening tag with the SVG namespace declared. *)
Definition svgWithNamespace : string :=
  "<svg xmlns=" +:+ quote +:+ "http://www.w3.org/2000/svg" +:+ quote.

Definition preprocessSVG (data : string) : string :=
  let s := data in
  let s :=
    if negb (Contains s "xmlns") && Contains s "<svg"
    then replaceFirst "<svg" svgWithNamespace s
    else s in
  ReplaceAll s "currentColor" "#333333".

(** A sample source. *)
Definition icon : string :=
  "<svg viewBox='0 0 8 8'><path fill='currentColor' stroke='currentColor' d='M0 0h8v8z'/></svg>".

End SVG.

(** ** The Go standard library's [net] package

    Modelled from the library's documented behaviour, as far as the limiter
    depends on it: whether [net.ParseIP] accepts a string, and how
    [net.SplitHostPort] splits one. *)

Module GoNet.
Import GoStrings.
Local Open Scope string_scope.
Local Open Scope Z_scope.

Definition isDigit (c : ascii) : bool := (48 <=? byte c) && (byte c <=? 57).

(** The dotted-decimal fields of an IPv4 address: four decimal octets, each at
    most 255 and without a leading zero. *)
Fixpoint ipv4Fields (s : string) (first prevDot : bool) (val pos digLen : Z) : bool :=
  match s with
  | EmptyString => negb (pos <? 3)
  | String c rest =>
      if isDigit c then
        if (digLen =? 1) && (val =? 0) then false
        else
          let val := val * 10 + (byte c - 48) in
          if 255 <? val then false
          else ipv4Fields rest false false val pos (digLen + 1)
      else if Ascii.eqb c "." then
        if first || String.eqb rest "" || prevDot then false
        else if pos =? 3 then false
        else ipv4Fields rest false true 0 (pos + 1) 0
      else false
  end.

Definition parseIPv4 (s : string) : bool := ipv4Fields s true false 0 0 0.

Definition hexVal (c : ascii) : option Z :=
  let b := byte c in
  if (48 <=? b) && (b <=? 57) then Some (b - 48)
  else if (97 <=? b) && (b <=? 102) then Some (b - 97 + 10)
  else if (65 <=? b) && (b <=? 70) then Some (b - 65 + 10)
  else None.

(** One group of hex digits: the number of digits read, and what follows.
    More than 4 digits, or a value above [0xffff], is an error. *)
Fixpoint hexGroup (s : string) (off : Z) (acc : Z) : option (Z * string) :=
  match s with
  | EmptyString => Some (off, s)
  | String c rest =>
      match hexVal c with
      | None => Some (off, s)
      | Some v =>
          let acc := acc * 16 + v in
          if 3 <? off then None
          else if 0xffff <? acc then None
          else hexGroup rest (off + 1) acc
      end
  end.

(** The main loop of the IPv6 parser, over groups: [i] counts the bytes of
    the address filled so far, [ellipsis] is the position of a [::].  The
    result is what is left of the string, with the final [i] and [ellipsis]. *)
Fixpoint ipv6Groups (fuel : nat) (s : string) (i : Z) (ellipsis : option Z)
  : option (string * Z * option Z) :=
  match fuel with
  | O => Some (s, i, ellipsis)
  | S fuel' =>
      if negb (i <? 16) then Some (s, i, ellipsis)
      else
        match hexGroup s 0 0 with
        | None => None
        | Some (off, rest) =>
            if off =? 0 then None
            else if HasPrefix rest "." then
              (* an embedded IPv4 tail, parsed again from the start of the group *)
              if (match ellipsis with None => true | Some _ => false end) && negb (i =? 12)
              then None
              else if 16 <? i + 4 then None
              else if parseIPv4 s then Some ("", i + 4, ellipsis)
              else None
            else
              let i := i + 2 in
              match rest with
              | EmptyString => Some ("", i, ellipsis)
              | String c rest1 =>
                  if negb (Ascii.eqb c ":") then None
                  else
                    match rest1 with
                    | EmptyString => None
                    | String c1 rest2 =>
                        if Ascii.eqb c1 ":" then
                          match ellipsis with
                          | Some _ => None
                          | None =>
                              match rest2 with
                              | EmptyString => Some ("", i, Some i)
                              | _ => ipv6Groups fuel' rest2 i (Some i)
                              end
                          end
                        else ipv6Groups fuel' rest1 i ellipsis
                    end
              end
        end
  end.

(** An IPv6 address without a zone. *)
Definition parseIPv6 (s : string) : bool :=
  let '(s, ellipsis, done) :=
    match s with
    | String ":" (String ":" rest) => (rest, Some 0, String.eqb rest "")
    | _ => (s, None, false)
    end in
  if done then true
  else
    match ipv6Groups 9 s 0 ellipsis with
    | None => false
    | Some (rest, i, ellipsis) =>
        if negb (String.eqb rest "") then false
        else if i <? 16 then (match ellipsis with None => false | Some _ => true end)
        else (match ellipsis with None => true | Some _ => false end)
    end.

(** The first of ['.'], [':'] and ['%'] in the string decides how it is read. *)
Fixpoint addrKind (s : string) : option ascii :=
  match s with
  | EmptyString => None
  | String c rest =>
      if Ascii.eqb c "." || Ascii.eqb c ":" || Ascii.eqb c "%" then Some c
      else addrKind rest
  end.

(** [net.ParseIP(s) != nil].  An address with a zone ([%eth0]) is refused. *)
Definition validIP (s : string) : bool :=
  match addrKind s with
  | Some "."%char => parseIPv4 s
  | Some ":"%char =>
      match IndexByte s "%" with
      | Some _ => false
      | None => parseIPv6 s
      end
  | _ => false
  end.

(** [net.SplitHostPort(hostport)]; [None] stands for the error. *)
Definition SplitHostPort (hostport : string) : option (string * string) :=
  match LastIndexByte hostport ":" with
  | None => None   (* missing port in address *)
  | Some i =>
      let port := drop (S i) hostport in
      match hostport with
      | String "[" _ =>
          match IndexByte hostport "]" with
          | None => None   (* missing ']' in address *)
          | Some e =>
              if (S e =? String.length hostport)%nat then None
              else if (S e =? i)%nat then
                let host := take (e - 1) (drop 1 hostport) in
                if IndexByte (drop 1 hostport) "[" is Some _ then None
                else if IndexByte (drop (S e) hostport) "]" is Some _ then None
                else Some (host, port)
              else None
          end
      | _ =>
          let host := take i hostport in
          if IndexByte host ":" is Some _ then None   (* too many colons in address *)
          else if IndexByte hostport "[" is Some _ then None
          else if IndexByte hostport "]" is Some _ then None
          else Some (host, port)
      end
  end.

End GoNet.

(** ** pkg/ratelimit/ratelimit.go: the client address *)

Module ClientIP.
Import GoStrings.
Local Open Scope string_scope.
Local Open Scope Z_scope.

(** What [getClientIP] reads of an [*http.Request]: [r.Header.Get] and
    [r.RemoteAddr]. *)
Record Request : Type := mkRequest {
  HeaderGet : string -> string;
  RemoteAddr : string
}.

Definition isBlank (c : ascii) : bool := Ascii.eqb c " " || Ascii.eqb c "009".

(** The first loop of [parseIP]: cut the string at its first comma. *)
Fixpoint upToComma (s : string) : string :=
  match s with
  | EmptyString => EmptyString
  | String c rest => if Ascii.eqb c "," then EmptyString else String c (upToComma rest)
  end.

(** [trimSpace]: [start] moves right over spaces and tabs ... *)
Fixpoint trimLeft (s : string) : string :=
  match s with
  | EmptyString => EmptyString
  | String c rest => if isBlank c then trimLeft rest else s
  end.

(** ... then [end] moves left over them. *)
Fixpoint trimRight (s : string) : string :=
  match s with
  | EmptyString => EmptyString
  | String c rest =>
      let rest' := trimRight rest in
      if isBlank c && String.eqb rest' "" then EmptyString else String c rest'
  end.

Definition trimSpace (s : string) : string := trimRight (trimLeft s).

(** [trimSpace] once more, with the indices of the source: [start] and [end]
    are positions in [s], each loop reads one byte per turn, and the result
    is [s[start:end]].  [fuel] bounds the turns of a loop. *)
Definition byteAt (s : string) (i : nat) : ascii := default "000"%char (String.get i s).

Fixpoint skipStart (fuel : nat) (s : string) (start end_ : nat) : nat :=
  match fuel with
  | O => start
  | S fuel' =>
      if (start <? end_)%nat && isBlank (byteAt s start)
      then skipStart fuel' s (S start) end_
      else start
  end.

Fixpoint skipEnd (fuel : nat) (s : string) (start end_ : nat) : nat :=
  match fuel with
  | O => end_
  | S fuel' =>
      if (start <? end_)%nat && isBlank (byteAt s (end_ - 1))
      then skipEnd fuel' s start (end_ - 1)
      else end_
  end.

Definition trimSpaceLoops (s : string) : string :=
  let start := skipStart (String.length s) s O (String.length s) in
  let end_ := skipEnd (String.length s) s start (String.length s) in
  take (end_ - start) (drop start s).

(** Only spaces and tabs. *)
Fixpoint allBlank (s : string) : bool :=
  match s with
  | EmptyString => true
  | String c rest => isBlank c && allBlank rest
  end.

Section WithNet.

(** [net.ParseIP(s) != nil] and [net.SplitHostPort]. *)
Variable validIP : string -> bool.
Variable SplitHostPort : string -> option (string * string).

Definition parseIP (s : string) : string :=
  (* Handle comma-separated list (X-Forwarded-For) *)
  let s := upToComma s in
  (* Trim whitespace *)
  let s := trimSpace s in
  (* Validate IP *)
  if validIP s then s else "".

Definition getClientIP (r : Request) : string :=
  let xff := HeaderGet r "X-Forwarded-For" in
  let fromXFF := if negb (String.eqb xff "") then parseIP xff else "" in
  if negb (String.eqb fromXFF "") then fromXFF
  else
    let xri := HeaderGet r "X-Real-IP" in
    let fromXRI := if negb (String.eqb xri "") then parseIP xri else "" in
    if negb (String.eqb fromXRI "") then fromXRI
    else
      (* Fall back to RemoteAddr *)
      match SplitHostPort (RemoteAddr r) with
      | None => RemoteAddr r
      | Some (ip, _) => ip
      end.

(** The rule as the specification words it: split the header on commas, trim
    each element, take the first one that is a valid IP. *)
Fixpoint splitComma (s : string) : list string :=
  match s with
  | EmptyString => [EmptyString]
  | String c rest =>
      if Ascii.eqb c "," then EmptyString :: splitComma rest
      else
        match splitComma rest with
        | [] => [String c EmptyString]
        | e :: es => String c e :: es
        end
  end.

Definition firstValidIP (header : string) : option string :=
  List.find validIP (map trimSpace (splitComma header)).

(** What one header contributes: its first comma-separated element, trimmed,
    when that is a valid IP, and nothing otherwise. *)
Definition headElement (header : string) : string :=
  trimSpace (hd EmptyString (splitComma header)).

Definition fromHeader (r : Request) (name : string) : string :=
  let e := headElement (HeaderGet r name) in
  if validIP e then e else "".

End WithNet.

(** Sample requests. *)

Definition headers (xff xri : string) : string -> string :=
  fun name =>
    if String.eqb name "X-Forwarded-For" then xff
    else if String.eqb name "X-Real-IP" then xri
    else "".

(** A proxy chain whose first hop is not an address. *)
Definition viaProxy : Request :=
  mkRequest (headers "unknown, 203.0.113.7" "") "10.0.0.1:4711".

(** A direct connection from an IPv6 link-local client. *)
Definition linkLocal : Request :=
  mkRequest (headers "" "") "[fe80::1%eth0]:4711".

(** A direct connection from an IPv4 client. *)
Definition direct : Request :=
  mkRequest (headers " 198.51.100.4 , 10.1.1.1" "") "10.0.0.1:4711".

End ClientIP.

(** ** The file system under the cache root

    A world is the set of regular files, keyed by path, each with its bytes
    and its modification time.  Directories are always there ([EnsureDirs]
    made them).  [None] stands for a returned error. *)

Module OS.
Import GoStrings.
Local Open Scope string_scope.
Local Open Scope Z_scope.

Record File : Type := mkFile {
  content : list Byte.byte;
  mtime : Z                  (* ModTime(), in nanoseconds *)
}.

Abbreviation World := (gmap string File).

(** [info.Size()] *)
Definition Size (f : File) : Z := Z.of_nat (length (content f)).

(** [os.Stat(p)] *)
Definition Stat (fs : World) (p : string) : option File := fs !! p.

(** [os.ReadFile(p)] *)
Definition ReadFile (fs : World) (p : string) : option (list Byte.byte) :=
  content <$> fs !! p.

(** [os.Remove(p)]: the process owns the cache directories, so removing a
    file fails only when the file is not there. *)
Definition Remove (fs : World) (p : string) : option World :=
  match fs !! p with
  | Some _ => Some (delete p fs)
  | None => None
  end.

(** [_ = os.Remove(p)] *)
Definition RemoveQuietly (fs : World) (p : string) : World :=
  match Remove fs p with
  | Some fs' => fs'
  | None => fs
  end.

(** [os.Chtimes(p, t, t)]: the modification time of the file becomes [t] (the
    file system keeps the stamp as given; the access time is not part of the
    model).  The call fails when the file is not there. *)
Definition Chtimes (fs : World) (p : string) (t : Z) : option World :=
  match fs !! p with
  | Some f => Some (<[p := mkFile (content f) t]> fs)
  | None => None
  end.

(** The elements of a path: the pieces between its separators. *)
Fixpoint elements (p : string) : list string :=
  match p with
  | EmptyString => [EmptyString]
  | String c rest =>
      if Ascii.eqb c "/" then EmptyString :: elements rest
      else
        match elements rest with
        | [] => [String c EmptyString]
        | e :: es => String c e :: es
        end
  end.

(** [strings.Join(elems, "/")] *)
Fixpoint joinElems (l : list string) : string :=
  match l with
  | [] => ""
  | [e] => e
  | e :: rest => e +:+ "/" +:+ joinElems rest
  end.

(** [filepath.Clean], one element of the path at a time.  [out] holds the
    elements written so far, the last one first.  An empty element and [.]
    are passed over; [..] takes back the element written last, unless there
    is none to take back (nothing written, or only [..] elements): then it is
    dropped in a rooted path and written in a relative one.  Any other
    element is written. *)
Definition cleanStep (rooted : bool) (out : list string) (e : string) : list string :=
  if String.eqb e "" || String.eqb e "." then out
  else if String.eqb e ".." then
    match out with
    | top :: rest => if String.eqb top ".." then e :: out else rest
    | [] => if rooted then [] else [e]
    end
  else e :: out.

(** [filepath.Clean(path)] *)
Definition Clean (path : string) : string :=
  if String.eqb path "" then "."
  else
    let rooted := HasPrefix path "/" in
    let out := fold_left (cleanStep rooted) (elements path) [] in
    if rooted then "/" +:+ joinElems (rev out)
    else if Nat.eqb (length out) 0 then "." else joinElems (rev out).

(** [filepath.Join(dir, name)]: leading empty elements are ignored, the rest
    is joined with separators and cleaned. *)
Definition Join (dir name : string) : string :=
  if String.eqb dir "" then (if String.eqb name "" then "" else Clean name)
  else Clean (dir +:+ "/" +:+ name).

(** A name: one element of a path that is not empty, [.] or [..]. *)
Definition isName (x : string) : bool :=
  match IndexByte x "/" with None => true | Some _ => false end &&
  negb (String.eqb x "") && negb (String.eqb x ".") && negb (String.eqb x "..").

(** [name] put under the clean directory [dir]. *)
Definition inDir (dir name : string) : string :=
  if String.eqb dir "." then name
  else if String.eqb dir "/" then "/" +:+ name
  else dir +:+ "/" +:+ name.

(** What [Clean] has written at any point: names, on top of the [..]
    elements a relative path may start with. *)
Definition canon (rooted : bool) (out : list string) : Prop :=
  exists names dots,
    out = (names ++ dots)%list /\ Forall (fun e => isName e = true) names /\
    Forall (fun e => e = "..") dots /\ (rooted = true -> dots = []).

(** [joinPath(dir, name)] of [os.CreateTemp]: no cleaning. *)
Definition joinPath (dir name : string) : string :=
  if HasSuffix dir "/" then dir +:+ name else dir +:+ "/" +:+ name.

(** [s] without its trailing separators. *)
Fixpoint stripSlashes (s : string) : string :=
  match s with
  | EmptyString => EmptyString
  | String c rest =>
      let rest' := stripSlashes rest in
      if Ascii.eqb c "/" && String.eqb rest' "" then EmptyString else String c rest'
  end.

(** [filepath.Base(p)]: the last element of the path. *)
Definition Base (p : string) : string :=
  if String.eqb p "" then "."
  else
    let q := stripSlashes p in
    if String.eqb q "" then "/"
    else
      match LastIndexByte q "/" with
      | Some i => drop (S i) q
      | None => q
      end.

(** [filepath.Dir(p)]: all but the last element.  The paths of the cache are
    built by [Join] and come out clean, so the directory part needs no
    cleaning beyond its trailing separator. *)
Definition Dir (p : string) : string :=
  match LastIndexByte p "/" with
  | None => "."
  | Some i =>
      let d := stripSlashes (take i p) in
      if String.eqb d "" then "/" else d
  end.

End OS.

(** ** internal/cache/cache.go *)

Module Cache.
Import GoStrings OS.
Local Open Scope string_scope.
Local Open Scope Z_scope.

Record Manager : Type := mkManager {
  CacheDir : string;
  TTL : Z                    (* time.Duration *)
}.

(** [strconv.Itoa] *)
Definition Itoa (n : Z) : string := NilZero.string_of_int (Z.to_int n).

Definition OrigCacheDir (m : Manager) : string := Join (CacheDir m) "orig".
Definition ResizedCacheDir (m : Manager) : string := Join (CacheDir m) "resized".
Definition FallbackCacheDir (m : Manager) : string := Join (CacheDir m) "fallback".

Section WithHash.

(** [hash]: the lower-case hex of the SHA-256 of the string. *)
Variable hash : string -> string.

Definition origPath (m : Manager) (iconURL : string) : string :=
  Join (OrigCacheDir m) (hash ("orig|" +:+ iconURL)).

(** The path of the validator sidecar, as [ReadOrigMeta] and [WriteOrigMeta]
    build it. *)
Definition origMetaPath (m : Manager) (iconURL : string) : string :=
  Join (OrigCacheDir m) (hash ("orig|" +:+ iconURL) +:+ ".meta").

(** [ReadOrigFromCache].  [fs] is the world when [os.Stat] runs, [now] the
    clock reading of [time.Since], and [fs'] the world when [os.ReadFile]
    runs: the janitor may have been there in between.  A nil slice is
    [None]. *)
Definition ReadOrigFromCache (m : Manager) (fs : World) (now : Z) (fs' : World)
  (iconURL : string) : option (list Byte.byte) * bool :=
  let p := origPath m iconURL in
  match Stat fs p with
  | None => (None, false)
  | Some info =>
      if TTL m <? GoTime.Since now (mtime info) then (None, false)
      else
        match ReadFile fs' p with
        | None => (None, false)   (* deleted between stat and read *)
        | Some b => (Some b, true)
        end
  end.

(** [TouchOrigCache] at the clock reading [now]; [None] is the error. *)
Definition TouchOrigCache (m : Manager) (fs : World) (now : Z) (iconURL : string)
  : option World :=
  Chtimes fs (origPath m iconURL) now.

Definition ResizedCachePath (m : Manager) (iconURL : string) (size : Z) (format : string)
  : string :=
  let ext := "." +:+ format in
  let key := hash ("res|" +:+ iconURL +:+ "|" +:+ Itoa size +:+ "|" +:+ format) in
  Join (ResizedCacheDir m) (key +:+ ext).

(** [ReadResizedFromCacheWithMod]; the zero [time.Time{}] is [None]. *)
Definition ReadResizedFromCacheWithMod (m : Manager) (fs : World) (now : Z) (fs' : World)
  (iconURL : string) (size : Z) (format : string)
  : option (list Byte.byte) * bool * option Z :=
  let p := ResizedCachePath m iconURL size format in
  match Stat fs p with
  | None => (None, false, None)
  | Some info =>
      if TTL m <? GoTime.Since now (mtime info) then (None, false, None)
      else
        match ReadFile fs' p with
        | None => (None, false, None)   (* deleted between stat and read *)
        | Some b => (Some b, true, Some (mtime info))
        end
  end.

End WithHash.

(** What a read of the payload at [p] may answer. *)
Definition readOutcome (ttl : Z) (fs : World) (now : Z) (fs' : World) (p : string)
  (b : option (list Byte.byte)) (hit : bool) : Prop :=
  (hit = true ->
   exists f f', fs !! p = Some f /\ GoTime.Since now (mtime f) <= ttl /\
                (ttl < GoTime.maxDuration -> now - mtime f <= ttl) /\
                fs' !! p = Some f' /\ b = Some (content f')) /\
  (forall f, fs !! p = Some f -> GoTime.Since now (mtime f) <= ttl -> fs' !! p = None ->
             b = None /\ hit = false).

(** *** Atomic writes *)

(** The errors [atomicWriteFile] can hand back, by the call that failed. *)
Inductive Error : Type := ErrCreateTemp | ErrWrite | ErrSync | ErrClose | ErrRename.

(** The system calls it makes, in order. *)
Inductive Call : Type :=
| CreateTemp (dir pattern name : string)
| Write (name : string) (data : list Byte.byte)
| Sync (name : string)
| Close (name : string)
| Rename (oldname newname : string)
| Unlink (name : string).

(** What the environment decides during one write: the random names
    [os.CreateTemp] tries, which of the calls fail, how many bytes a failing
    write got out, and the time stamped on the file. *)
Record Env : Type := mkEnv {
  randoms : list string;
  createFails : bool;
  writeFails : option nat;
  syncFails : bool;
  closeFails : bool;
  renameFails : bool;
  stamp : Z
}.

(** [os.CreateTemp(dir, ".tmp-*")]: the first candidate name that is free is
    created (exclusively) as an empty file. *)
Fixpoint freshTemp (fs : World) (dir : string) (candidates : list string) : option string :=
  match candidates with
  | [] => None
  | r :: rest =>
      let name := joinPath dir (".tmp-" +:+ r) in
      match fs !! name with
      | None => Some name
      | Some _ => freshTemp fs dir rest
      end
  end.

Definition osCreateTemp (env : Env) (fs : World) (dir : string) : option (string * World) :=
  if createFails env then None
  else
    match freshTemp fs dir (randoms env) with
    | None => None
    | Some name => Some (name, <[name := mkFile [] (stamp env)]> fs)
    end.

(** [os.Rename(old, new)]: atomic replacement of [new]. *)
Definition osRename (env : Env) (fs : World) (oldname newname : string) : option World :=
  if renameFails env then None
  else
    match fs !! oldname with
    | None => None
    | Some f => Some (<[newname := f]> (delete oldname fs))
    end.

(** [atomicWriteFile(p, data)]: the error (or [None] for nil), the world
    afterwards, and the calls made.  The deferred cleanup is written out on
    each failing path. *)
Definition atomicWriteFile (env : Env) (fs : World) (p : string) (data : list Byte.byte)
  : option Error * World * list Call :=
  let dir := Dir p in
  match osCreateTemp env fs dir with
  | None => (Some ErrCreateTemp, fs, [])
  | Some (tmpName, fs1) =>
      let created := [CreateTemp dir ".tmp-*" tmpName] in
      match writeFails env with
      | Some n =>
          (* tmp.Write failed after n bytes: close, then the deferred remove *)
          let fs2 := <[tmpName := mkFile (firstn n data) (stamp env)]> fs1 in
          (Some ErrWrite, RemoveQuietly fs2 tmpName,
           (created ++ [Write tmpName data; Close tmpName; Unlink tmpName])%list)
      | None =>
          let fs2 := <[tmpName := mkFile data (stamp env)]> fs1 in
          if syncFails env then
            (Some ErrSync, RemoveQuietly fs2 tmpName,
             (created ++ [Write tmpName data; Sync tmpName; Close tmpName; Unlink tmpName])%list)
          else if closeFails env then
            (Some ErrClose, RemoveQuietly fs2 tmpName,
             (created ++ [Write tmpName data; Sync tmpName; Close tmpName; Unlink tmpName])%list)
          else
            match osRename env fs2 tmpName p with
            | None =>
                (Some ErrRename, RemoveQuietly fs2 tmpName,
                 (created ++ [Write tmpName data; Sync tmpName; Close tmpName;
                             Rename tmpName p; Unlink tmpName])%list)
            | Some fs3 =>
                (None, fs3,
                 (created ++ [Write tmpName data; Sync tmpName; Close tmpName;
                             Rename tmpName p])%list)
            end
      end
  end.

(** An environment in which nothing goes wrong. *)
Definition calm (env : Env) : bool :=
  negb (createFails env) &&
  (match writeFails env with None => true | Some _ => false end) &&
  negb (syncFails env) && negb (closeFails env) && negb (renameFails env).

(** What a write to [p] must have done: all of it, or nothing. *)
Definition writeOutcome (env : Env) (fs : World) (p : string) (data : list Byte.byte)
  (res : option Error * World * list Call) : Prop :=
  let '(err, fs', calls) := res in
  (forall tmp, calm env = true -> freshTemp fs (Dir p) (randoms env) = Some tmp ->
     err = None /\
     calls = [CreateTemp (Dir p) ".tmp-*" tmp; Write tmp data; Sync tmp; Close tmp;
              Rename tmp p] /\
     (exists r, tmp = joinPath (Dir p) (".tmp-" +:+ r)) /\
     fs !! tmp = None /\
     fs' = <[p := mkFile data (stamp env)]> fs) /\
  (calm env = false \/ freshTemp fs (Dir p) (randoms env) = None ->
     (exists e, err = Some e) /\
     fs' = fs /\
     (forall dir pat tmp, CreateTemp dir pat tmp ∈ calls ->
        last calls = Some (Unlink tmp) /\ fs' !! tmp = None)).

Section Writers.
Variable hash : string -> string.

Definition WriteOrigToCache (env : Env) (m : Manager) (fs : World)
  (iconURL : string) (b : list Byte.byte) :=
  atomicWriteFile env fs (origPath hash m iconURL) b.

(** [WriteOrigMeta]; [data] is the JSON rendering of the validator. *)
Definition WriteOrigMeta (env : Env) (m : Manager) (fs : World)
  (iconURL : string) (data : list Byte.byte) :=
  atomicWriteFile env fs (origMetaPath hash m iconURL) data.

Definition WriteResizedToCache (env : Env) (m : Manager) (fs : World)
  (iconURL : string) (size : Z) (format : string) (b : list Byte.byte) :=
  atomicWriteFile env fs (ResizedCachePath hash m iconURL size format) b.

End Writers.

(** What [hash] returns: the lower-case hex of a SHA-256, 64 digits. *)
Definition isHexLower (c : ascii) : bool :=
  let b := byte c in
  ((48 <=? b) && (b <=? 57)) || ((97 <=? b) && (b <=? 102)).

Definition hexDigest (h : string) : bool :=
  Nat.eqb (String.length h) 64 && forallb isHexLower (String.list_ascii_of_string h).

(** Sample inputs. *)

Definition toyHash (s : string) : string := "h" +:+ Itoa (len s).

(** A hash of the right shape: the digest of the empty string, for every
    input. *)
Definition fixedHash (s : string) : string :=
  "e3b0c44298fc1c149afbf4c8996fb92427ae41e4649b934ca495991b7852b855".

Definition manager : Manager := mkManager "cache" (3600 * GoTime.Second).

(** The same cache kept in the working directory: [-cache-dir .] *)
Definition here : Manager := mkManager "." (3600 * GoTime.Second).

Definition payload : list Byte.byte := [Byte.x89; Byte.x50; Byte.x4e; Byte.x47].

Definition quiet : Env := mkEnv ["1"; "2"] false None false false false 1000.

Definition syncBroken : Env := mkEnv ["1"; "2"] false None true false false 1000.

End Cache.

(** ** The janitor *)

Module Janitor.
Import GoStrings OS Loop.
Local Open Scope string_scope.
Local Open Scope Z_scope.

Record fileEntry : Type := mkEntry {
  path : string;
  size : Z;                  (* int64 *)
  modTime : Z
}.

(** [int64] arithmetic wraps around. *)
Definition wrap64 (z : Z) : Z := (z + 2 ^ 63) mod 2 ^ 64 - 2 ^ 63.

Definition maxInt64 : Z := 2 ^ 63 - 1.

(** [time.Now().Add(-ttl)] at the clock reading [now]: the instant before
    which a file counts as expired. *)
Definition expiry (now ttl : Z) : Z := GoTime.Add now (GoTime.Neg ttl).

Definition isCacheFile (p : string) : bool :=
  Contains p "/orig/" || Contains p "/resized/" || Contains p "/fallback/".

(** The three classes the sweep sorts cache files into. *)
Definition isTemp (p : string) : bool :=
  isCacheFile p && HasPrefix (Base p) ".tmp-".

Definition isMeta (p : string) : bool :=
  isCacheFile p && negb (HasPrefix (Base p) ".tmp-") && HasSuffix p ".meta".

Definition isData (p : string) : bool :=
  isCacheFile p && negb (HasPrefix (Base p) ".tmp-") && negb (HasSuffix p ".meta").

(** *** [filepath.WalkDir]

    The walk visits the entries of each directory in the order of their
    names, going down into a directory as it meets it: the regular files come
    out ordered by their lists of path elements. *)

Fixpoint lexLe (a b : list string) : bool :=
  match a, b with
  | [], _ => true
  | _ :: _, [] => false
  | x :: a', y :: b' => if String.eqb x y then lexLe a' b' else String.ltb x y
  end.

Definition walkLe (x y : string * File) : Prop :=
  lexLe (elements (fst x)) (elements (fst y)) = true.

Definition walkLe_dec : forall x y, Decision (walkLe x y) :=
  fun x y => decide (lexLe (elements (fst x)) (elements (fst y)) = true).

(** The regular files below the root, in walk order.  The world holds just
    those, keyed by the path the walk reports. *)
Definition WalkDir (fs : World) : list (string * File) :=
  merge_sort walkLe (H := walkLe_dec) (map_to_list fs).

(** [files[i].mtime.Before(files[j].mtime)], the [less] handed to [sort.Slice]. *)
Definition before (a b : fileEntry) : bool := modTime a <? modTime b.

Section Runtime.

(** Two choices the Go runtime makes: the order in which [range] visits a map,
    and the order [sort.Slice] (not a stable sort) leaves equal elements in. *)
Variable rangeOrder : list (string * string) -> list (string * string).
Variable sortSlice : (fileEntry -> fileEntry -> bool) -> list fileEntry -> list fileEntry.

(** *** [purgeBySizeLimit] *)

(** The walk callback: payload files are listed and their sizes added up;
    validators and temporary files are skipped. *)
Definition sizeWalk (acc : list fileEntry * Z) (e : string * File) : list fileEntry * Z :=
  let '(files, total) := acc in
  let p := fst e in
  if negb (isCacheFile p) then acc
  else if HasSuffix p ".meta" || HasPrefix (Base p) ".tmp-" then acc
  else ((files ++ [mkEntry p (Size (snd e)) (mtime (snd e))])%list, wrap64 (total + Size (snd e))).

(** The body of the eviction loop; [Return] is its [break]. *)
Definition evictStep (maxSize : Z) (st : World * Z) (fe : fileEntry)
  : step (World * Z) (World * Z) :=
  let '(fs, total) := st in
  if total <=? maxSize then Return st
  else
    match Remove fs (path fe) with
    | Some fs1 =>
        let total := wrap64 (total - size fe) in
        (* Also remove associated meta file *)
        let metaPath := path fe +:+ ".meta" in
        match Stat fs1 metaPath with
        | Some _ => Continue (RemoveQuietly fs1 metaPath, total)
        | None => Continue (fs1, total)
        end
    | None => Continue st
    end.

Definition evict (maxSize : Z) (files : list fileEntry) (st : World * Z) : World * Z :=
  match for_each (evictStep maxSize) files st with
  | Continue st' => st'
  | Return st' => st'
  end.

Definition purgeBySizeLimit (fs : World) (maxSize : Z) : World :=
  let '(files, total) := fold_left sizeWalk (WalkDir fs) ([], 0) in
  if (total <=? maxSize) || (Nat.eqb (length files) 0) then fs
  else
    (* Sort by oldest first *)
    fst (evict maxSize (sortSlice before files) (fs, total)).

(** *** [purgeOnce] *)

Record Collected : Type := mkCollected {
  dataFiles : list string;
  tempFiles : list string;
  metaFiles : gmap string string     (* base path -> meta path *)
}.

(** The walk callback of [purgeOnce]. *)
Definition collect (acc : Collected) (e : string * File) : Collected :=
  let p := fst e in
  if negb (isCacheFile p) then acc
  else
    let base := Base p in
    (* Detect leftover temp files from atomic writes *)
    if HasPrefix base ".tmp-" then
      mkCollected (dataFiles acc) (tempFiles acc ++ [p])%list (metaFiles acc)
    else if HasSuffix p ".meta" then
      mkCollected (dataFiles acc) (tempFiles acc)
        (<[TrimSuffix p ".meta" := p]> (metaFiles acc))
    else
      mkCollected (dataFiles acc ++ [p])%list (tempFiles acc) (metaFiles acc).

(** Purge expired data files and their meta files. *)
Definition expireStep (expireBefore : Z) (st : World * gmap string string) (p : string)
  : World * gmap string string :=
  let '(fs, metas) := st in
  match Stat fs p with
  | None => st
  | Some info =>
      if mtime info <? expireBefore then
        match Remove fs p with
        | Some fs1 =>
            match metas !! p with
            | Some metaPath => (RemoveQuietly fs1 metaPath, delete p metas)
            | None => (fs1, metas)
            end
        | None => st
        end
      else st
  end.

(** Purge orphan meta files (meta without data file). *)
Definition orphanStep (dataFileSet : gset string) (fs : World) (e : string * string) : World :=
  let '(base, metaPath) := e in
  if decide (base ∈ dataFileSet) then fs
  else RemoveQuietly fs metaPath.

(** Purge leftover temp files (older than 5 minutes). *)
Definition tempStep (tempExpire : Z) (fs : World) (p : string) : World :=
  match Stat fs p with
  | None => fs
  | Some info =>
      if mtime info <? tempExpire then RemoveQuietly fs p else fs
  end.

(** [now] and [now'] are the two readings of [time.Now()], the second for the
    temp-file sweep.  The counters only feed the log line and are left out. *)
Definition purgeOnce (fs : World) (now now' : Z) (ttl : Z) (maxSize : Z) : World :=
  let expireBefore := expiry now ttl in
  let c := fold_left collect (WalkDir fs) (mkCollected [] [] ∅) in
  let dataFileSet : gset string := list_to_set (dataFiles c) in
  let '(fs1, metas1) := fold_left (expireStep expireBefore) (dataFiles c) (fs, metaFiles c) in
  let fs2 := fold_left (orphanStep dataFileSet) (rangeOrder (map_to_list metas1)) fs1 in
  let tempExpire := now' - 5 * GoTime.Minute in
  let fs3 := fold_left (tempStep tempExpire) (tempFiles c) fs2 in
  (* Purge by size if needed *)
  if 0 <? maxSize then purgeBySizeLimit fs3 maxSize else fs3.

End Runtime.

(** *** What the sweep establishes *)

(** No file of the class [cls] is older than [limit]. *)
Definition noneOlder (cls : string -> bool) (limit : Z) (fs : World) : Prop :=
  forall p f, fs !! p = Some f -> cls p = true -> ~ mtime f < limit.

(** Every validator sidecar has its payload. *)
Definition paired (fs : World) : Prop :=
  forall m, isMeta m = true -> is_Some (fs !! m) ->
    isData (TrimSuffix m ".meta") = true /\ is_Some (fs !! TrimSuffix m ".meta").

(** The invariant of the expiry loop: the validators still on disk are the
    ones still in the table, and a validator whose payload was seen by the
    walk still has it. *)
Definition expireInv (data0 : list string) (st : World * gmap string string) : Prop :=
  (forall m, isMeta m = true -> is_Some (fst st !! m) ->
     snd st !! TrimSuffix m ".meta" = Some m) /\
  (forall b m, snd st !! b = Some m -> isMeta m = true /\ b = TrimSuffix m ".meta") /\
  (forall m, isMeta m = true -> is_Some (fst st !! m) -> TrimSuffix m ".meta" ∈ data0 ->
     is_Some (fst st !! TrimSuffix m ".meta")).

(** After its step, a file is gone or not older than the limit. *)
Definition settled (limit : Z) (p : string) (fs : World) : Prop :=
  forall f, fs !! p = Some f -> ~ mtime f < limit.

(** The file at [p] is there and older than [limit]. *)
Definition olderThan (fs : World) (limit : Z) (p : string) : bool :=
  match fs !! p with
  | Some f => mtime f <? limit
  | None => false
  end.

(** [q] goes with the expired payload [b]: it is [b] itself, or the
    validator the walk recorded for [b]. *)
Definition goesWith (fs : World) (metas : gmap string string) (limit : Z) (q b : string)
  : bool :=
  olderThan fs limit b && (bool_decide (q = b) || bool_decide (metas !! b = Some q)).

(** What the three sweeps of a pass take away: an expired payload; a
    validator whose payload is expired, or is not there; a temporary file
    older than five minutes. *)
Definition swept (fs : World) (now now' ttl : Z) (p : string) : bool :=
  if isData p then olderThan fs (expiry now ttl) p
  else if isMeta p then
    let base := TrimSuffix p ".meta" in
    negb (isData base) ||
    match fs !! base with
    | Some f => mtime f <? expiry now ttl
    | None => true
    end
  else if isTemp p then olderThan fs (now' - 5 * GoTime.Minute) p
  else false.

(** A cache in which the sweeps find nothing to remove. *)
Definition clean (fs : World) (now now' ttl : Z) : Prop :=
  forall p, is_Some (fs !! p) -> swept fs now now' ttl p = false.

(** The payload files of a world as the size pass lists them. *)
Definition toEntry (e : string * File) : fileEntry :=
  mkEntry (fst e) (Size (snd e)) (mtime (snd e)).

Definition dataEntries (fs : World) : list fileEntry :=
  map toEntry (List.filter (fun e => isData (fst e)) (map_to_list fs)).

Definition totalSize (l : list fileEntry) : Z := foldr Z.add 0 (map size l).

(** A world without the listed payloads and their sidecars. *)
Definition withoutPairs (evicted : list fileEntry) (fs : World) : World :=
  fold_left (fun fs fe => delete (path fe +:+ ".meta") (delete (path fe) fs)) evicted fs.

(** The bytes the size limit is about: the payload files. *)
Definition payloadBytes (fs : World) : Z :=
  foldr Z.add 0
    (map (fun e => Size (snd e)) (List.filter (fun e => isData (fst e)) (map_to_list fs))).

(** The list the size pass builds: the payload files in walk order. *)
Definition walkEntries (fs : World) : list fileEntry :=
  map toEntry (List.filter (fun e => isData (fst e)) (WalkDir fs)).

(** A sort the runtime could be running: insertion sort. *)
Fixpoint insertSorted (less : fileEntry -> fileEntry -> bool) (fe : fileEntry)
  (l : list fileEntry) : list fileEntry :=
  match l with
  | [] => [fe]
  | x :: rest => if less x fe then x :: insertSorted less fe rest else fe :: l
  end.

Definition insertionSort (less : fileEntry -> fileEntry -> bool) (l : list fileEntry)
  : list fileEntry :=
  foldr (insertSorted less) [] l.

(** A sample cache: an expired original with its validator, a fresh original
    with its validator, an orphaned validator, a stale and a recent temporary
    file, and two resized payloads. *)
Definition bytes (n : nat) : list Byte.byte := repeat Byte.x00 n.

Definition minute : Z := GoTime.Minute.

Definition shelf : World :=
  {[ "cache/orig/aa" := mkFile (bytes 40) (10 * minute);
     "cache/orig/aa.meta" := mkFile (bytes 5) (10 * minute);
     "cache/orig/bb" := mkFile (bytes 30) (100 * minute);
     "cache/orig/bb.meta" := mkFile (bytes 5) (100 * minute);
     "cache/orig/cc.meta" := mkFile (bytes 5) (100 * minute);
     "cache/orig/.tmp-1" := mkFile (bytes 7) (100 * minute);
     "cache/orig/.tmp-2" := mkFile (bytes 7) (118 * minute);
     "cache/resized/dd.png" := mkFile (bytes 20) (90 * minute);
     "cache/resized/ee.png" := mkFile (bytes 25) (110 * minute);
     "cache/README" := mkFile (bytes 9) 0 ]}.

(** A cache with nothing to remove at minute 120 under a TTL of an hour. *)
Definition tidy : World :=
  {[ "cache/orig/bb" := mkFile (bytes 30) (100 * minute);
     "cache/orig/bb.meta" := mkFile (bytes 5) (100 * minute);
     "cache/orig/.tmp-2" := mkFile (bytes 7) (118 * minute);
     "cache/README" := mkFile (bytes 9) 0 ]}.

End Janitor.

(** ** The janitor, earlier revision

    A second copy of the janitor file in the tree: one walk that removes
    every cache file older than the TTL, and a size pass that counts every
    cache file.  It knows nothing of validators or temporary files. *)

Module JanitorOld.
Import GoStrings OS Loop.
Local Open Scope string_scope.
Local Open Scope Z_scope.

Definition expireWalk (expireBefore : Z) (fs : World) (e : string * File) : World :=
  let p := fst e in
  if negb (Janitor.isCacheFile p) then fs
  else if mtime (snd e) <? expireBefore then RemoveQuietly fs p
  else fs.

Definition sizeWalk (acc : list Janitor.fileEntry * Z) (e : string * File)
  : list Janitor.fileEntry * Z :=
  let '(files, total) := acc in
  let p := fst e in
  if negb (Janitor.isCacheFile p) then acc
  else ((files ++ [Janitor.mkEntry p (Size (snd e)) (mtime (snd e))])%list,
        Janitor.wrap64 (total + Size (snd e))).

Definition evictStep (maxSize : Z) (st : World * Z) (fe : Janitor.fileEntry)
  : step (World * Z) (World * Z) :=
  let '(fs, total) := st in
  if total <=? maxSize then Return st
  else
    match Remove fs (Janitor.path fe) with
    | Some fs1 => Continue (fs1, Janitor.wrap64 (total - Janitor.size fe))
    | None => Continue st
    end.

Section Runtime.
Variable sortSlice : (Janitor.fileEntry -> Janitor.fileEntry -> bool) ->
                     list Janitor.fileEntry -> list Janitor.fileEntry.

Definition purgeBySizeLimit (fs : World) (maxSize : Z) : World :=
  let '(files, total) := fold_left sizeWalk (Janitor.WalkDir fs) ([], 0) in
  if (maxSize <? total) && negb (Nat.eqb (length files) 0) then
    match for_each (evictStep maxSize) (sortSlice Janitor.before files) (fs, total) with
    | Continue st => fst st
    | Return st => fst st
    end
  else fs.

Definition purgeOnce (fs : World) (now : Z) (ttl : Z) (maxSize : Z) : World :=
  let expireBefore := Janitor.expiry now ttl in
  let fs1 := fold_left (expireWalk expireBefore) (Janitor.WalkDir fs) fs in
  if 0 <? maxSize then purgeBySizeLimit fs1 maxSize else fs1.

End Runtime.

End JanitorOld.

(** ** The singleflight group

    [Group.Do] is run by any number of goroutines at once.  The model is an
    interleaving semantics: a state of the group and of every caller, and one
    step per caller between the points where it can be preempted.  The two
    critical sections run under [g.mu] and are single steps. *)

Module SingleFlight.
Local Open Scope nat_scope.

(** What [fn] hands back: the bytes and the error ([None] for nil). *)
Definition Result : Type := list Byte.byte * option string.

(** [type call struct { wg sync.WaitGroup; val []byte; err error }] *)
Record call : Type := mkCall {
  wg : nat;                  (* the WaitGroup counter *)
  val : list Byte.byte;
  err : option string
}.

(** Whether a caller that has returned ran [fn] itself or waited for it. *)
Inductive Role : Type := Leader | Follower.

(** Where a caller stands in [Do].  [c] is the pointer to its call record;
    in [Returned] the role and the record are kept for reference. *)
Inductive pc : Type :=
| Enter                                  (* before g.mu.Lock() *)
| Waiting (c : nat)                      (* found c, unlocked, in c.wg.Wait() *)
| Calling (c : nat)                      (* stored a new c, unlocked, before fn() *)
| Signal (c : nat)                       (* c.val, c.err assigned, before c.wg.Done() *)
| Forget (c : nat)                       (* before g.mu.Lock(); delete(g.m, key) *)
| Returned (role : Role) (c : nat) (r : Result).

Record State : Type := mkState {
  m : gmap string nat;       (* g.m: key -> *call *)
  heap : gmap nat call;      (* the call records allocated so far *)
  next : nat;                (* the next pointer to hand out *)
  callers : gmap nat pc;     (* callers that have made a step *)
  ran : list nat             (* the callers whose fn was executed, in order *)
}.

Definition init : State := mkState ∅ ∅ 0 ∅ [].

(** A caller that has not made a step yet is at the entry of [Do]. *)
Definition pcOf (s : State) (t : nat) : pc := default Enter (callers s !! t).

Definition goto (s : State) (t : nat) (p : pc) : gmap nat pc := <[t := p]> (callers s).

Section Calls.

(** The calls: caller [t] runs [Do(key t, fn)] where [fn] returns [fn t]. *)
Variable key : nat -> string.
Variable fn : nat -> Result.

(** One step of caller [t]; [None] when it cannot move (blocked in [Wait],
    or returned). *)
Definition step (t : nat) (s : State) : option State :=
  match pcOf s t with
  | Enter =>
      (* g.mu.Lock(); if c, ok := g.m[key]; ok { g.mu.Unlock(); ... } *)
      match m s !! key t with
      | Some c => Some (mkState (m s) (heap s) (next s) (goto s t (Waiting c)) (ran s))
      | None =>
          (* c := &call{}; c.wg.Add(1); g.m[key] = c; g.mu.Unlock() *)
          let c := next s in
          Some (mkState (<[key t := c]> (m s)) (<[c := mkCall 1 [] None]> (heap s))
                        (S c) (goto s t (Calling c)) (ran s))
      end
  | Waiting c =>
      (* c.wg.Wait(); return c.val, c.err *)
      match heap s !! c with
      | Some rec =>
          if Nat.eqb (wg rec) 0
          then Some (mkState (m s) (heap s) (next s)
                             (goto s t (Returned Follower c (val rec, err rec))) (ran s))
          else None
      | None => None
      end
  | Calling c =>
      (* c.val, c.err = fn() *)
      match heap s !! c with
      | Some rec =>
          Some (mkState (m s) (<[c := mkCall (wg rec) (fst (fn t)) (snd (fn t))]> (heap s))
                        (next s) (goto s t (Signal c)) (ran s ++ [t]))
      | None => None
      end
  | Signal c =>
      (* c.wg.Done() *)
      match heap s !! c with
      | Some rec =>
          Some (mkState (m s) (<[c := mkCall (wg rec - 1) (val rec) (err rec)]> (heap s))
                        (next s) (goto s t (Forget c)) (ran s))
      | None => None
      end
  | Forget c =>
      (* g.mu.Lock(); delete(g.m, key); g.mu.Unlock(); return c.val, c.err *)
      match heap s !! c with
      | Some rec =>
          Some (mkState (delete (key t) (m s)) (heap s) (next s)
                        (goto s t (Returned Leader c (val rec, err rec))) (ran s))
      | None => None
      end
  | Returned _ _ _ => None
  end.

(** Some caller makes a step. *)
Definition steps (s s' : State) : Prop := exists t, step t s = Some s'.

(** The states the group can get into, under any schedule. *)
Definition reachable (s : State) : Prop := rtc steps init s.

(** A schedule: the callers in the order they are given a step. *)
Fixpoint run (schedule : list nat) (s : State) : option State :=
  match schedule with
  | [] => Some s
  | t :: rest =>
      match step t s with
      | Some s' => run rest s'
      | None => None
      end
  end.

(** Caller [t] is, or was, the one to run [fn] for the record [c]. *)
Definition leads (s : State) (t c : nat) : Prop :=
  match pcOf s t with
  | Calling c' | Signal c' | Forget c' | Returned Leader c' _ => c' = c
  | _ => False
  end.

(** Caller [t] still has [c] stored in the map. *)
Definition inFlight (s : State) (t c : nat) : Prop :=
  match pcOf s t with
  | Calling c' | Signal c' | Forget c' => c' = c
  | _ => False
  end.

(** Caller [t] waits, or waited, on the record [c]. *)
Definition follows (s : State) (t c : nat) : Prop :=
  match pcOf s t with
  | Waiting c' | Returned Follower c' _ => c' = c
  | _ => False
  end.

(** Caller [t] is at a point whose invariant speaks of the record [c]. *)
Definition reads (s : State) (t c : nat) : Prop :=
  match pcOf s t with
  | Calling c' | Signal c' | Forget c' | Returned _ c' _ => c' = c
  | _ => False
  end.

(** How often [fn] was executed on behalf of caller [t]. *)
Definition runs (s : State) (t : nat) : nat := count_occ Nat.eq_dec (ran s) t.

(** What holds of each caller, by where it stands. *)
Definition callerOk (s : State) (t : nat) : Prop :=
  match pcOf s t with
  | Enter => runs s t = 0
  | Waiting c =>
      runs s t = 0 /\ exists t0, t0 <> t /\ leads s t0 c /\ key t0 = key t
  | Calling c =>
      runs s t = 0 /\ heap s !! c = Some (mkCall 1 [] None) /\ m s !! key t = Some c
  | Signal c =>
      runs s t = 1 /\ heap s !! c = Some (mkCall 1 (fst (fn t)) (snd (fn t))) /\
      m s !! key t = Some c
  | Forget c =>
      runs s t = 1 /\ heap s !! c = Some (mkCall 0 (fst (fn t)) (snd (fn t))) /\
      m s !! key t = Some c
  | Returned Leader c r =>
      runs s t = 1 /\ heap s !! c = Some (mkCall 0 (fst (fn t)) (snd (fn t))) /\
      r = fn t /\ m s !! key t <> Some c
  | Returned Follower c r =>
      runs s t = 0 /\ heap s !! c = Some (mkCall 0 (fst r) (snd r)) /\
      exists t0, t0 <> t /\ leads s t0 c /\ key t0 = key t
  end.

(** The invariant of the group. *)
Definition invariant (s : State) : Prop :=
  (forall t, callerOk s t) /\
  (forall t t' c, leads s t c -> leads s t' c -> t = t') /\
  (forall k c, m s !! k = Some c -> exists t, key t = k /\ inFlight s t c) /\
  (forall t c, leads s t c \/ follows s t c -> c < next s).

End Calls.

(** The caller is back from [Do]. *)
Definition returned (s : State) (t : nat) : Prop :=
  match pcOf s t with
  | Returned _ _ _ => True
  | _ => False
  end.

Definition outside (p : pc) : bool :=
  match p with
  | Enter | Returned _ _ _ => true
  | _ => false
  end.

(** No caller is inside [Do]: each one is still to enter, or has returned. *)
Definition quiescent (s : State) : Prop :=
  map_Forall (fun _ p => outside p = true) (callers s).

(** The steps a caller has made to get where it stands. *)
Definition stepsTaken (p : pc) : nat :=
  match p with
  | Enter => 0
  | Waiting _ | Calling _ => 1
  | Signal _ => 2
  | Forget _ => 3
  | Returned Leader _ _ => 4
  | Returned Follower _ _ => 2
  end.

(** A bound on the steps it still has to make. *)
Definition stepsLeft (p : pc) : nat :=
  match p with
  | Enter => 4
  | Calling _ => 3
  | Signal _ => 2
  | Waiting _ | Forget _ => 1
  | Returned _ _ _ => 0
  end.

(** Sample calls: callers 0, 1 and 2 ask for the same key; each brings its
    own function. *)
Definition sameKey (t : nat) : string := "example.com|32|png".

Definition ownBytes (t : nat) : Result :=
  (repeat Byte.x2a (S t), None).

End SingleFlight.

(* ===================================================================== *)
(** * Part II: properties                                                 *)
(* ===================================================================== *)

(** ** Go strings *)

Section StringProps.
Import GoStrings.
Local Open Scope string_scope.

Lemma append_cons (c : ascii) (l x : string) : String c l +:+ x = String c (l +:+ x).
Proof. reflexivity. Qed.

Lemma append_nil (x : string) : "" +:+ x = x.
Proof. reflexivity. Qed.

Lemma length_append (a b : string) :
  String.length (a +:+ b) = (String.length a + String.length b)%nat.
Proof.
  induction a as [|c a IH]; [reflexivity|].
  rewrite append_cons. cbn [String.length]. rewrite IH. reflexivity.
Qed.

Lemma take_drop (n : nat) (s : string) : take n s +:+ drop n s = s.
Proof.
  revert s. induction n as [|n IH]; intros s; [reflexivity|].
  destruct s as [|c s]; [reflexivity|].
  cbn [take drop]. rewrite append_cons, IH. reflexivity.
Qed.

Lemma drop_append (a b : string) : drop (String.length a) (a +:+ b) = b.
Proof. induction a as [|c a IH]; [reflexivity | exact IH]. Qed.

(** A string that has the suffix is its trimmed part followed by the suffix. *)
Lemma HasSuffix_TrimSuffix (s suffix : string) :
  HasSuffix s suffix = true -> TrimSuffix s suffix +:+ suffix = s.
Proof.
  intros H. unfold TrimSuffix. rewrite H. unfold HasSuffix in H.
  apply andb_true_iff in H as [_ H]. apply String.eqb_eq in H.
  rewrite <- H at 2. apply take_drop.
Qed.

Lemma HasSuffix_append (a suffix : string) : HasSuffix (a +:+ suffix) suffix = true.
Proof.
  unfold HasSuffix. rewrite length_append. apply andb_true_iff. split.
  - apply Nat.leb_le. lia.
  - replace (String.length a + String.length suffix - String.length suffix)%nat
      with (String.length a) by lia.
    rewrite drop_append. apply String.eqb_refl.
Qed.

Lemma prefix_append (sub a b : string) :
  String.prefix sub a = true -> String.prefix sub (a +:+ b) = true.
Proof.
  revert a. induction sub as [|c sub IH]; intros a H.
  { destruct (a +:+ b); reflexivity. }
  destruct a as [|d a]; [discriminate|].
  rewrite append_cons. cbn [String.prefix] in *.
  destruct (ascii_dec c d); [apply IH, H | discriminate].
Qed.

Lemma Contains_append (a b sub : string) :
  Contains a sub = true -> Contains (a +:+ b) sub = true.
Proof.
  induction a as [|c a IH]; intros H.
  - cbn [Contains] in H. rewrite orb_false_r in H.
    destruct sub; [|discriminate]. destruct b; reflexivity.
  - rewrite append_cons. cbn [Contains] in *.
    apply orb_true_iff in H as [H|H]; apply orb_true_iff.
    + left. apply (prefix_append sub (String c a) b), H.
    + right. apply IH, H.
Qed.

Lemma append_assoc (a b c : string) : (a +:+ b) +:+ c = a +:+ (b +:+ c).
Proof.
  induction a as [|x a IH]; [reflexivity|].
  rewrite !append_cons, IH. reflexivity.
Qed.

Lemma append_inv_head (a x y : string) : a +:+ x = a +:+ y -> x = y.
Proof.
  induction a as [|c a IH]; intros H; [exact H|].
  rewrite !append_cons in H. injection H as H. apply IH, H.
Qed.

Lemma append_nil_r (s : string) : s +:+ "" = s.
Proof.
  induction s as [|c s IH]; [reflexivity|]. rewrite append_cons, IH. reflexivity.
Qed.

Lemma prefix_refl (s : string) : String.prefix s s = true.
Proof.
  induction s as [|c s IH]; [reflexivity|].
  cbn [String.prefix]. destruct (ascii_dec c c); [exact IH | congruence].
Qed.

Lemma Contains_middle (a sub b : string) : Contains (a +:+ sub +:+ b) sub = true.
Proof.
  induction a as [|c a IH].
  - rewrite append_nil.
    assert (H : String.prefix sub (sub +:+ b) = true) by apply prefix_append, prefix_refl.
    destruct (sub +:+ b); cbn [Contains]; rewrite H; reflexivity.
  - rewrite append_cons. cbn [Contains]. rewrite IH. apply orb_true_r.
Qed.

Lemma drop_plus (a y : string) (k : nat) :
  drop (String.length a + k) (a +:+ y) = drop k y.
Proof. induction a as [|c a IH]; [reflexivity | exact IH]. Qed.

Lemma take_append (a y : string) : take (String.length a) (a +:+ y) = a.
Proof.
  induction a as [|c a IH]; [reflexivity|].
  rewrite append_cons. cbn [String.length take]. rewrite IH. reflexivity.
Qed.

Lemma TrimSuffix_append (a suffix : string) : TrimSuffix (a +:+ suffix) suffix = a.
Proof.
  unfold TrimSuffix. rewrite HasSuffix_append, length_append.
  replace (String.length a + String.length suffix - String.length suffix)%nat
    with (String.length a) by lia.
  apply take_append.
Qed.

(** Bytes that stay in a string when its head is dropped. *)
Lemma drop_bytes (n : nat) (s : string) (c : ascii) :
  In c (String.list_ascii_of_string (drop n s)) -> In c (String.list_ascii_of_string s).
Proof.
  revert s. induction n as [|n IH]; intros s H; [exact H|].
  destruct s as [|d s]; [exact H|]. right. apply IH, H.
Qed.

Lemma drop_not_empty (n : nat) (s : string) :
  (n < String.length s)%nat -> exists c rest, drop n s = String c rest.
Proof.
  revert s. induction n as [|n IH]; intros s H.
  - destruct s as [|c s]; [cbn in H; lia | eauto].
  - destruct s as [|c s]; [cbn in H; lia|]. apply IH. cbn in H. lia.
Qed.

(** Paths: a last element without a separator. *)
Lemma IndexByte_none (s : string) (c d : ascii) :
  IndexByte s c = None -> In d (String.list_ascii_of_string s) -> d <> c.
Proof.
  induction s as [|e s IH]; intros H Hin; [destruct Hin|].
  cbn [IndexByte] in H. destruct (Ascii.eqb e c) eqn:E; [discriminate|].
  destruct (IndexByte s c) eqn:Es; [discriminate|].
  destruct Hin as [<-|Hin]; [apply Ascii.eqb_neq, E | apply IH; auto].
Qed.

Lemma LastIndexByte_none (s : string) (c : ascii) :
  IndexByte s c = None -> LastIndexByte s c = None.
Proof.
  induction s as [|e s IH]; intros H; [reflexivity|].
  cbn [IndexByte] in H. cbn [LastIndexByte].
  destruct (Ascii.eqb e c); [discriminate|].
  destruct (IndexByte s c); [discriminate|]. rewrite IH; reflexivity.
Qed.

Lemma LastIndexByte_join (a h : string) (c : ascii) :
  IndexByte h c = None ->
  LastIndexByte (a +:+ String c h) c = Some (String.length a).
Proof.
  intros Hh. induction a as [|e a IH].
  - rewrite append_nil. cbn [LastIndexByte]. rewrite (LastIndexByte_none h c Hh).
    rewrite Ascii.eqb_refl. reflexivity.
  - rewrite append_cons. cbn [LastIndexByte]. rewrite IH. reflexivity.
Qed.

End StringProps.
(** ** Paths: [filepath.Clean] and [filepath.Join] *)

Section PathProps.
Import GoStrings OS.
Local Open Scope string_scope.

Lemma isName_spec (x : string) :
  isName x = true <->
  IndexByte x "/" = None /\ x <> "" /\ x <> "." /\ x <> "..".
Proof.
  unfold isName. rewrite !andb_true_iff, !negb_true_iff, !String.eqb_neq.
  destruct (IndexByte x "/"); intuition congruence.
Qed.

Lemma elements_not_nil (p : string) : elements p <> [].
Proof.
  destruct p as [|c p]; cbn [elements]; [discriminate|].
  destruct (Ascii.eqb c "/"); [discriminate|]. destruct (elements p); discriminate.
Qed.

Lemma elements_plain (x : string) : IndexByte x "/" = None -> elements x = [x].
Proof.
  induction x as [|c x IH]; intros H; [reflexivity|].
  cbn [IndexByte] in H. cbn [elements].
  destruct (Ascii.eqb c "/"); [discriminate|].
  destruct (IndexByte x "/"); [discriminate|]. rewrite IH; reflexivity.
Qed.

Lemma elements_slash (a b : string) :
  elements (a +:+ "/" +:+ b) = (elements a ++ elements b)%list.
Proof.
  induction a as [|c a IH].
  - reflexivity.
  - rewrite append_cons. cbn [elements]. rewrite IH.
    destruct (Ascii.eqb c "/"); [reflexivity|].
    pose proof (elements_not_nil a) as Hne.
    destruct (elements a); [contradiction | reflexivity].
Qed.

Lemma elements_no_slash (p : string) :
  Forall (fun e => IndexByte e "/" = None) (elements p).
Proof.
  induction p as [|c p IH]; cbn [elements]; [repeat constructor|].
  destruct (Ascii.eqb c "/") eqn:E; [constructor; [reflexivity | exact IH]|].
  destruct (elements p) as [|e es]; [repeat constructor; cbn [IndexByte]; rewrite E; reflexivity|].
  inversion IH as [|? ? He Hes]; subst. constructor; [|exact Hes].
  cbn [IndexByte]. rewrite E, He. reflexivity.
Qed.

Lemma joinElems_cons (e : string) (l : list string) :
  l <> [] -> joinElems (e :: l) = e +:+ "/" +:+ joinElems l.
Proof. destruct l; [contradiction | reflexivity]. Qed.

Lemma joinElems_snoc (l : list string) (x : string) :
  l <> [] -> joinElems (l ++ [x]) = joinElems l +:+ "/" +:+ x.
Proof.
  induction l as [|e l IH]; intros Hne; [contradiction|].
  destruct l as [|e' l]; [reflexivity|].
  change ((e :: e' :: l) ++ [x])%list with (e :: ((e' :: l) ++ [x]))%list.
  rewrite joinElems_cons by discriminate. rewrite IH by discriminate.
  rewrite (joinElems_cons e (e' :: l)) by discriminate. rewrite !append_assoc. reflexivity.
Qed.

Lemma elements_join (l : list string) :
  l <> [] -> Forall (fun e => IndexByte e "/" = None) l -> elements (joinElems l) = l.
Proof.
  induction l as [|e l IH]; intros Hne Hall; [contradiction|].
  inversion Hall as [|? ? He Hl]; subst.
  destruct l as [|e' l]; [apply elements_plain, He|].
  rewrite joinElems_cons by discriminate.
  rewrite elements_slash, (elements_plain e He), IH by (discriminate || assumption).
  reflexivity.
Qed.

(** The elements [Clean] has written: none is empty or has a separator. *)
Lemma canon_elements (rooted : bool) (out : list string) :
  canon rooted out ->
  Forall (fun e => IndexByte e "/" = None /\ e <> "" /\ e <> ".") out.
Proof.
  intros (names & dots & -> & Hn & Hd & _). apply Forall_app. split.
  - eapply Forall_impl; [exact Hn|]. intros e He. apply isName_spec in He. tauto.
  - eapply Forall_impl; [exact Hd|]. intros e ->. repeat split; discriminate.
Qed.

Lemma canon_nil (rooted : bool) : canon rooted [].
Proof. exists [], []. repeat split; constructor. Qed.

Lemma canon_tail (rooted : bool) (x : string) (out : list string) :
  canon rooted (x :: out) -> canon rooted out.
Proof.
  intros (names & dots & E & Hn & Hd & Hr).
  destruct names as [|n names]; cbn [app] in E.
  - destruct dots as [|d dots]; [discriminate|]. injection E as -> ->.
    exists [], dots. inversion Hd; subst.
    split; [reflexivity|]. split; [constructor|]. split; [assumption|].
    intros H. specialize (Hr H). discriminate.
  - injection E as -> ->. inversion Hn; subst. exists names, dots. auto.
Qed.

Lemma canon_suffix (rooted : bool) (a out : list string) :
  canon rooted (a ++ out) -> canon rooted out.
Proof.
  induction a as [|x a IH]; intros H; [exact H|]. apply IH. eapply canon_tail. exact H.
Qed.

Lemma cleanStep_name (rooted : bool) (out : list string) (x : string) :
  isName x = true -> cleanStep rooted out x = x :: out.
Proof.
  intros H. apply isName_spec in H as (_ & H1 & H2 & H3).
  unfold cleanStep. apply String.eqb_neq in H1, H2, H3. rewrite H1, H2, H3. reflexivity.
Qed.

(** An element that is already in its place is written as it is. *)
Lemma cleanStep_canon (rooted : bool) (x : string) (out : list string) :
  canon rooted (x :: out) -> cleanStep rooted out x = x :: out.
Proof.
  intros (names & dots & E & Hn & Hd & Hr).
  destruct names as [|n names]; cbn [app] in E.
  - destruct dots as [|d dots]; [discriminate|]. injection E as -> ->.
    inversion Hd as [|? ? Hx Hdots]; subst. unfold cleanStep. cbn [String.eqb Ascii.eqb orb].
    destruct dots as [|d dots].
    + destruct rooted; [specialize (Hr eq_refl); discriminate | reflexivity].
    + inversion Hdots; subst. reflexivity.
  - injection E as -> ->. inversion Hn; subst. apply cleanStep_name. assumption.
Qed.

Lemma clean_fold_canon (rooted : bool) (l : list string) :
  forall out, canon rooted (rev l ++ out) ->
    fold_left (cleanStep rooted) l out = (rev l ++ out)%list.
Proof.
  induction l as [|x l IH]; intros out H; [reflexivity|].
  cbn [fold_left rev] in *. rewrite <- app_assoc in H. cbn [app] in H.
  rewrite cleanStep_canon by (eapply canon_suffix; exact H).
  rewrite IH by exact H. rewrite <- app_assoc. reflexivity.
Qed.

Lemma cleanStep_keeps_canon (rooted : bool) (out : list string) (e : string) :
  IndexByte e "/" = None -> canon rooted out -> canon rooted (cleanStep rooted out e).
Proof.
  intros He Hc. unfold cleanStep.
  destruct (String.eqb e "") eqn:E1; [exact Hc|].
  destruct (String.eqb e ".") eqn:E2; [exact Hc|]. cbn [orb].
  destruct (String.eqb e "..") eqn:E3.
  - apply String.eqb_eq in E3. subst e.
    destruct out as [|top rest].
    + destruct rooted; [apply canon_nil|].
      exists [], [".."]. repeat split; try constructor; try reflexivity; try constructor.
      discriminate.
    + destruct (String.eqb top "..") eqn:Et.
      * apply String.eqb_eq in Et. subst top.
        destruct Hc as (names & dots & E & Hn & Hd & Hr).
        destruct names as [|n names]; cbn [app] in E.
        -- exists [], (".." :: dots). subst dots.
           split; [reflexivity|]. split; [constructor|].
           split; [constructor; [reflexivity | exact Hd]|].
           intros H. specialize (Hr H). discriminate.
        -- injection E as <- _. inversion Hn as [|? ? Hbad _]; subst.
           apply isName_spec in Hbad. destruct Hbad as (_ & _ & _ & Hbad). contradiction.
      * eapply canon_tail. exact Hc.
  - destruct Hc as (names & dots & -> & Hn & Hd & Hr).
    exists (e :: names), dots. split; [reflexivity|]. split; [|auto].
    constructor; [|exact Hn]. apply isName_spec.
    apply String.eqb_neq in E1, E2, E3. auto.
Qed.

Lemma clean_fold_keeps_canon (rooted : bool) (l : list string) :
  Forall (fun e => IndexByte e "/" = None) l ->
  forall out, canon rooted out -> canon rooted (fold_left (cleanStep rooted) l out).
Proof.
  induction 1 as [|e l He Hl IH]; intros out Hc; [exact Hc|].
  cbn [fold_left]. apply IH, cleanStep_keeps_canon; assumption.
Qed.

(** What [Clean] has written for a path. *)
Lemma clean_out_canon (p : string) :
  canon (HasPrefix p "/") (fold_left (cleanStep (HasPrefix p "/")) (elements p) []).
Proof. apply clean_fold_keeps_canon; [apply elements_no_slash | apply canon_nil]. Qed.

Lemma joinElems_head (l : list string) :
  l <> [] -> Forall (fun e => IndexByte e "/" = None /\ e <> "" /\ e <> ".") l ->
  exists c s, joinElems l = String c s /\ c <> "/"%char /\ joinElems l <> ".".
Proof.
  intros Hne Hall. destruct l as [|e l]; [contradiction|].
  inversion Hall as [|? ? (He & Hnz & Hdot) _]; subst.
  destruct e as [|c e]; [contradiction|].
  assert (Hc : c <> "/"%char).
  { cbn [IndexByte] in He. destruct (Ascii.eqb c "/") eqn:E; [discriminate|].
    apply Ascii.eqb_neq, E. }
  destruct l as [|e' l].
  - exists c, e. auto.
  - rewrite joinElems_cons by discriminate. rewrite append_cons.
    eexists _, _. split; [reflexivity|]. split; [exact Hc|].
    intros H. injection H as _ H. destruct e; discriminate H.
Qed.

Lemma HasPrefix_slash (c : ascii) (s : string) :
  HasPrefix (String c s) "/" = Ascii.eqb c "/".
Proof.
  unfold HasPrefix. cbn [String.prefix].
  destruct (ascii_dec "/" c) as [<-|Hne]; [destruct s; reflexivity|].
  symmetry. apply Ascii.eqb_neq. congruence.
Qed.

(** [Clean] is idempotent: what it returns is clean. *)
Lemma Clean_idempotent (p : string) : Clean (Clean p) = Clean p.
Proof.
  unfold Clean at 2 3. cbv zeta.
  destruct (String.eqb p "") eqn:Ep; [reflexivity|].
  pose proof (clean_out_canon p) as Hc.
  set (rooted := HasPrefix p "/") in *.
  set (out := fold_left (cleanStep rooted) (elements p) []) in *.
  pose proof (canon_elements rooted out Hc) as Hel.
  assert (Hrev : Forall (fun e => IndexByte e "/" = None /\ e <> "" /\ e <> ".") (rev out))
    by (apply Forall_rev; exact Hel).
  assert (Hslash : Forall (fun e => IndexByte e "/" = None) (rev out))
    by (eapply Forall_impl; [exact Hrev | intros e [H _]; exact H]).
  assert (Hfold : fold_left (cleanStep rooted) (rev out) [] = out).
  { rewrite clean_fold_canon; rewrite rev_involutive, app_nil_r; [reflexivity | exact Hc]. }
  destruct rooted eqn:Er.
  - unfold Clean. cbv zeta. rewrite append_cons, append_nil.
    cbn [String.eqb]. rewrite HasPrefix_slash. cbn [Ascii.eqb Bool.eqb andb].
    cbn [elements]. cbn [Ascii.eqb Bool.eqb andb].
    destruct out as [|x out'] eqn:Eo.
    + reflexivity.
    + rewrite elements_join; [|cbn [rev]; destruct (rev out'); discriminate | exact Hslash].
      cbn [fold_left]. unfold cleanStep at 2. cbn [String.eqb orb]. rewrite Hfold. reflexivity.
  - destruct out as [|x out'] eqn:Eo; [reflexivity|].
    cbn [length Nat.eqb].
    assert (Hne : rev (x :: out') <> []) by (cbn [rev]; destruct (rev out'); discriminate).
    destruct (joinElems_head _ Hne Hrev) as (c & s & EJ & Hcs & _).
    unfold Clean. cbv zeta. rewrite EJ. cbn [String.eqb]. rewrite HasPrefix_slash.
    apply Ascii.eqb_neq in Hcs. rewrite Hcs. rewrite <- EJ.
    rewrite elements_join by assumption. rewrite Hfold. reflexivity.
Qed.

(** A name joined to a directory lands under the cleaned directory. *)
Lemma Join_name (d x : string) : isName x = true -> Join d x = inDir (Clean d) x.
Proof.
  intros Hx. pose proof Hx as Hx'. apply isName_spec in Hx' as (Hslash & Hnz & Hdot & Hdd).
  unfold Join. destruct (String.eqb d "") eqn:Ed.
  - apply String.eqb_eq in Ed. subst d.
    apply String.eqb_neq in Hnz as Hnz'. rewrite Hnz'.
    unfold Clean. rewrite Hnz'. cbv zeta.
    destruct x as [|c x]; [contradiction|]. rewrite HasPrefix_slash.
    assert (Hc : Ascii.eqb c "/" = false).
    { cbn [IndexByte] in Hslash. destruct (Ascii.eqb c "/"); [discriminate | reflexivity]. }
    rewrite Hc, (elements_plain _ Hslash). cbn [fold_left].
    rewrite cleanStep_name by exact Hx. reflexivity.
  - destruct d as [|c d]; [discriminate|].
    unfold Clean. cbv zeta. rewrite append_cons. cbn [String.eqb].
    rewrite !HasPrefix_slash, <- append_cons.
    rewrite elements_slash, (elements_plain _ Hslash), fold_left_app. cbn [fold_left].
    pose proof (clean_out_canon (String c d)) as Hc. rewrite HasPrefix_slash in Hc.
    set (rooted := Ascii.eqb c "/") in *.
    set (out := fold_left (cleanStep rooted) (elements (String c d)) []) in *.
    rewrite cleanStep_name by exact Hx. cbn [rev length Nat.eqb].
    pose proof (canon_elements rooted out Hc) as Hel.
    assert (Hrev : Forall (fun e => IndexByte e "/" = None /\ e <> "" /\ e <> ".") (rev out))
      by (apply Forall_rev; exact Hel).
    destruct out as [|y out'] eqn:Eo.
    + cbn [rev app joinElems length Nat.eqb]. destruct rooted; reflexivity.
    + assert (Hne : rev (y :: out') <> []) by (cbn [rev]; destruct (rev out'); discriminate).
      rewrite joinElems_snoc by exact Hne.
      destruct (joinElems_head _ Hne Hrev) as (a & s & EJ & Ha & HJdot).
      cbn [length Nat.eqb].
      destruct rooted.
      * assert (E1 : String.eqb ("/" +:+ joinElems (rev (y :: out'))) "." = false)
          by (rewrite EJ; reflexivity).
        assert (E2 : String.eqb ("/" +:+ joinElems (rev (y :: out'))) "/" = false)
          by (rewrite EJ; reflexivity).
        unfold inDir. rewrite E1, E2, append_assoc. reflexivity.
      * unfold inDir.
        assert (E1 : String.eqb (joinElems (rev (y :: out'))) "." = false)
          by (apply String.eqb_neq; exact HJdot).
        assert (E2 : String.eqb (joinElems (rev (y :: out'))) "/" = false).
        { apply String.eqb_neq. rewrite EJ. intros H. injection H as H _. contradiction. }
        rewrite E1, E2. reflexivity.
Qed.

(** What [Join] returns is clean. *)
Lemma Join_clean (d x : string) : isName x = true -> Clean (Join d x) = Join d x.
Proof.
  intros Hx. unfold Join.
  destruct (String.eqb d ""); [|apply Clean_idempotent].
  destruct (String.eqb x "") eqn:E; [|apply Clean_idempotent].
  apply String.eqb_eq in E. subst x. discriminate Hx.
Qed.

Lemma inDir_name (c x : string) :
  isName x = true -> inDir c x <> "." /\ inDir c x <> "/".
Proof.
  intros Hx. apply isName_spec in Hx as (Hslash & Hnz & Hdot & _). unfold inDir.
  destruct (String.eqb c "."); [|destruct (String.eqb c "/")].
  - split; [exact Hdot|]. intros ->. discriminate Hslash.
  - destruct x; [contradiction|]. split; discriminate.
  - split; intros H; apply (f_equal String.length) in H; rewrite !length_append in H;
      destruct x; try contradiction; cbn in H; lia.
Qed.

(** A file name joined to a directory that [Join] has made. *)
Lemma Join_Join (d x h : string) :
  isName x = true -> isName h = true -> Join (Join d x) h = Join d x +:+ "/" +:+ h.
Proof.
  intros Hx Hh. rewrite (Join_name (Join d x) h Hh), (Join_clean d x Hx).
  rewrite (Join_name d x Hx).
  destruct (inDir_name (Clean d) x Hx) as [H1 H2].
  apply String.eqb_neq in H1, H2. unfold inDir at 1. rewrite H1, H2. reflexivity.
Qed.

Lemma IndexByte_absent (s : string) (c : ascii) :
  (forall d, In d (String.list_ascii_of_string s) -> d <> c) -> IndexByte s c = None.
Proof.
  induction s as [|e s IH]; intros H; [reflexivity|].
  cbn [IndexByte].
  assert (E : Ascii.eqb e c = false) by (apply Ascii.eqb_neq, H; left; reflexivity).
  rewrite E, IH; [reflexivity|]. intros d Hd. apply H. right. exact Hd.
Qed.

Lemma bytes_append (a b : string) (c : ascii) :
  In c (String.list_ascii_of_string (a +:+ b)) ->
  In c (String.list_ascii_of_string a) \/ In c (String.list_ascii_of_string b).
Proof.
  induction a as [|e a IH]; intros H; [right; exact H|].
  rewrite append_cons in H. destruct H as [<-|H]; [left; left; reflexivity|].
  destruct (IH H); [left; right | right]; assumption.
Qed.

Lemma hex_byte (c : ascii) : Cache.isHexLower c = true -> c <> "/"%char /\ c <> "."%char.
Proof.
  destruct c as [[] [] [] [] [] [] [] []]; intros H; try discriminate H;
    split; discriminate.
Qed.

Lemma hexDigest_shape (h : string) :
  Cache.hexDigest h = true ->
  String.length h = 64%nat /\ IndexByte h "/" = None /\ h <> ""%string /\
  forall c, In c (String.list_ascii_of_string h) -> c <> "."%char.
Proof.
  unfold Cache.hexDigest. intros H. apply andb_true_iff in H as [Hlen Hall].
  apply Nat.eqb_eq in Hlen.
  assert (Hhex : forall c, In c (String.list_ascii_of_string h) -> Cache.isHexLower c = true).
  { intros c Hc. rewrite forallb_forall in Hall. apply Hall, Hc. }
  split; [exact Hlen|]. split; [|split].
  - apply IndexByte_absent. intros d Hd. apply hex_byte, Hhex, Hd.
  - intros ->. discriminate Hlen.
  - intros c Hc. apply hex_byte, Hhex, Hc.
Qed.

Lemma hexDigest_name (h s : string) :
  Cache.hexDigest h = true -> IndexByte s "/" = None -> isName (h +:+ s) = true.
Proof.
  intros Hh Hs. destruct (hexDigest_shape h Hh) as (Hlen & Hslash & _ & _).
  assert (Hlong : (64 <= String.length (h +:+ s))%nat) by (rewrite length_append; lia).
  apply isName_spec. split; [|split; [|split]].
  - apply IndexByte_absent. intros d Hd. apply bytes_append in Hd as [Hd|Hd].
    + apply (IndexByte_none h "/" d Hslash Hd).
    + apply (IndexByte_none s "/" d Hs Hd).
  - intros E. rewrite E in Hlong. cbn in Hlong. lia.
  - intros E. rewrite E in Hlong. cbn in Hlong. lia.
  - intros E. rewrite E in Hlong. cbn in Hlong. lia.
Qed.

End PathProps.
(** ** The SVG source before rendering *)

Section SVGProps.
Import GoStrings SVG.
Local Open Scope string_scope.

Lemma prefix_cons (c d : ascii) (w s : string) :
  String.prefix (String c w) (String d s) = true <-> c = d /\ String.prefix w s = true.
Proof.
  cbn [String.prefix]. destruct (ascii_dec c d) as [->|Hne]; split.
  - auto.
  - tauto.
  - discriminate.
  - intros [H _]. contradiction.
Qed.

Lemma sharedBytes_nil (a b : string) (c : ascii) :
  sharedBytes a b = [] ->
  In c (String.list_ascii_of_string a) -> In c (String.list_ascii_of_string b) -> False.
Proof.
  unfold sharedBytes. intros Hnone Ha Hb.
  assert (Hin : In c (List.filter (fun c => existsb (Ascii.eqb c) (String.list_ascii_of_string b))
                        (String.list_ascii_of_string a))).
  { apply filter_In. split; [exact Ha|]. apply existsb_exists. exists c.
    split; [exact Hb | apply Ascii.eqb_refl]. }
  rewrite Hnone in Hin. exact Hin.
Qed.

Section Replacing.
Variables old new : string.
Hypothesis old_not_empty : old <> "".
Hypothesis new_not_empty : new <> "".
Hypothesis nothing_shared : sharedBytes old new = [].

(** Where the output begins with bytes foreign to [new], they were copied
    from the input. *)
Lemma copied_prefix (w : string) :
  (forall c, In c (String.list_ascii_of_string w) -> ~ In c (String.list_ascii_of_string new)) ->
  forall s, String.prefix w (replaceAllFrom 0 old new s) = true -> String.prefix w s = true.
Proof.
  induction w as [|c w IH]; intros Hw s H.
  - destruct s; reflexivity.
  - destruct s as [|d rest]; [discriminate H|].
    cbn [replaceAllFrom] in H.
    destruct (String.prefix old (String d rest)) eqn:E.
    + exfalso. destruct new as [|n new'] eqn:En; [contradiction|].
      rewrite append_cons in H. apply prefix_cons in H as [-> _].
      apply (Hw n); left; reflexivity.
    + apply prefix_cons in H as [-> H]. apply prefix_cons. split; [reflexivity|].
      apply IH; [|exact H]. intros c Hc. apply Hw. right. exact Hc.
Qed.

Lemma Contains_after (x : string) :
  Contains x old = false ->
  forall n,
    (forall c, In c (String.list_ascii_of_string n) -> In c (String.list_ascii_of_string new)) ->
    Contains (n +:+ x) old = false.
Proof.
  intros Hx. induction n as [|c n IH]; intros Hn; [exact Hx|].
  rewrite append_cons. cbn [Contains]. apply orb_false_iff. split.
  - destruct old as [|o old'] eqn:Eo; [contradiction|].
    apply not_true_iff_false. intros H. apply prefix_cons in H as [-> _].
    apply (sharedBytes_nil _ _ c nothing_shared); [left; reflexivity|].
    apply Hn. left. reflexivity.
  - apply IH. intros c' Hc'. apply Hn. right. exact Hc'.
Qed.

(** After [ReplaceAll] no occurrence of [old] is left. *)
Lemma replaceAll_clears (s : string) :
  forall skip, Contains (replaceAllFrom skip old new s) old = false.
Proof.
  induction s as [|d rest IH]; intros skip.
  - destruct skip; cbn [replaceAllFrom Contains]; rewrite orb_false_r;
      destruct old; [contradiction | reflexivity | contradiction | reflexivity].
  - cbn [replaceAllFrom]. destruct skip as [|k]; [|apply IH].
    destruct (String.prefix old (String d rest)) eqn:E.
    + apply Contains_after; [apply IH | auto].
    + cbn [Contains]. rewrite IH, orb_false_r.
      apply not_true_iff_false. intros H.
      assert (Hcopy : String.prefix old (String d rest) = true).
      { apply copied_prefix.
        - intros c Hc Hc'. exact (sharedBytes_nil _ _ c nothing_shared Hc Hc').
        - cbn [replaceAllFrom]. rewrite E. exact H. }
      congruence.
Qed.

(** A string without an occurrence is copied as it is. *)
Lemma replaceAll_none (s : string) :
  Contains s old = false -> replaceAllFrom 0 old new s = s.
Proof.
  induction s as [|c s IH]; intros H; [reflexivity|].
  cbn [Contains] in H. apply orb_false_iff in H as [Hp Hc].
  cbn [replaceAllFrom]. rewrite Hp, IH by exact Hc. reflexivity.
Qed.

Lemma replaceFirst_none (s : string) :
  Contains s old = false -> replaceFirst old new s = s.
Proof.
  induction s as [|c s IH]; intros H.
  - cbn [Contains] in H. rewrite orb_false_r in H. cbn [replaceFirst]. rewrite H. reflexivity.
  - cbn [Contains] in H. apply orb_false_iff in H as [Hp Hc].
    cbn [replaceFirst]. rewrite Hp, IH by exact Hc. reflexivity.
Qed.

(** The bytes of an occurrence that has been replaced are passed over. *)
Lemma replaceAll_skip (o b : string) :
  replaceAllFrom (String.length o) old new (o +:+ b) = replaceAllFrom 0 old new b.
Proof.
  induction o as [|c o IH]; [destruct b; reflexivity|].
  rewrite append_cons. cbn [String.length replaceAllFrom]. exact IH.
Qed.

(** Whether [w] begins a string is decided by its first [len(w)] bytes. *)
Lemma prefix_within (w x t : string) :
  (String.length w <= String.length x)%nat ->
  String.prefix w (x +:+ t) = String.prefix w x.
Proof.
  revert x. induction w as [|c w IH]; intros x H.
  - destruct x, (_ +:+ t); reflexivity.
  - destruct x as [|d x]; [cbn in H; lia|].
    rewrite append_cons. cbn [String.prefix].
    destruct (ascii_dec c d); [apply IH; cbn in H; lia | reflexivity].
Qed.

Variable body : string.
Variable last : ascii.
Hypothesis old_split : old = body +:+ String last "".

Lemma before_first (c : ascii) (a b : string) :
  Contains (String c a +:+ body) old = false ->
  String.prefix old (String c a +:+ old +:+ b) = false /\ Contains (a +:+ body) old = false.
Proof.
  rewrite append_cons. cbn [Contains]. intros H. apply orb_false_iff in H as [Hp Hc].
  split; [|exact Hc].
  rewrite old_split at 2. rewrite (append_assoc body), <- (append_assoc (String c a)).
  rewrite <- append_cons in Hp.
  rewrite prefix_within; [exact Hp|].
  rewrite old_split, !length_append. cbn [String.length]. lia.
Qed.

(** The first occurrence is replaced, what stands before it is copied, and
    the work goes on behind it. *)
Lemma replaceAll_first (a b : string) :
  Contains (a +:+ body) old = false ->
  replaceAllFrom 0 old new (a +:+ old +:+ b) = a +:+ new +:+ replaceAllFrom 0 old new b.
Proof.
  induction a as [|c a IH]; intros H.
  - rewrite !append_nil.
    assert (Hp : String.prefix old (old +:+ b) = true) by apply prefix_append, prefix_refl.
    assert (Hold : exists d o, old = String d o).
    { rewrite old_split. destruct body; [exists last, "" | eexists _, _]; reflexivity. }
    destruct Hold as (d & o & Eo).
    assert (E2 : old +:+ b = String d (o +:+ b)) by (rewrite Eo; reflexivity).
    rewrite E2. cbn [replaceAllFrom]. rewrite <- E2, Hp.
    replace (String.length old - 1)%nat with (String.length o) by (rewrite Eo; cbn; lia).
    rewrite replaceAll_skip. reflexivity.
  - destruct (before_first c a b H) as [Hp Hc].
    rewrite append_cons in Hp |- *. cbn [replaceAllFrom]. rewrite Hp, IH by exact Hc.
    reflexivity.
Qed.

Lemma replaceFirst_first (a b : string) :
  Contains (a +:+ body) old = false ->
  replaceFirst old new (a +:+ old +:+ b) = a +:+ new +:+ b.
Proof.
  induction a as [|c a IH]; intros H.
  - rewrite !append_nil.
    assert (Hp : String.prefix old (old +:+ b) = true) by apply prefix_append, prefix_refl.
    destruct (old +:+ b) eqn:E; cbn [replaceFirst]; rewrite Hp, <- E, drop_append; reflexivity.
  - destruct (before_first c a b H) as [Hp Hc].
    rewrite append_cons in Hp |- *. cbn [replaceFirst]. rewrite Hp, IH by exact Hc.
    reflexivity.
Qed.

End Replacing.

(** X22: what [preprocessSVG] does to the source.  The text handed to the
    renderer holds no [currentColor]: the replacement cannot make a new one.
    Every occurrence is replaced by [#333333] and everything else is copied:
    a text without the keyword comes out as it is, and a text whose first
    occurrence stands behind [a] comes out as [a], then [#333333], then the
    rest treated the same way.  Before that, a source that names no [xmlns]
    gets the namespace declared in its first [<svg] tag, the text around the
    tag being kept; a source that names [xmlns], or has no [<svg] tag, is
    only searched for the keyword. *)
Theorem preprocessSVG_no_currentColor (data a b : string) :
  let recolour s := ReplaceAll s "currentColor" "#333333" in
  Contains (preprocessSVG data) "currentColor" = false /\
  (Contains data "currentColor" = false -> recolour data = data) /\
  (Contains (a +:+ "currentColo") "currentColor" = false ->
   recolour (a +:+ "currentColor" +:+ b) = a +:+ "#333333" +:+ recolour b) /\
  (Contains data "xmlns" = true \/ Contains data "<svg" = false ->
   preprocessSVG data = recolour data) /\
  (Contains data "xmlns" = false -> data = a +:+ "<svg" +:+ b ->
   Contains (a +:+ "<sv") "<svg" = false ->
   preprocessSVG data = recolour (a +:+ svgWithNamespace +:+ b)).
Proof.
  cbv zeta. split; [|split; [|split; [|split]]].
  - unfold preprocessSVG, ReplaceAll. cbv zeta.
    apply replaceAll_clears; [discriminate | discriminate | reflexivity].
  - apply replaceAll_none.
  - apply (replaceAll_first "currentColor" "#333333" "currentColo" "r"). reflexivity.
  - unfold preprocessSVG. cbv zeta. intros [-> | ->]; [reflexivity|].
    rewrite andb_false_r. reflexivity.
  - intros Hns -> Hfirst. unfold preprocessSVG. cbv zeta.
    rewrite Hns, Contains_middle. cbn [negb andb].
    rewrite (replaceFirst_first "<svg" svgWithNamespace "<sv" "g" eq_refl a b Hfirst).
    reflexivity.
Qed.

(** The sample source comes out with its namespace declared and both
    keywords replaced. *)
Example preprocessSVG_icon :
  preprocessSVG icon =
    "<svg xmlns=" +:+ quote +:+ "http://www.w3.org/2000/svg" +:+ quote +:+
    " viewBox='0 0 8 8'><path fill='#333333' stroke='#333333' d='M0 0h8v8z'/></svg>".
Proof. vm_compute. reflexivity. Qed.

End SVGProps.
(** ** The sample grid and the two blank-image heuristics *)

Section ImageProps.
Import Loop Image.

(** One more unit of fuel changes nothing once [hi - lo] iterations are
    allowed: [range] never stops for lack of fuel. *)
Lemma ticks_fuel_enough (fuel : nat) :
  forall lo hi stride, 1 <= stride -> hi - lo <= Z.of_nat fuel ->
    ticks (S fuel) lo hi stride = ticks fuel lo hi stride.
Proof.
  induction fuel as [|fuel IH]; intros lo hi stride Hs Hf.
  - simpl. destruct (lo <? hi) eqn:E; [apply Z.ltb_lt in E; lia | reflexivity].
  - change (ticks (S (S fuel)) lo hi stride)
      with (if lo <? hi then lo :: ticks (S fuel) (lo + stride) hi stride else []).
    change (ticks (S fuel) lo hi stride)
      with (if lo <? hi then lo :: ticks fuel (lo + stride) hi stride else []).
    destruct (lo <? hi); [|reflexivity].
    f_equal. apply IH; lia.
Qed.

Lemma stepOf_pos (extent : Z) : 1 <= stepOf extent.
Proof.
  unfold stepOf, max. destruct (1 <? extent ÷ 20) eqn:E.
  - apply Z.ltb_lt in E. lia.
  - lia.
Qed.

Lemma blankBody_inked (img : Image) (y count x : Z) :
  blankBody img y count x =
    if inked (At img x y)
    then if 3 <? count + 1 then Return false else Continue (count + 1)
    else Continue count.
Proof.
  unfold blankBody, inked.
  destruct (isOpaque (At img x y)), (notNearWhite (At img x y)); reflexivity.
Qed.

(** The inner loop of [IsNearlyBlank] is a saturating count of inked samples. *)
Lemma blank_row_count (img : Image) (y : Z) (xs : list Z) :
  forall count, 0 <= count <= 3 ->
    for_each (blankBody img y) xs count =
      let n := count + Z.of_nat (length (List.filter inked (map (fun x => At img x y) xs))) in
      if 3 <? n then Return false else Continue n.
Proof.
  induction xs as [|x xs IH]; intros count Hc; cbn [for_each map List.filter].
  - cbn. rewrite Z.add_0_r.
    destruct (3 <? count) eqn:E; [apply Z.ltb_lt in E; lia | reflexivity].
  - rewrite blankBody_inked. cbv zeta.
    destruct (inked (At img x y)).
    + cbn [length]. rewrite Nat2Z.inj_succ.
      set (a := Z.of_nat (length _)). assert (0 <= a) by (subst a; lia).
      destruct (3 <? count + 1) eqn:E.
      * apply Z.ltb_lt in E.
        destruct (3 <? count + Z.succ a) eqn:E'; [reflexivity | apply Z.ltb_ge in E'; lia].
      * apply Z.ltb_ge in E. rewrite IH by lia. cbv zeta. fold a.
        replace (count + 1 + a) with (count + Z.succ a) by lia. reflexivity.
    + apply IH; lia.
Qed.

Lemma blank_grid_count (img : Image) (xs ys : list Z) :
  forall count, 0 <= count <= 3 ->
    for_each (fun count y => for_each (blankBody img y) xs count) ys count =
      let n := count + Z.of_nat (length (List.filter inked
                 (flat_map (fun y => map (fun x => At img x y) xs) ys))) in
      if 3 <? n then Return false else Continue n.
Proof.
  induction ys as [|y ys IH]; intros count Hc; cbn [for_each flat_map].
  - cbn. rewrite Z.add_0_r.
    destruct (3 <? count) eqn:E; [apply Z.ltb_lt in E; lia | reflexivity].
  - rewrite blank_row_count by assumption. cbv zeta.
    rewrite List.filter_app, length_app, Nat2Z.inj_add.
    set (a := Z.of_nat (length (List.filter _ (map _ xs)))).
    set (b := Z.of_nat (length (List.filter _ (flat_map _ ys)))).
    assert (0 <= a) by (subst a; lia). assert (0 <= b) by (subst b; lia).
    destruct (3 <? count + a) eqn:E.
    + apply Z.ltb_lt in E.
      destruct (3 <? count + (a + b)) eqn:E'; [reflexivity | apply Z.ltb_ge in E'; lia].
    + apply Z.ltb_ge in E. rewrite IH by lia. cbv zeta. fold b.
      replace (count + a + b) with (count + (a + b)) by lia. reflexivity.
Qed.

(** [IsNearlyBlank] rejects exactly the images with at most 3 inked samples. *)
Lemma IsNearlyBlank_spec (img : Image) :
  IsNearlyBlank (Some img) =
    (Dx (Bounds img) <=? 0) || (Dy (Bounds img) <=? 0) || (tally inked img <=? 3).
Proof.
  unfold IsNearlyBlank.
  destruct ((Dx (Bounds img) <=? 0) || (Dy (Bounds img) <=? 0)); [reflexivity|].
  rewrite blank_grid_count by lia. cbv zeta. cbn [orb].
  rewrite Z.add_0_l. unfold tally, sampled, rows, cols.
  rewrite Z.leb_antisym. destruct (3 <? _); reflexivity.
Qed.

Lemma blackBody_counts (img : Image) (y : Z) (colored opaque x : Z) :
  blackBody img y (colored, opaque) x =
    (colored + (if coloured (At img x y) then 1 else 0),
     opaque + (if isOpaque (At img x y) then 1 else 0)).
Proof.
  unfold blackBody, coloured.
  destruct (isOpaque (At img x y)); cbn [andb];
    [destruct (negb (isBlack (At img x y)) && negb (isWhite (At img x y)))|];
    rewrite ?Z.add_0_r; reflexivity.
Qed.

Lemma length_filter_cons (p : Color -> bool) (c : Color) (l : list Color) :
  Z.of_nat (length (List.filter p (c :: l))) =
    (if p c then 1 else 0) + Z.of_nat (length (List.filter p l)).
Proof. cbn [List.filter]. destruct (p c); cbn [length]; lia. Qed.

Lemma black_row_count (img : Image) (y : Z) (xs : list Z) :
  forall colored opaque,
    fold_left (blackBody img y) xs (colored, opaque) =
      (colored + Z.of_nat (length (List.filter coloured (map (fun x => At img x y) xs))),
       opaque + Z.of_nat (length (List.filter isOpaque (map (fun x => At img x y) xs)))).
Proof.
  induction xs as [|x xs IH]; intros colored opaque; cbn [fold_left map].
  - cbn. rewrite !Z.add_0_r. reflexivity.
  - rewrite blackBody_counts, IH, !length_filter_cons. f_equal; lia.
Qed.

Lemma black_grid_count (img : Image) (xs ys : list Z) :
  forall colored opaque,
    fold_left (fun st y => fold_left (blackBody img y) xs st) ys (colored, opaque) =
      (colored + Z.of_nat (length (List.filter coloured
                 (flat_map (fun y => map (fun x => At img x y) xs) ys))),
       opaque + Z.of_nat (length (List.filter isOpaque
                 (flat_map (fun y => map (fun x => At img x y) xs) ys)))).
Proof.
  induction ys as [|y ys IH]; intros colored opaque; cbn [fold_left flat_map].
  - cbn. rewrite !Z.add_0_r. reflexivity.
  - rewrite black_row_count, IH, !List.filter_app, !length_app. f_equal; lia.
Qed.

(** [IsNearlyBlankOrBlack] in terms of the two tallies. *)
Lemma IsNearlyBlankOrBlack_spec (img : Image) :
  IsNearlyBlankOrBlack (Some img) =
    (Dx (Bounds img) <=? 0) || (Dy (Bounds img) <=? 0)
    || ((tally isOpaque img <? 5) || (tally coloured img <? 3)).
Proof.
  unfold IsNearlyBlankOrBlack.
  destruct ((Dx (Bounds img) <=? 0) || (Dy (Bounds img) <=? 0)); [reflexivity|].
  rewrite black_grid_count. reflexivity.
Qed.

(** A coloured sample is an inked one: not near-white at 240 is not
    near-white at 250. *)
Lemma coloured_inked (c : Color) : coloured c = true -> inked c = true.
Proof.
  unfold coloured, inked, notNearWhite, isWhite.
  destruct (isOpaque c); [|discriminate]. cbn [andb].
  destruct (isBlack c); [discriminate|]. cbn [negb andb].
  intros H. apply negb_true_iff in H. apply negb_true_iff.
  apply andb_false_iff in H as [H|H]; [apply andb_false_iff in H as [H|H]|];
    apply Z.ltb_ge in H.
  - apply andb_false_iff. left. apply andb_false_iff. left. apply Z.ltb_ge. lia.
  - apply andb_false_iff. left. apply andb_false_iff. right. apply Z.ltb_ge. lia.
  - apply andb_false_iff. right. apply Z.ltb_ge. lia.
Qed.

Lemma filter_length_mono (p q : Color -> bool) (l : list Color) :
  (forall c, p c = true -> q c = true) ->
  (length (List.filter p l) <= length (List.filter q l))%nat.
Proof.
  intros Hpq. induction l as [|c l IH]; [reflexivity|].
  cbn [List.filter]. destruct (p c) eqn:Hp.
  - rewrite (Hpq c Hp). cbn [length]. lia.
  - destruct (q c); cbn [length]; lia.
Qed.

Lemma tally_coloured_le_inked (img : Image) : tally coloured img <= tally inked img.
Proof.
  unfold tally. apply inj_le. apply filter_length_mono, coloured_inked.
Qed.

(** C8 (as stated): a counterexample.  On the 3x3 icon [stripe] the
    nearly-blank filter rejects (it counts exactly 3 inked samples, and it
    needs more than 3 to accept) while the blank-or-black filter accepts
    (9 opaque samples, 3 of them coloured). *)
Lemma IsNearlyBlank_not_weaker_cex :
  IsNearlyBlank (Some stripe) = true /\ IsNearlyBlankOrBlack (Some stripe) = false.
Proof. split; vm_compute; reflexivity. Qed.

(** C8 (amended): whenever [IsNearlyBlank] rejects an image and the number of
    opaque, not-near-white samples on the grid is not exactly 3 (so it is at
    most 2), [IsNearlyBlankOrBlack] rejects it too. *)
Theorem IsNearlyBlank_implies_BlankOrBlack (img : option Image) :
  IsNearlyBlank img = true ->
  inkedSamples img <> 3 ->
  IsNearlyBlankOrBlack img = true.
Proof.
  destruct img as [img|]; [|reflexivity].
  rewrite IsNearlyBlank_spec, IsNearlyBlankOrBlack_spec. cbn [inkedSamples].
  destruct ((Dx (Bounds img) <=? 0) || (Dy (Bounds img) <=? 0)); [reflexivity|].
  cbn [orb]. intros Hle Hne. apply Z.leb_le in Hle.
  pose proof (tally_coloured_le_inked img).
  apply orb_true_iff. right. apply Z.ltb_lt. lia.
Qed.

Lemma IsNearlyBlank_implies_BlankOrBlack_witness :
  IsNearlyBlank (Some blankSquare) = true /\
  inkedSamples (Some blankSquare) <> 3 /\
  IsNearlyBlankOrBlack (Some blankSquare) = true.
Proof.
  assert (H1 : IsNearlyBlank (Some blankSquare) = true) by (vm_compute; reflexivity).
  assert (H2 : inkedSamples (Some blankSquare) <> 3) by (vm_compute; discriminate).
  split; [exact H1|]. split; [exact H2|].
  exact (IsNearlyBlank_implies_BlankOrBlack (Some blankSquare) H1 H2).
Defined.

(** ** How much of an image the heuristics look at *)

Lemma ticks_length_le (fuel : nat) :
  forall lo hi stride (n : nat),
    1 <= stride -> hi - lo <= Z.of_nat n * stride ->
    (length (ticks fuel lo hi stride) <= n)%nat.
Proof.
  induction fuel as [|fuel IH]; intros lo hi stride n Hs Hn; cbn [ticks length]; [lia|].
  destruct (lo <? hi) eqn:E; cbn [length]; [|lia].
  apply Z.ltb_lt in E. destruct n as [|n]; [lia|].
  apply le_n_S, IH; [exact Hs | lia].
Qed.

Lemma ticks_length_ge (n : nat) :
  forall fuel lo hi stride,
    1 <= stride -> (n <= fuel)%nat -> (Z.of_nat n - 1) * stride < hi - lo ->
    (n <= length (ticks fuel lo hi stride))%nat.
Proof.
  induction n as [|n IH]; intros fuel lo hi stride Hs Hf Hn; [lia|].
  destruct fuel as [|fuel]; [lia|]. cbn [ticks].
  destruct (lo <? hi) eqn:E.
  - cbn [length]. apply le_n_S, IH; [exact Hs | lia | lia].
  - apply Z.ltb_ge in E. nia.
Qed.

Lemma ticks_head (fuel : nat) (lo hi stride : Z) :
  (0 < fuel)%nat -> lo < hi -> hd_error (ticks fuel lo hi stride) = Some lo.
Proof.
  intros Hf Hlt. destruct fuel as [|fuel]; [lia|]. cbn [ticks].
  apply Z.ltb_lt in Hlt. rewrite Hlt. reflexivity.
Qed.

(** The stride never makes more than 39 steps across an extent, and at least
    20 when the extent has that many pixels. *)
Lemma stepOf_bounds (extent : Z) :
  0 < extent ->
  extent <= 39 * stepOf extent /\ (Z.min extent 20 - 1) * stepOf extent < extent.
Proof.
  intros Hpos. unfold stepOf, max.
  pose proof (Z.quot_rem' extent 20) as Hqr.
  pose proof (Z.rem_bound_pos extent 20 ltac:(lia) ltac:(lia)) as Hr.
  destruct (1 <? extent ÷ 20) eqn:E.
  - apply Z.ltb_lt in E. lia.
  - apply Z.ltb_ge in E. lia.
Qed.

Lemma range_length (lo hi : Z) :
  lo < hi ->
  let n := Z.of_nat (length (range lo hi (stepOf (hi - lo)))) in
  Z.min (hi - lo) 20 <= n /\ n <= Z.min (hi - lo) 39.
Proof.
  intros Hlt. cbv zeta. unfold range.
  pose proof (stepOf_pos (hi - lo)) as Hs.
  destruct (stepOf_bounds (hi - lo) ltac:(lia)) as [Hup Hlow].
  split.
  - pose proof (ticks_length_ge (Z.to_nat (Z.min (hi - lo) 20)) (Z.to_nat (hi - lo))
                  lo hi (stepOf (hi - lo)) Hs) as H.
    rewrite Z2Nat.id in H by lia. specialize (H ltac:(lia) Hlow). lia.
  - pose proof (ticks_length_le (Z.to_nat (hi - lo)) lo hi (stepOf (hi - lo))
                  (Z.to_nat (hi - lo)) Hs) as H1.
    rewrite Z2Nat.id in H1 by lia. specialize (H1 ltac:(nia)).
    pose proof (ticks_length_le (Z.to_nat (hi - lo)) lo hi (stepOf (hi - lo)) 39 Hs) as H2.
    specialize (H2 ltac:(lia)). lia.
Qed.

Lemma sampled_length (img : Image) :
  length (sampled img) =
    (length (rows (Bounds img)) * length (cols (Bounds img)))%nat.
Proof.
  unfold sampled. induction (rows (Bounds img)) as [|y ys IH]; [reflexivity|].
  cbn [flat_map length]. rewrite length_app, IH, length_map. cbn [Nat.mul]. lia.
Qed.

Lemma tally_le_sampled (p : Color -> bool) (img : Image) :
  tally p img <= Z.of_nat (length (sampled img)).
Proof.
  unfold tally. apply inj_le. induction (sampled img) as [|c l IH]; [reflexivity|].
  cbn [List.filter]. destruct (p c); cbn [length]; lia.
Qed.

(** X18: how much of an image the two heuristics look at.  On an image of
    [w] by [h] pixels the sample grid has between [min(w, 20)] and
    [min(w, 39)] columns and between [min(h, 20)] and [min(h, 39)] rows, so
    at most 1521 pixels are read whatever the size of the image, and no
    counter can exceed that; the top-left pixel is always the first
    sample. *)
Theorem sample_grid_size (img : Image) :
  let b := Bounds img in
  0 < Dx b -> 0 < Dy b ->
  let nx := Z.of_nat (length (cols b)) in
  let ny := Z.of_nat (length (rows b)) in
  (Z.min (Dx b) 20 <= nx <= Z.min (Dx b) 39) /\
  (Z.min (Dy b) 20 <= ny <= Z.min (Dy b) 39) /\
  Z.of_nat (length (sampled img)) = ny * nx /\
  (forall p, tally p img <= 1521) /\
  hd_error (sampled img) = Some (At img (MinX b) (MinY b)).
Proof.
  cbv zeta. intros Hw Hh. unfold Dx, Dy in *.
  pose proof (range_length (MinX (Bounds img)) (MaxX (Bounds img)) ltac:(lia)) as Hx.
  pose proof (range_length (MinY (Bounds img)) (MaxY (Bounds img)) ltac:(lia)) as Hy.
  cbv zeta in Hx, Hy. fold (Dx (Bounds img)) in Hx. fold (Dy (Bounds img)) in Hy.
  fold (cols (Bounds img)) in Hx. fold (rows (Bounds img)) in Hy.
  fold (Dx (Bounds img)) (Dy (Bounds img)).
  assert (Hlen : Z.of_nat (length (sampled img)) =
                 Z.of_nat (length (rows (Bounds img))) * Z.of_nat (length (cols (Bounds img)))).
  { rewrite sampled_length. lia. }
  split; [exact Hx|]. split; [exact Hy|]. split; [exact Hlen|]. split.
  - intros p. pose proof (tally_le_sampled p img). nia.
  - unfold sampled, rows, cols, range, Dx, Dy.
    pose proof (ticks_head (Z.to_nat (MaxY (Bounds img) - MinY (Bounds img)))
                  (MinY (Bounds img)) (MaxY (Bounds img))
                  (stepOf (MaxY (Bounds img) - MinY (Bounds img))) ltac:(lia) ltac:(lia)) as Hy0.
    pose proof (ticks_head (Z.to_nat (MaxX (Bounds img) - MinX (Bounds img)))
                  (MinX (Bounds img)) (MaxX (Bounds img))
                  (stepOf (MaxX (Bounds img) - MinX (Bounds img))) ltac:(lia) ltac:(lia)) as Hx0.
    destruct (ticks _ (MinY (Bounds img)) _ _) as [|y ys]; [discriminate|].
    injection Hy0 as ->. cbn [flat_map].
    destruct (ticks _ (MinX (Bounds img)) _ _) as [|x xs]; [discriminate|].
    injection Hx0 as ->. reflexivity.
Qed.

(** X19: tiny icons are always judged blank.  An image of at most three
    pixels (1x1, 1x2, 1x3, ...) can never reach the four inked samples
    [IsNearlyBlank] asks for, so [HasVisibleContent] is [false] for it
    whatever its colours; and an image of at most four pixels (2x2 included)
    can never reach the five opaque samples [IsNearlyBlankOrBlack] asks
    for. *)
Theorem tiny_images_are_blank (img : Image) :
  let b := Bounds img in
  (Dx b * Dy b <= 3 ->
   IsNearlyBlank (Some img) = true /\ HasVisibleContent (Some img) = false) /\
  (Dx b * Dy b <= 4 -> IsNearlyBlankOrBlack (Some img) = true).
Proof.
  cbv zeta.
  assert (Hcount : forall p, 0 < Dx (Bounds img) -> 0 < Dy (Bounds img) ->
                     tally p img <= Dx (Bounds img) * Dy (Bounds img)).
  { intros p Hw Hh. pose proof (tally_le_sampled p img) as Hle.
    pose proof (range_length (MinX (Bounds img)) (MaxX (Bounds img))) as Hx.
    pose proof (range_length (MinY (Bounds img)) (MaxY (Bounds img))) as Hy.
    unfold Dx, Dy in *. cbv zeta in Hx, Hy.
    specialize (Hx ltac:(lia)). specialize (Hy ltac:(lia)).
    rewrite sampled_length in Hle. unfold rows, cols, Dx, Dy in Hle. nia. }
  split; intros Hsmall.
  - assert (H : IsNearlyBlank (Some img) = true).
    { rewrite IsNearlyBlank_spec.
      destruct (Dx (Bounds img) <=? 0) eqn:Ew; [reflexivity|].
      destruct (Dy (Bounds img) <=? 0) eqn:Eh; [reflexivity|].
      apply Z.leb_gt in Ew, Eh. cbn [orb]. apply Z.leb_le.
      pose proof (Hcount inked Ew Eh). lia. }
    split; [exact H|]. unfold HasVisibleContent. rewrite H. reflexivity.
  - rewrite IsNearlyBlankOrBlack_spec.
    destruct (Dx (Bounds img) <=? 0) eqn:Ew; [reflexivity|].
    destruct (Dy (Bounds img) <=? 0) eqn:Eh; [reflexivity|].
    apply Z.leb_gt in Ew, Eh. cbn [orb].
    assert (E : (tally isOpaque img <? 5) = true).
    { apply Z.ltb_lt. pose proof (Hcount isOpaque Ew Eh). lia. }
    rewrite E. reflexivity.
Qed.

(** X20: [HasVisibleContent], spelled out.  The early return of the scan
    does not change its answer: an image has visible content exactly when it
    is not empty and more than three of its samples are opaque and not
    near-white; a nil image has none. *)
Theorem HasVisibleContent_counts (img : Image) :
  HasVisibleContent None = false /\
  (HasVisibleContent (Some img) = true <->
   0 < Dx (Bounds img) /\ 0 < Dy (Bounds img) /\ 3 < tally inked img).
Proof.
  split; [reflexivity|].
  unfold HasVisibleContent. rewrite IsNearlyBlank_spec, negb_true_iff, !orb_false_iff.
  rewrite !Z.leb_gt. tauto.
Qed.

(** X21: an image without an opaque pixel is blank for both heuristics.  So
    is, in particular, the one-pixel image of [CreateBlankImage], and every
    fresh [image.NewRGBA]. *)
Theorem transparent_images_are_blank (img : Image) :
  (forall x y, isOpaque (At img x y) = false) ->
  IsNearlyBlank (Some img) = true /\ IsNearlyBlankOrBlack (Some img) = true /\
  HasVisibleContent (Some img) = false.
Proof.
  intros Hclear.
  assert (Hnone : forall p, (forall c, p c = true -> isOpaque c = true) -> tally p img = 0).
  { intros p Hp. unfold tally, sampled.
    assert (H : forall l, Forall (fun c => isOpaque c = false) l ->
                          length (List.filter p l) = O).
    { induction l as [|c l IH]; intros Hl; [reflexivity|].
      inversion Hl as [|? ? Hc Hl']; subst. cbn [List.filter].
      destruct (p c) eqn:E; [apply Hp in E; congruence | apply IH, Hl']. }
    rewrite H; [reflexivity|].
    apply Forall_forall. intros c Hc.
    apply list_elem_of_In, in_flat_map in Hc as (y & _ & Hc).
    apply in_map_iff in Hc as (x & <- & _). apply Hclear. }
  assert (H : IsNearlyBlank (Some img) = true).
  { rewrite IsNearlyBlank_spec, Hnone.
    - rewrite orb_true_r. reflexivity.
    - intros c Hc. unfold inked in Hc. apply andb_true_iff in Hc. tauto. }
  split; [exact H|]. split.
  - rewrite IsNearlyBlankOrBlack_spec, (Hnone isOpaque) by auto.
    rewrite !orb_true_r. reflexivity.
  - unfold HasVisibleContent. rewrite H. reflexivity.
Qed.

Lemma sample_grid_size_witness :
  Z.of_nat (length (sampled stripe)) = 9 /\ tally inked stripe <= 1521.
Proof.
  destruct (sample_grid_size stripe) as (_ & _ & Hlen & Hmax & _);
    [reflexivity | reflexivity |].
  split; [rewrite Hlen; reflexivity | apply Hmax].
Defined.

Lemma tiny_images_are_blank_witness :
  let dot := mkImage (Rect 0 0 1 1) (fun _ _ => opaqueRed) in
  IsNearlyBlank (Some dot) = true /\ HasVisibleContent (Some dot) = false.
Proof.
  intros dot. apply (proj1 (tiny_images_are_blank dot)). vm_compute. discriminate.
Defined.

Lemma transparent_images_are_blank_witness :
  IsNearlyBlank (Some CreateBlankImage) = true /\
  IsNearlyBlankOrBlack (Some CreateBlankImage) = true /\
  HasVisibleContent (Some CreateBlankImage) = false.
Proof.
  apply (transparent_images_are_blank CreateBlankImage). intros x y. reflexivity.
Defined.

(** ** Filling a buffer with white *)

Lemma fill_pixel (pre rest : list Z) (a b c d : Z) :
  <[(length pre + 3)%nat := 255]> (<[(length pre + 2)%nat := 255]>
    (<[(length pre + 1)%nat := 255]> (<[length pre := 255]>
       (pre ++ a :: b :: c :: d :: rest)))) =
  ((pre ++ [255; 255; 255; 255]) ++ rest)%list.
Proof.
  rewrite !insert_app_r_alt by (rewrite ?length_insert, ?length_app; cbn; lia).
  replace (length pre - length pre)%nat with 0%nat by lia.
  replace (length pre + 1 - length pre)%nat with 1%nat by lia.
  replace (length pre + 2 - length pre)%nat with 2%nat by lia.
  replace (length pre + 3 - length pre)%nat with 3%nat by lia.
  cbn. rewrite <- app_assoc. reflexivity.
Qed.

Lemma fillFrom_whole (m : nat) :
  forall fuel (pre rest : list Z),
    length rest = (4 * m)%nat -> (m < fuel)%nat ->
    fillFrom fuel (length pre) (pre ++ rest) = Some (pre ++ repeat 255 (4 * m))%list.
Proof.
  induction m as [|m IH]; intros fuel pre rest Hlen Hfuel;
    (destruct fuel as [|fuel]; [lia|]); cbn [fillFrom].
  - destruct rest; [|discriminate]. change (4 * 0)%nat with 0%nat. cbn [repeat].
    rewrite !app_nil_r.
    rewrite (proj2 (Nat.ltb_ge _ _)) by lia. reflexivity.
  - destruct rest as [|a [|b [|c [|d rest]]]]; try (cbn in Hlen; lia).
    rewrite length_app. cbn [length].
    rewrite (proj2 (Nat.ltb_lt _ _)) by lia. rewrite (proj2 (Nat.ltb_lt _ _)) by lia.
    rewrite fill_pixel.
    replace (length pre + 4)%nat with (length (pre ++ [255; 255; 255; 255]))
      by (rewrite length_app; reflexivity).
    rewrite IH by (cbn in Hlen; lia).
    rewrite <- app_assoc. f_equal. f_equal.
    replace (4 * S m)%nat with (4 + 4 * m)%nat by lia. reflexivity.
Qed.

Lemma fillFrom_ragged (m : nat) :
  forall fuel i (pix : list Z) (r : nat),
    length pix = (i + 4 * m + r)%nat -> (1 <= r <= 3)%nat -> (m < fuel)%nat ->
    fillFrom fuel i pix = None.
Proof.
  induction m as [|m IH]; intros fuel i pix r Hlen Hr Hfuel;
    (destruct fuel as [|fuel]; [lia|]); cbn [fillFrom].
  - rewrite (proj2 (Nat.ltb_lt _ _)) by lia. rewrite (proj2 (Nat.ltb_ge _ _)) by lia.
    reflexivity.
  - rewrite (proj2 (Nat.ltb_lt _ _)) by lia. rewrite (proj2 (Nat.ltb_lt _ _)) by lia.
    apply (IH fuel (i + 4)%nat _ r); [|exact Hr | lia].
    rewrite !length_insert. lia.
Qed.

(** X23: [fillWithWhite] makes the whole buffer white.  On a buffer of [n]
    whole pixels, as [image.NewRGBA] allocates it, every one of the [4 * n]
    bytes is 255 afterwards: each pixel is opaque white.  On a buffer whose
    length is not a multiple of four the indexing runs out of range and the
    function panics. *)
Theorem fillWithWhite_all_white (pix : list Z) :
  (forall n, length pix = (4 * n)%nat -> fillWithWhite pix = Some (repeat 255 (4 * n))) /\
  (length pix mod 4 <> 0 -> fillWithWhite pix = None)%nat.
Proof.
  unfold fillWithWhite. split.
  - intros n Hlen. apply (fillFrom_whole n (S (length pix)) [] pix Hlen). lia.
  - intros Hrag.
    pose proof (Nat.div_mod_eq (length pix) 4) as Hdm.
    pose proof (Nat.mod_upper_bound (length pix) 4 ltac:(lia)) as Hup.
    apply (fillFrom_ragged (length pix / 4) _ 0 pix (length pix mod 4)); lia.
Qed.

Lemma fillWithWhite_all_white_witness :
  fillWithWhite [0; 0; 0; 0; 12; 34; 56; 78] = Some (repeat 255 8) /\
  fillWithWhite [0; 0; 0; 0; 12; 34] = None.
Proof.
  destruct (fillWithWhite_all_white [0; 0; 0; 0; 12; 34; 56; 78]) as [H _].
  destruct (fillWithWhite_all_white [0; 0; 0; 0; 12; 34]) as [_ H'].
  split; [apply (H 2%nat); reflexivity | apply H'; cbn; lia].
Defined.

(** ** The resize step *)

(** C9 (as stated): a counterexample.  A 2x2 image resized to 2 is handed back
    as it is: no call reaches the scaler, so nothing is resampled and nothing
    is drawn over a transparent background.  And a negative size gives an
    image of the opposite, positive, side: [image.Rect] swaps the corners. *)
Lemma ResizeImage_same_size_cex :
  ResizeImage clearScale blankSquare 2 = (blankSquare, []) /\
  Dx (Bounds (fst (ResizeImage clearScale blankSquare (-3)))) = 3.
Proof. split; reflexivity. Qed.

(** C9 (amended): for every image and every size [n >= 0] the result is
    [n] x [n]; it is the input itself when the input is already [n] x [n], and
    otherwise the Catmull-Rom scaling of the whole input, composited with
    [Over] onto a fresh (fully transparent) [n] x [n] RGBA image. *)
Theorem ResizeImage_square (scale : ScaleCall -> Z -> Z -> Color) (img : Image) (n : Z) :
  0 <= n ->
  let out := fst (ResizeImage scale img n) in
  let calls := snd (ResizeImage scale img n) in
  Dx (Bounds out) = n /\ Dy (Bounds out) = n /\
  ((Dx (Bounds img) = n /\ Dy (Bounds img) = n /\ out = img /\ calls = []) \/
   (~ (Dx (Bounds img) = n /\ Dy (Bounds img) = n) /\
    let call := mkScale CatmullRom Over (mkRect 0 0 n n) true img (Bounds img) in
    calls = [call] /\ out = runScale scale call)).
Proof.
  intros Hn. unfold ResizeImage.
  destruct ((Dx (Bounds img) =? n) && (Dy (Bounds img) =? n)) eqn:E; cbn [fst snd].
  - apply andb_true_iff in E as [Ex Ey]. apply Z.eqb_eq in Ex, Ey.
    split; [exact Ex|]. split; [exact Ey|]. left. auto.
  - assert (HR : Rect 0 0 n n = mkRect 0 0 n n).
    { unfold Rect. destruct (n <? 0) eqn:En; [apply Z.ltb_lt in En; lia | reflexivity]. }
    rewrite HR. cbv zeta. unfold runScale at 1 2. cbn [Bounds dstRect].
    unfold Dx at 1, Dy at 1. cbn [MaxX MinX MaxY MinY].
    split; [lia|]. split; [lia|]. right. split; [|split; reflexivity].
    intros [Ex Ey]. apply andb_false_iff in E as [E|E]; apply Z.eqb_neq in E; contradiction.
Qed.

Lemma ResizeImage_square_witness :
  let out := fst (ResizeImage clearScale blankSquare 16) in
  Dx (Bounds out) = 16 /\ Dy (Bounds out) = 16.
Proof.
  pose proof (ResizeImage_square clearScale blankSquare 16 ltac:(lia)) as H.
  cbv zeta in H. destruct H as (Hx & Hy & _). split; assumption.
Defined.

End ImageProps.
(** ** The token bucket *)

Section TokenBucketProps.
Import Float64 RateLimit.

(** *** Buckets that can never hold a whole token *)

Section LowCapacity.
Context {F : Type} `{OrderLaws F}.

Lemma allow_below_one (b : TokenBucket F) (now : Z) :
  ltb (capacity b) (ofInt 1) = true ->
  fst (allow b now) = false /\ capacity (snd (allow b now)) = capacity b.
Proof.
  intros Hcap. unfold allow. cbv zeta.
  set (t1 := add (tokens b) _).
  assert (Hge : geb (if gtb t1 (capacity b) then capacity b else t1) (ofInt 1) = false).
  { unfold geb, gtb. destruct (ltb (capacity b) t1) eqn:E.
    - apply lt_one_not_ge, Hcap.
    - eapply capped_lt_one_not_ge; eassumption. }
  rewrite Hge. split; reflexivity.
Qed.

Lemma serve_below_one (nows : list Z) :
  forall b : TokenBucket F,
    ltb (capacity b) (ofInt 1) = true -> Forall (eq false) (fst (serve b nows)).
Proof.
  induction nows as [|now rest IH]; intros b Hcap; cbn [serve].
  - constructor.
  - destruct (allow_below_one b now Hcap) as [Hok Hc].
    destruct (allow b now) as [ok b1]. cbn [fst snd] in Hok, Hc.
    specialize (IH b1). rewrite Hc in IH. specialize (IH Hcap).
    destruct (serve b1 rest) as [oks b2]. cbn [fst] in *.
    constructor; [symmetry; exact Hok | exact IH].
Qed.

Lemma Allow_starved (l : Limiter F) (ip : string) (t : Readings) :
  starved l ->
  fst (fst (Allow l ip t)) = false /\ starved (snd (Allow l ip t)).
Proof.
  intros Hs. unfold Allow.
  destruct (globalBucket l) as [g|] eqn:Eg.
  - (* a global bucket is consulted first *)
    destruct (allow g (atGlobal t)) as [ok g'] eqn:Ea.
    destruct Hs as [(g0 & Hg0 & Hcap) | (Hrate & Hburst & Hall)].
    + assert (g0 = g) by congruence. subst g0.
      destruct (allow_below_one g (atGlobal t) Hcap) as [Hok Hc].
      rewrite Ea in Hok, Hc. cbn [fst snd] in Hok, Hc. subst ok. cbn [negb fst snd].
      split; [reflexivity|]. left. exists g'. cbn. split; [reflexivity|]. congruence.
    + destruct ok; cbn [negb fst snd].
      * cbn [ipRate]. apply Z.ltb_lt in Hrate as Hrate'. rewrite Hrate'.
        unfold getOrCreateIPBucket. cbn [ipBuckets ipRate ipBurst globalBucket].
        destruct (ipBuckets l !! ip) as [b|] eqn:Eb.
        -- pose proof (Hall ip b Eb) as Hcap.
           destruct (allow_below_one b (atIP t) Hcap) as [Hok Hc].
           destruct (allow b (atIP t)) as [ok b']. cbn [fst snd] in Hok, Hc. subst ok.
           cbn [negb fst snd ipBuckets ipRate ipBurst globalBucket].
           split; [reflexivity|]. right. cbn. split; [exact Hrate|]. split; [exact Hburst|].
           intros ip' b0 Hl. destruct (decide (ip = ip')) as [->|Hne].
           ++ rewrite lookup_insert_eq in Hl. injection Hl as <-. congruence.
           ++ rewrite lookup_insert_ne in Hl by exact Hne. eauto.
        -- set (nb := newTokenBucket _ _ _).
           assert (Hcap : ltb (capacity nb) (ofInt 1) = true) by exact Hburst.
           destruct (allow_below_one nb (atIP t) Hcap) as [Hok Hc].
           destruct (allow nb (atIP t)) as [ok b']. cbn [fst snd] in Hok, Hc. subst ok.
           cbn [negb fst snd ipBuckets ipRate ipBurst globalBucket].
           split; [reflexivity|]. right. cbn. split; [exact Hrate|]. split; [exact Hburst|].
           intros ip' b0 Hl. destruct (decide (ip = ip')) as [->|Hne].
           ++ rewrite lookup_insert_eq in Hl. injection Hl as <-. congruence.
           ++ rewrite !lookup_insert_ne in Hl by exact Hne. eauto.
      * split; [reflexivity|]. right. cbn. auto.
  - destruct Hs as [(g0 & Hg0 & _) | (Hrate & Hburst & Hall)]; [congruence|].
    cbn [negb]. apply Z.ltb_lt in Hrate as Hrate'. rewrite Hrate'.
    unfold getOrCreateIPBucket.
    destruct (ipBuckets l !! ip) as [b|] eqn:Eb.
    + pose proof (Hall ip b Eb) as Hcap.
      destruct (allow_below_one b (atIP t) Hcap) as [Hok Hc].
      destruct (allow b (atIP t)) as [ok b']. cbn [fst snd] in Hok, Hc. subst ok.
      cbn [negb fst snd ipBuckets ipRate ipBurst globalBucket].
      split; [reflexivity|]. right. cbn. split; [exact Hrate|]. split; [exact Hburst|].
      intros ip' b0 Hl. destruct (decide (ip = ip')) as [->|Hne].
      * rewrite lookup_insert_eq in Hl. injection Hl as <-. congruence.
      * rewrite lookup_insert_ne in Hl by exact Hne. eauto.
    + set (nb := newTokenBucket _ _ _).
      assert (Hcap : ltb (capacity nb) (ofInt 1) = true) by exact Hburst.
      destruct (allow_below_one nb (atIP t) Hcap) as [Hok Hc].
      destruct (allow nb (atIP t)) as [ok b']. cbn [fst snd] in Hok, Hc. subst ok.
      cbn [negb fst snd ipBuckets ipRate ipBurst globalBucket].
      split; [reflexivity|]. right. cbn. split; [exact Hrate|]. split; [exact Hburst|].
      intros ip' b0 Hl. destruct (decide (ip = ip')) as [->|Hne].
      * rewrite lookup_insert_eq in Hl. injection Hl as <-. congruence.
      * rewrite !lookup_insert_ne in Hl by exact Hne. eauto.
Qed.

Lemma traffic_starved (reqs : list (string * Readings)) :
  forall l : Limiter F, starved l -> Forall (eq false) (traffic l reqs).
Proof.
  induction reqs as [|[ip t] rest IH]; intros l Hs; cbn [traffic].
  - constructor.
  - destruct (Allow_starved l ip t Hs) as [Hok Hs'].
    destruct (Allow l ip t) as [[ok evs] l']. cbn [fst snd] in Hok, Hs'.
    constructor; [symmetry; exact Hok | apply IH, Hs'].
Qed.

Lemma NewLimiter_zero_burst_starved (globalRate globalBurst ipRate ipBurst now : Z) :
  ltb (ofInt 0 : F) (ofInt 1) = true ->
  (0 < globalRate /\ globalBurst = 0) \/ (0 < ipRate /\ ipBurst = 0) ->
  exists l : Limiter F,
    NewLimiter globalRate globalBurst ipRate ipBurst now = Some l /\ starved l.
Proof.
  intros H01 Hcfg. unfold NewLimiter.
  assert (Hnz : (globalRate =? 0) && (ipRate =? 0) = false).
  { apply andb_false_iff. destruct Hcfg as [[Hr _]|[Hr _]]; [left|right]; apply Z.eqb_neq; lia. }
  rewrite Hnz. eexists. split; [reflexivity|].
  destruct Hcfg as [[Hr ->]|[Hr ->]].
  - left. apply Z.ltb_lt in Hr. rewrite Hr. eexists. split; [reflexivity|]. exact H01.
  - right. cbn. split; [exact Hr|]. split; [exact H01|].
    intros ip b Hl. rewrite lookup_empty in Hl. discriminate.
Qed.

End LowCapacity.

(** *** The order facts hold in both readings of float64 *)

#[local] Instance exact_order : OrderLaws Q.
Proof.
  split; cbn.
  - intros c Hc. apply negb_true_iff in Hc. exact Hc.
  - intros x c Hx Hc. apply negb_false_iff in Hx. apply negb_true_iff in Hc.
    apply Qle_bool_iff in Hx.
    destruct (Qle_bool (inject_Z 1) x) eqn:E; [|reflexivity].
    apply Qle_bool_iff in E.
    assert (Hle : (inject_Z 1 <= c)%Q) by (eapply Qle_trans; eassumption).
    apply Qle_bool_iff in Hle. congruence.
Qed.

(** [1.0] in binary64. *)
Lemma ieee_one : (ofInt 1 : spec_float) = S754_finite false 4503599627370496 (-52).
Proof. vm_compute. reflexivity. Qed.

Lemma SFcompare_finite_pos (m1 m2 : positive) (e1 e2 : Z) :
  SFcompare (S754_finite false m1 e1) (S754_finite false m2 e2) =
    Some (match e1 ?= e2 with Eq => Pos.compare m1 m2 | Lt => Lt | Gt => Gt end).
Proof. reflexivity. Qed.

(** Below a positive finite bound means not at or above it. *)
Lemma SF_lt_not_ge (c : spec_float) (m1 : positive) (e1 : Z) :
  SFltb c (S754_finite false m1 e1) = true ->
  SFleb (S754_finite false m1 e1) c = false.
Proof.
  unfold SFltb, SFleb.
  destruct c as [s|s| |s m e]; try (destruct s; cbn [SFcompare]; congruence).
  - cbn [SFcompare]; congruence.
  - destruct s; [cbn [SFcompare]; congruence|].
    rewrite !SFcompare_finite_pos.
    rewrite (Z.compare_antisym e e1), (Pos.compare_antisym m m1).
    destruct (e ?= e1); cbn [CompOpp]; try congruence.
    destruct (m ?= m1)%positive; cbn [CompOpp]; congruence.
Qed.

(** If [x] does not exceed [c] (or is a NaN) and [c] is below a positive
    finite bound, then [x] is not at or above that bound. *)
Lemma SF_capped_not_ge (x c : spec_float) (m1 : positive) (e1 : Z) :
  SFltb c x = false ->
  SFltb c (S754_finite false m1 e1) = true ->
  SFleb (S754_finite false m1 e1) x = false.
Proof.
  unfold SFltb, SFleb.
  destruct x as [sx|sx| |sx mx ex], c as [sc|sc| |sc mc ec];
    try destruct sx; try destruct sc;
    try (cbn [SFcompare]; congruence).
  all: rewrite ?SFcompare_finite_pos.
  all: try (cbn [SFcompare];
            destruct (Z.compare_spec ec e1); try congruence;
            destruct (Pos.compare_spec mc m1); congruence).
  destruct (Z.compare_spec ec ex), (Z.compare_spec ec e1), (Z.compare_spec e1 ex);
    try congruence; try lia;
  destruct (Pos.compare_spec mc mx), (Pos.compare_spec mc m1), (Pos.compare_spec m1 mx);
    try congruence; try lia.
Qed.

#[local] Instance ieee_order : OrderLaws spec_float.
Proof.
  split; rewrite ieee_one.
  - intros c. apply SF_lt_not_ge.
  - intros x c. apply SF_capped_not_ge.
Qed.

(** [0.0 < 1.0], the capacity a zero burst gives. *)
Lemma ieee_zero_lt_one : ltb (ofInt 0 : spec_float) (ofInt 1) = true.
Proof. vm_compute. reflexivity. Qed.

(** C10: a bucket whose capacity is strictly below 1 answers [false] to every
    [allow], whatever the clock readings; so a limiter built by [NewLimiter]
    with a positive rate and a zero burst (global or per-IP) rejects every
    request.  [NewLimiter] uses the burst as given: the default of twice the
    rate is computed by the server's [main] before the call, in Go's [int]:
    it is twice the rate for every rate below [2^62], and the wrapped-around
    product beyond.  Stated for the IEEE 754 reading of float64. *)
Theorem low_capacity_rejects_all :
  (forall (b : TokenBucket spec_float) (nows : list Z),
      ltb (capacity b) (ofInt 1) = true ->
      Forall (eq false) (fst (serve b nows))) /\
  (forall (globalRate globalBurst ipRate ipBurst now : Z) (reqs : list (string * Readings)),
      (0 < globalRate /\ globalBurst = 0) \/ (0 < ipRate /\ ipBurst = 0) ->
      exists l : Limiter spec_float,
        NewLimiter globalRate globalBurst ipRate ipBurst now = Some l /\
        Forall (eq false) (traffic l reqs)) /\
  (forall r : Z, 0 < r ->
     defaultBurst r 0 = wrapInt (r * 2) /\ (r < 2 ^ 62 -> defaultBurst r 0 = r * 2)).
Proof.
  split; [|split].
  - intros b nows Hcap. apply serve_below_one, Hcap.
  - intros gr gb ir ib now reqs Hcfg.
    destruct (NewLimiter_zero_burst_starved gr gb ir ib now ieee_zero_lt_one Hcfg)
      as (l & Hl & Hs).
    exists l. split; [exact Hl|]. apply traffic_starved, Hs.
  - intros r Hr. unfold defaultBurst. cbn [Z.eqb andb].
    apply Z.ltb_lt in Hr as Hr'. rewrite Hr'. split; [reflexivity|].
    intros Hsmall. unfold wrapInt. rewrite Z.mod_small by lia. lia.
Qed.

Lemma low_capacity_rejects_all_witness :
  Forall (eq false)
    (fst (serve (newTokenBucket (ofInt 5) (ofInt 0) 0 : TokenBucket spec_float)
            [1000000000; 3000000000])) /\
  (exists l : Limiter spec_float,
      NewLimiter 10 0 0 0 0 = Some l /\
      Forall (eq false) (traffic l [("192.0.2.1"%string, mkReadings 5 5 5)])) /\
  defaultBurst 10 0 = 10 * 2.
Proof.
  destruct low_capacity_rejects_all as (Hbucket & Hlimiter & Hmain).
  split; [|split].
  - apply Hbucket. vm_compute. reflexivity.
  - apply Hlimiter. left. split; [lia | reflexivity].
  - apply Hmain; lia.
Defined.

(** With the server's defaulting the same flags give a working limiter: burst
    20 for a rate of 10, and the first request is admitted. *)
Lemma serverLimiter_default_burst_admits :
  exists l : Limiter spec_float,
    serverLimiter 10 0 0 0 0 = Some l /\
    fst (fst (Allow l "192.0.2.1"%string (mkReadings 5 5 5))) = true.
Proof. eexists. split; [reflexivity|]. vm_compute. reflexivity. Qed.

(** *** The limiter's bookkeeping, whatever the arithmetic *)

Section AnyFloat.
Context {F : Type} `{Ops F}.

Lemma allow_stamps (b : TokenBucket F) (now : Z) :
  rate (snd (allow b now)) = rate b /\ capacity (snd (allow b now)) = capacity b /\
  lastUpdate (snd (allow b now)) = now.
Proof. unfold allow. cbv zeta. destruct (geb _ _); cbn; auto. Qed.

(** X14: the bookkeeping of [Allow].  The verdict is [true] exactly when the
    global bucket (if there is one) and the bucket of the client (if per-IP
    limiting is on) both admit.  The global bucket is charged first and stays
    charged when the client's bucket then rejects; a request the global
    bucket rejects touches no per-IP state; the buckets of other clients are
    never touched; with per-IP limiting off no bucket is ever stored; and the
    counter bumped names the bucket that rejected. *)
Theorem Allow_bookkeeping (l : Limiter F) (ip : string) (t : Readings) :
  let '(ok, errs, l') := Allow l ip t in
  let globalOk :=
    match globalBucket l with
    | Some g => fst (allow g (atGlobal t))
    | None => true
    end in
  let ipOk :=
    if 0 <? ipRate l then fst (allow (bucketFor l ip (atCreate t)) (atIP t)) else true in
  ok = globalOk && ipOk /\
  errs = (if negb globalOk then ["rate_limit_global"%string]
          else if negb ipOk then ["rate_limit_ip"%string] else []) /\
  globalBucket l' = (fun g => snd (allow g (atGlobal t))) <$> globalBucket l /\
  ipBuckets l' =
    (if globalOk && (0 <? ipRate l)
     then <[ip := snd (allow (bucketFor l ip (atCreate t)) (atIP t))]> (ipBuckets l)
     else ipBuckets l) /\
  (forall ip', ip' <> ip -> ipBuckets l' !! ip' = ipBuckets l !! ip') /\
  ipRate l' = ipRate l /\ ipBurst l' = ipBurst l.
Proof.
  unfold Allow, getOrCreateIPBucket, bucketFor.
  destruct l as [g buckets r bu]. cbn [globalBucket ipBuckets ipRate ipBurst].
  assert (Hother : forall (b : TokenBucket F) ip',
            ip' <> ip -> <[ip := b]> buckets !! ip' = buckets !! ip').
  { intros b ip' Hne. apply lookup_insert_ne. congruence. }
  destruct g as [g|]; cbn [fmap option_fmap option_map];
    [destruct (allow g (atGlobal t)) as [[|] g'] eqn:Eg|];
    cbn [globalBucket ipBuckets ipRate ipBurst fst snd negb andb];
    try (repeat split; auto; fail);
    (destruct (0 <? r) eqn:Er; [|repeat split; auto]);
    (destruct (buckets !! ip) as [b|] eqn:Eb;
     cbn [globalBucket ipBuckets ipRate ipBurst fst snd default from_option id];
     [destruct (allow b (atIP t)) as [[|] b']
     |destruct (allow (newTokenBucket (ofInt r) (ofInt bu) (atCreate t)) (atIP t))
        as [[|] b']]);
    cbn [globalBucket ipBuckets ipRate ipBurst fst snd negb andb];
    rewrite ?insert_insert_eq; repeat split; auto.
Qed.

(** X15: rates that are not positive switch the limiter off.  [NewLimiter]
    answers nil only when both rates are 0; when neither is positive but one
    is negative it builds a limiter without a global bucket and without
    per-IP limiting, which admits every request of every run and never
    stores a bucket. *)
Theorem NewLimiter_nonpositive_rates_admit_all
  (globalRate globalBurst ipRate ipBurst now : Z) (reqs : list (string * Readings)) :
  globalRate <= 0 -> ipRate <= 0 ->
  match NewLimiter (F := F) globalRate globalBurst ipRate ipBurst now with
  | None => globalRate = 0 /\ ipRate = 0
  | Some l =>
      (globalRate < 0 \/ ipRate < 0) /\
      Forall (eq true) (traffic l reqs) /\
      forall ip t, Allow l ip t = (true, [], l)
  end.
Proof.
  intros Hg Hi. unfold NewLimiter.
  destruct ((globalRate =? 0) && (ipRate =? 0)) eqn:E.
  - apply andb_true_iff in E as [E1 E2]. apply Z.eqb_eq in E1, E2. auto.
  - assert (E1 : (0 <? globalRate) = false) by (apply Z.ltb_ge; exact Hg). rewrite E1.
    assert (E2 : (0 <? ipRate) = false) by (apply Z.ltb_ge; exact Hi).
    set (l := mkLimiter None ∅ ipRate ipBurst).
    assert (Hallow : forall ip t, Allow l ip t = (true, [], l)).
    { intros ip t. unfold Allow, l. cbn [globalBucket RateLimit.ipRate negb]. rewrite E2.
      reflexivity. }
    split; [|split; [|exact Hallow]].
    + apply andb_false_iff in E as [E|E]; apply Z.eqb_neq in E; lia.
    + induction reqs as [|[ip t] reqs IH]; cbn [traffic]; [constructor|].
      rewrite Hallow. constructor; [reflexivity | exact IH].
Qed.

Section Cleanup.
Variable order : list (string * TokenBucket F) -> list (string * TokenBucket F).
Hypothesis order_perm : forall l, order l ≡ₚ l.

Lemma cleanup_fold (cutoff : Z) (entries : list (string * TokenBucket F)) :
  forall buckets ip,
    fold_left (cleanupStep cutoff) entries buckets !! ip =
      if existsb (fun e => (lastUpdate (snd e) <? cutoff) && bool_decide (fst e = ip)) entries
      then None else buckets !! ip.
Proof.
  induction entries as [|[k b] entries IH]; intros buckets ip;
    cbn [fold_left existsb fst snd]; [reflexivity|].
  rewrite IH. unfold cleanupStep. cbn [fst snd].
  destruct (existsb _ entries); [rewrite orb_true_r; reflexivity|]. rewrite orb_false_r.
  destruct (lastUpdate b <? cutoff); cbn [andb]; [|reflexivity].
  destruct (decide (k = ip)) as [->|Hne].
  - rewrite bool_decide_eq_true_2 by reflexivity. apply lookup_delete_eq.
  - rewrite bool_decide_eq_false_2 by exact Hne. apply lookup_delete_ne. exact Hne.
Qed.

(** X16: [cleanup] drops exactly the idle clients.  After a cleanup at [now]
    the bucket of a client is gone when its last use was more than ten
    minutes before [now], and is there unchanged otherwise, in whatever order
    the map is ranged over; the global bucket and the configured rates are
    not touched.  A client dropped this way starts again with a full
    bucket. *)
Theorem cleanup_drops_idle_buckets (l : Limiter F) (now : Z) (ip : string) :
  let l' := cleanup order l now in
  ipBuckets l' !! ip =
    match ipBuckets l !! ip with
    | Some b => if lastUpdate b <? now - 10 * GoTime.Minute then None else Some b
    | None => None
    end /\
  globalBucket l' = globalBucket l /\ ipRate l' = ipRate l /\ ipBurst l' = ipBurst l /\
  (forall b created,
     ipBuckets l !! ip = Some b -> lastUpdate b < now - 10 * GoTime.Minute ->
     bucketFor l' ip created = newTokenBucket (ofInt (ipRate l)) (ofInt (ipBurst l)) created).
Proof.
  cbv zeta.
  assert (Hlook : ipBuckets (cleanup order l now) !! ip =
            match ipBuckets l !! ip with
            | Some b => if lastUpdate b <? now - 10 * GoTime.Minute then None else Some b
            | None => None
            end).
  { unfold cleanup. cbv zeta. cbn [ipBuckets]. rewrite cleanup_fold.
    destruct (existsb _ _) eqn:E.
    - apply existsb_exists in E as ([k b] & Hin & Hb). cbn [fst snd] in Hb.
      apply andb_true_iff in Hb as [Hold Hk]. apply bool_decide_eq_true in Hk. subst k.
      apply list_elem_of_In in Hin. rewrite order_perm in Hin.
      apply elem_of_map_to_list in Hin. rewrite Hin, Hold. reflexivity.
    - destruct (ipBuckets l !! ip) as [b|] eqn:Eb; [|reflexivity].
      destruct (lastUpdate b <? now - 10 * GoTime.Minute) eqn:Eold; [|reflexivity].
      exfalso. apply not_true_iff_false in E. apply E, existsb_exists.
      exists (ip, b). split.
      + apply list_elem_of_In. rewrite order_perm. apply elem_of_map_to_list, Eb.
      + cbn [fst snd]. rewrite Eold, bool_decide_eq_true_2 by reflexivity. reflexivity. }
  split; [exact Hlook|]. repeat split.
  intros b created Hb Hold. unfold bucketFor. rewrite Hlook, Hb.
  apply Z.ltb_lt in Hold. rewrite Hold. reflexivity.
Qed.

End Cleanup.

Lemma last_cons_any {A : Type} (l : list A) :
  forall x d d', List.last (x :: l) d = List.last (x :: l) d'.
Proof.
  induction l as [|y l IH]; intros x d d'; [reflexivity|].
  change (List.last (y :: l) d = List.last (y :: l) d'). apply IH.
Qed.

Lemma serve_last (nows : list Z) :
  forall b : TokenBucket F,
    lastUpdate (snd (serve b nows)) = List.last nows (lastUpdate b).
Proof.
  induction nows as [|t rest IH]; intros b; cbn [serve]; [reflexivity|].
  destruct (allow_stamps b t) as (_ & _ & Hl).
  destruct (allow b t) as [ok b1]. cbn [snd] in Hl.
  specialize (IH b1). destruct (serve b1 rest) as [oks b2]. cbn [snd] in *.
  rewrite IH, Hl. destruct rest as [|z rest]; [reflexivity|].
  exact (last_cons_any rest z t (lastUpdate b)).
Qed.

End AnyFloat.

Lemma NewLimiter_nonpositive_rates_admit_all_witness :
  match NewLimiter (F := spec_float) (-5) 10 0 0 0 with
  | None => -5 = 0 /\ 0 = 0
  | Some l =>
      (-5 < 0 \/ 0 < 0) /\
      Forall (eq true) (traffic l [("192.0.2.1"%string, mkReadings 1 1 1)]) /\
      forall ip t, Allow l ip t = (true, [], l)
  end.
Proof.
  apply (NewLimiter_nonpositive_rates_admit_all (F := spec_float) (-5) 10 0 0 0); lia.
Defined.

Lemma cleanup_drops_idle_buckets_witness :
  let l : Limiter Q :=
    mkLimiter None {[ "192.0.2.1"%string := newTokenBucket 1%Q 2%Q 0 ]} 1 2 in
  ipBuckets (cleanup (fun e => e) l (11 * GoTime.Minute)) !! "192.0.2.1"%string = None.
Proof.
  intros l.
  rewrite (proj1 (cleanup_drops_idle_buckets (fun e => e) (fun e => reflexivity e) l
                    (11 * GoTime.Minute) "192.0.2.1"%string)).
  vm_compute. reflexivity.
Defined.

(** *** The bucket invariant, in exact arithmetic *)

Lemma Sub_nonneg (t u : Z) : u <= t -> 0 <= GoTime.Sub t u.
Proof.
  intros H. unfold GoTime.Sub, GoTime.maxDuration, GoTime.minDuration.
  destruct (2 ^ 63 - 1 <? t - u); [lia|].
  destruct (t - u <? - 2 ^ 63) eqn:E; [apply Z.ltb_lt in E; lia | lia].
Qed.

Lemma Sub_exact (t u : Z) :
  u <= t -> t - u <= GoTime.maxDuration -> GoTime.Sub t u = t - u.
Proof.
  intros H1 H2. unfold GoTime.Sub, GoTime.maxDuration, GoTime.minDuration in *.
  destruct (2 ^ 63 - 1 <? t - u) eqn:E; [apply Z.ltb_lt in E; lia|].
  destruct (t - u <? - 2 ^ 63) eqn:E'; [apply Z.ltb_lt in E'; lia | reflexivity].
Qed.

(** In exact arithmetic [d.Seconds()] is [d / 1e9]. *)
Lemma Seconds_exact (d : Z) :
  (Seconds d == inject_Z d / inject_Z GoTime.Second)%Q.
Proof.
  unfold Seconds. cbn [add div ofInt exact].
  rewrite (Z.quot_rem' d GoTime.Second) at 3.
  rewrite inject_Z_plus, inject_Z_mult.
  change 1000000000 with GoTime.Second.
  field. unfold GoTime.Second, Qeq. cbn. lia.
Qed.

Lemma Seconds_nonneg (d : Z) : 0 <= d -> (0 <= Seconds d)%Q.
Proof.
  intros Hd. rewrite Seconds_exact.
  apply Qle_shift_div_l.
  - unfold GoTime.Second, Qlt. cbn. lia.
  - rewrite Qmult_0_l. unfold Qle. cbn. lia.
Qed.

(** One [allow] call on a bucket within its bounds. *)
Lemma allow_exact_step (b : TokenBucket Q) (now : Z) :
  (0 <= rate b)%Q -> (0 <= tokens b)%Q -> (tokens b <= capacity b)%Q ->
  lastUpdate b <= now ->
  let refilled :=
    Qmin (tokens b + Seconds (GoTime.Sub now (lastUpdate b)) * rate b) (capacity b) in
  let ok := fst (allow b now) in
  let b' := snd (allow b now) in
  rate b' = rate b /\ capacity b' = capacity b /\ lastUpdate b' = now /\
  (ok = true <-> (1 <= refilled)%Q) /\
  (tokens b' == if ok then refilled - 1 else refilled)%Q /\
  (0 <= tokens b')%Q /\ (tokens b' <= capacity b')%Q.
Proof.
  intros Hrate Hlo Hhi Hclock. cbv zeta. unfold allow. cbv zeta.
  set (el := Seconds (GoTime.Sub now (lastUpdate b))).
  assert (Hel : (0 <= el)%Q) by (apply Seconds_nonneg, Sub_nonneg, Hclock).
  assert (Hgain : (0 <= el * rate b)%Q) by (apply Qmult_le_0_compat; assumption).
  cbn [add sub mul ofInt exact]. unfold gtb, geb. cbn [ltb leb exact].
  set (t1 := (tokens b + el * rate b)%Q).
  assert (Ht1 : (0 <= t1)%Q).
  { subst t1. lra. }
  assert (Hcap : (0 <= capacity b)%Q) by lra.
  assert (Hmin : ((if negb (Qle_bool t1 (capacity b)) then capacity b else t1)
                  == Qmin t1 (capacity b))%Q).
  { destruct (Qle_bool t1 (capacity b)) eqn:E; cbn [negb].
    - apply Qle_bool_iff in E. symmetry. apply Q.min_l, E.
    - symmetry. apply Q.min_r. apply Qlt_le_weak, Qnot_le_lt.
      intros Hle. apply Qle_bool_iff in Hle. congruence. }
  set (t2 := if negb (Qle_bool t1 (capacity b)) then capacity b else t1) in *.
  assert (Ht2lo : (0 <= t2)%Q).
  { subst t2. destruct (negb (Qle_bool t1 (capacity b))); assumption. }
  assert (Ht2hi : (t2 <= capacity b)%Q).
  { rewrite Hmin. apply Q.le_min_r. }
  destruct (Qle_bool (inject_Z 1) t2) eqn:E; cbn [fst snd rate capacity tokens lastUpdate].
  - apply Qle_bool_iff in E. change (inject_Z 1) with 1%Q in *.
    repeat split; try reflexivity.
    + intros _. rewrite <- Hmin. exact E.
    + rewrite Hmin. reflexivity.
    + lra.
    + lra.
  - assert (Hlt : ~ (1 <= t2)%Q).
    { intros Hle. apply Qle_bool_iff in Hle. change (inject_Z 1) with 1%Q in E. congruence. }
    repeat split; try reflexivity; try assumption.
    + discriminate.
    + intros Hle. rewrite <- Hmin in Hle. contradiction.
Qed.

(** The bounds are established by [newTokenBucket] and kept by every call of
    a run. *)
Lemma serve_exact_bounds (nows : list Z) :
  forall (b : TokenBucket Q) (now : Z),
    (0 <= rate b)%Q -> (0 <= tokens b)%Q -> (tokens b <= capacity b)%Q ->
    ascending (lastUpdate b) (nows ++ [now]) ->
    let b1 := snd (serve b nows) in
    rate b1 = rate b /\ capacity b1 = capacity b /\
    (0 <= tokens b1)%Q /\ (tokens b1 <= capacity b1)%Q /\ lastUpdate b1 <= now.
Proof.
  induction nows as [|t rest IH]; intros b now Hrate Hlo Hhi Hasc; cbn [serve app] in *.
  - cbn [snd]. destruct Hasc as [Hle _]. auto.
  - destruct Hasc as [Hle Hasc].
    destruct (allow_exact_step b t Hrate Hlo Hhi Hle) as (Hr & Hc & Hl & _ & _ & Hlo' & Hhi').
    destruct (allow b t) as [ok b1]. cbn [fst snd] in *.
    specialize (IH b1 now). rewrite Hr, Hl in IH. specialize (IH Hrate Hlo' Hhi' Hasc).
    destruct (serve b1 rest) as [oks b2]. cbn [snd] in *.
    destruct IH as (Hr2 & Hc2 & Hlo2 & Hhi2 & Hl2).
    repeat split; try assumption; congruence.
Qed.




(** *** The rate a bucket enforces, in exact arithmetic *)

Lemma Sub_le (t u : Z) : u <= t -> GoTime.Sub t u <= t - u.
Proof.
  intros H. unfold GoTime.Sub, GoTime.maxDuration, GoTime.minDuration.
  destruct (2 ^ 63 - 1 <? t - u) eqn:E; [apply Z.ltb_lt in E; lia|].
  destruct (t - u <? - 2 ^ 63) eqn:E'; [apply Z.ltb_lt in E'; lia | lia].
Qed.

Lemma per_second_le (d d' : Z) :
  d <= d' -> (inject_Z d / inject_Z GoTime.Second <= inject_Z d' / inject_Z GoTime.Second)%Q.
Proof.
  intros H. unfold Qdiv. apply Qmult_le_compat_r.
  - rewrite <- Zle_Qle. exact H.
  - unfold Qle. cbn. lia.
Qed.

Lemma per_second_add (a b : Z) :
  (inject_Z (a + b) / inject_Z GoTime.Second ==
   inject_Z a / inject_Z GoTime.Second + inject_Z b / inject_Z GoTime.Second)%Q.
Proof. rewrite inject_Z_plus. unfold Qdiv. ring. Qed.

Lemma admitted_cons (ok : bool) (oks : list bool) :
  admitted (ok :: oks) = (if ok then 1 else 0) + admitted oks.
Proof.
  unfold admitted. cbn [count_occ]. destruct ok; cbn [bool_dec]; [|reflexivity].
  destruct (bool_dec true true); [lia | congruence].
Qed.

(** What a run admits, plus what is left in the bucket, is covered by what
    the bucket held and what the elapsed time has refilled. *)
Lemma serve_rate_bound (nows : list Z) :
  forall b : TokenBucket Q,
    (0 <= rate b)%Q -> (0 <= tokens b)%Q -> (tokens b <= capacity b)%Q ->
    ascending (lastUpdate b) nows ->
    let b' := snd (serve b nows) in
    (0 <= tokens b')%Q /\
    (inject_Z (admitted (fst (serve b nows))) + tokens b' <=
     tokens b + rate b * (inject_Z (lastUpdate b' - lastUpdate b) / inject_Z GoTime.Second))%Q.
Proof.
  induction nows as [|t rest IH]; intros b Hrate Hlo Hhi Hasc; cbn [serve].
  - cbn [fst snd]. split; [exact Hlo|].
    rewrite Z.sub_diag. unfold admitted. cbn [count_occ Z.of_nat].
    assert (Hz : (inject_Z 0 / inject_Z GoTime.Second == 0)%Q) by reflexivity.
    rewrite Hz. change (inject_Z (Z.of_nat 0)) with 0%Q. lra.
  - destruct Hasc as [Hle Hasc].
    destruct (allow_exact_step b t Hrate Hlo Hhi Hle)
      as (Hr & Hc & Hl & _ & Htok & Hlo' & Hhi').
    pose proof (Q.le_min_l (tokens b + Seconds (GoTime.Sub t (lastUpdate b)) * rate b)
                  (capacity b)) as Hmin.
    assert (Hel : (Seconds (GoTime.Sub t (lastUpdate b)) <=
                   inject_Z (t - lastUpdate b) / inject_Z GoTime.Second)%Q).
    { rewrite Seconds_exact. apply per_second_le, Sub_le, Hle. }
    destruct (allow b t) as [ok b1]. cbn [fst snd] in *.
    specialize (IH b1). rewrite Hr, Hl in IH.
    destruct (IH Hrate Hlo' Hhi' Hasc) as [Hlo2 Hsum]. clear IH.
    destruct (serve b1 rest) as [oks b2]. cbn [fst snd] in *.
    split; [exact Hlo2|].
    rewrite admitted_cons, inject_Z_plus.
    replace (lastUpdate b2 - lastUpdate b) with ((t - lastUpdate b) + (lastUpdate b2 - t))
      by lia.
    rewrite per_second_add.
    set (el := Seconds (GoTime.Sub t (lastUpdate b))) in *.
    set (d1 := (inject_Z (t - lastUpdate b) / inject_Z GoTime.Second)%Q) in *.
    set (d2 := (inject_Z (lastUpdate b2 - t) / inject_Z GoTime.Second)%Q) in *.
    assert (Hgain : (el * rate b <= rate b * d1)%Q).
    { rewrite (Qmult_comm (rate b) d1). apply Qmult_le_compat_r; assumption. }
    assert (Hsplit : (rate b * (d1 + d2) == rate b * d1 + rate b * d2)%Q) by ring.
    rewrite Hsplit.
    destruct ok.
    + change (inject_Z 1) with 1%Q. lra.
    + change (inject_Z 0) with 0%Q. lra.
Qed.



End TokenBucketProps.
(** ** Client IP extraction *)

Section ClientIPProps.
Import GoStrings ClientIP.
Local Open Scope string_scope.

Lemma upToComma_head (s : string) : upToComma s = hd "" (splitComma s).
Proof.
  induction s as [|c rest IH]; [reflexivity|].
  cbn [upToComma splitComma]. destruct (Ascii.eqb c ","); [reflexivity|].
  rewrite IH. destruct (splitComma rest); reflexivity.
Qed.

Lemma trimLeft_decompose (s : string) :
  exists l, s = l +:+ trimLeft s /\ allBlank l = true.
Proof.
  induction s as [|c rest (l & Hl & Hb)].
  - exists "". split; reflexivity.
  - cbn [trimLeft]. destruct (isBlank c) eqn:E.
    + exists (String c l). rewrite append_cons. cbn [allBlank]. rewrite E, Hb.
      split; [congruence | reflexivity].
    + exists "". split; reflexivity.
Qed.

Lemma trimRight_decompose (s : string) :
  exists r, s = trimRight s +:+ r /\ allBlank r = true.
Proof.
  induction s as [|c rest (r & Hr & Hb)].
  - exists "". split; reflexivity.
  - cbn [trimRight]. destruct (isBlank c && String.eqb (trimRight rest) "") eqn:E.
    + apply andb_true_iff in E as [Ec Ee]. apply String.eqb_eq in Ee.
      rewrite Ee, append_nil in Hr. subst rest.
      exists (String c r). rewrite append_nil. cbn [allBlank]. rewrite Ec, Hb.
      split; reflexivity.
    + exists r. rewrite append_cons. split; [congruence | exact Hb].
Qed.

(** [trimSpace] strips spaces and tabs, and nothing else, from both ends. *)
Lemma trimSpace_decompose (s : string) :
  exists l r, s = l +:+ trimSpace s +:+ r /\ allBlank l = true /\ allBlank r = true.
Proof.
  destruct (trimLeft_decompose s) as (l & Hl & Hbl).
  destruct (trimRight_decompose (trimLeft s)) as (r & Hr & Hbr).
  exists l, r. unfold trimSpace. rewrite <- Hr. auto.
Qed.

(** *** The index loops of [trimSpace] *)

Lemma drop_all (s : string) : drop (String.length s) s = "".
Proof. induction s as [|c s IH]; [reflexivity | exact IH]. Qed.

Lemma take_all (s : string) : take (String.length s) s = s.
Proof.
  induction s as [|c s IH]; [reflexivity|]. cbn [String.length take]. rewrite IH. reflexivity.
Qed.

Lemma length_drop (n : nat) (s : string) :
  String.length (drop n s) = (String.length s - n)%nat.
Proof.
  revert s. induction n as [|n IH]; intros s; [cbn; lia|].
  destruct s as [|c s]; [reflexivity|]. cbn [drop String.length]. rewrite IH. lia.
Qed.

Lemma drop_byteAt (i : nat) (s : string) :
  (i < String.length s)%nat -> drop i s = String (byteAt s i) (drop (S i) s).
Proof.
  revert s. induction i as [|i IH]; intros s Hi; (destruct s as [|c s]; [cbn in Hi; lia|]).
  - reflexivity.
  - cbn [drop]. rewrite IH by (cbn in Hi; lia). reflexivity.
Qed.

Lemma byteAt_drop (n i : nat) (s : string) : byteAt (drop n s) i = byteAt s (n + i).
Proof.
  revert s. induction n as [|n IH]; intros s; [reflexivity|].
  destruct s as [|c s]; [destruct i; reflexivity|]. cbn [drop]. rewrite IH. reflexivity.
Qed.

Lemma take_snoc (k : nat) (t : string) :
  (k < String.length t)%nat -> take (S k) t = take k t +:+ String (byteAt t k) "".
Proof.
  revert t. induction k as [|k IH]; intros t Hk; (destruct t as [|c t]; [cbn in Hk; lia|]).
  - reflexivity.
  - change (take (S (S k)) (String c t)) with (String c (take (S k) t)).
    rewrite IH by (cbn in Hk; lia). reflexivity.
Qed.

Lemma trimRight_snoc (x : string) (c : ascii) :
  trimRight (x +:+ String c "") =
    if isBlank c then trimRight x else x +:+ String c "".
Proof.
  induction x as [|d x IH].
  - rewrite append_nil. cbn [trimRight]. destruct (isBlank c); reflexivity.
  - rewrite append_cons. cbn [trimRight]. rewrite IH.
    destruct (isBlank c); [reflexivity|].
    assert (E : String.eqb (x +:+ String c "") "" = false).
    { apply String.eqb_neq. intros E. apply (f_equal String.length) in E.
      rewrite length_append in E. cbn in E. lia. }
    rewrite E, andb_false_r. reflexivity.
Qed.

Lemma skipStart_spec (s : string) (fuel : nat) :
  forall i, (i <= String.length s)%nat -> (String.length s - i <= fuel)%nat ->
    let j := skipStart fuel s i (String.length s) in
    (i <= j <= String.length s)%nat /\ drop j s = trimLeft (drop i s).
Proof.
  induction fuel as [|fuel IH]; intros i Hi Hfuel; cbn [skipStart].
  - assert (i = String.length s) by lia. subst i. rewrite drop_all. split; [lia | reflexivity].
  - destruct (i <? String.length s)%nat eqn:E; cbn [andb].
    + apply Nat.ltb_lt in E. rewrite (drop_byteAt i s E). cbn [trimLeft].
      destruct (isBlank (byteAt s i)).
      * destruct (IH (S i) ltac:(lia) ltac:(lia)) as [Hj Hd]. split; [lia | exact Hd].
      * rewrite <- (drop_byteAt i s E). split; [lia | reflexivity].
    + apply Nat.ltb_ge in E. assert (i = String.length s) by lia. subst i.
      rewrite drop_all. split; [lia | reflexivity].
Qed.

Lemma skipEnd_spec (s : string) (start : nat) (fuel : nat) :
  forall e, (start <= e <= String.length s)%nat -> (e - start <= fuel)%nat ->
    let e' := skipEnd fuel s start e in
    (start <= e' <= e)%nat /\
    take (e' - start) (drop start s) = trimRight (take (e - start) (drop start s)).
Proof.
  induction fuel as [|fuel IH]; intros e He Hfuel; cbn [skipEnd].
  - assert (e = start) by lia. subst e. rewrite Nat.sub_diag. split; [lia | reflexivity].
  - destruct (start <? e)%nat eqn:E; cbn [andb].
    + apply Nat.ltb_lt in E.
      assert (Hsnoc : take (e - start) (drop start s) =
                      take (e - 1 - start) (drop start s) +:+ String (byteAt s (e - 1)) "").
      { replace (e - start)%nat with (S (e - 1 - start)) by lia.
        rewrite take_snoc by (rewrite length_drop; lia).
        rewrite byteAt_drop. repeat f_equal. lia. }
      rewrite Hsnoc, trimRight_snoc.
      destruct (isBlank (byteAt s (e - 1))).
      * destruct (IH (e - 1)%nat ltac:(lia) ltac:(lia)) as [He' Ht]. split; [lia | exact Ht].
      * rewrite <- Hsnoc. split; [lia | reflexivity].
    + apply Nat.ltb_ge in E. assert (e = start) by lia. subst e.
      rewrite Nat.sub_diag. split; [lia | reflexivity].
Qed.

Lemma trimRight_idempotent (x : string) : trimRight (trimRight x) = trimRight x.
Proof.
  induction x as [|c x IH]; [reflexivity|]. cbn [trimRight].
  destruct (isBlank c && String.eqb (trimRight x) "") eqn:E; [reflexivity|].
  cbn [trimRight]. rewrite IH, E. reflexivity.
Qed.

Lemma trimLeft_head (s : string) (c : ascii) (r : string) :
  trimLeft s = String c r -> isBlank c = false.
Proof.
  induction s as [|d s IH]; [discriminate|]. cbn [trimLeft].
  destruct (isBlank d) eqn:E; [exact IH|]. intros H. injection H as <- _. exact E.
Qed.

Lemma trimRight_head (c : ascii) (x : string) :
  isBlank c = false -> trimRight (String c x) = String c (trimRight x).
Proof. intros H. cbn [trimRight]. rewrite H. reflexivity. Qed.

Lemma trimRight_last (x y : string) (c : ascii) :
  trimRight x = y +:+ String c "" -> isBlank c = false.
Proof.
  revert y. induction x as [|d x IH]; intros y H.
  - destruct y; discriminate H.
  - cbn [trimRight] in H.
    destruct (isBlank d && String.eqb (trimRight x) "") eqn:E; [destruct y; discriminate H|].
    destruct y as [|e y].
    + rewrite append_nil in H. injection H as -> Hx.
      apply andb_false_iff in E as [E|E]; [exact E|].
      rewrite Hx in E. discriminate E.
    + rewrite append_cons in H. injection H as _ Hx. exact (IH y Hx).
Qed.

(** X26: the two index loops of [trimSpace].  Run on the bytes of [s], the
    loops stop at indices [start <= end] such that [s[start:end]] is [s]
    without its leading and its trailing spaces and tabs: [s] is that
    substring between two runs of spaces and tabs, the substring neither
    begins nor ends with a space or a tab, and trimming it again changes
    nothing. *)
Theorem trimSpace_loops (s : string) :
  trimSpaceLoops s = trimSpace s /\
  (exists l r, s = l +:+ trimSpaceLoops s +:+ r /\ allBlank l = true /\ allBlank r = true) /\
  (forall c x, trimSpaceLoops s = String c x -> isBlank c = false) /\
  (forall x c, trimSpaceLoops s = x +:+ String c "" -> isBlank c = false) /\
  trimSpaceLoops (trimSpaceLoops s) = trimSpaceLoops s.
Proof.
  assert (Hloops : forall t, trimSpaceLoops t = trimSpace t).
  { intros t. unfold trimSpaceLoops, trimSpace. cbv zeta.
    destruct (skipStart_spec t (String.length t) 0 ltac:(lia) ltac:(lia)) as [Hj Hd].
    cbv zeta in Hj, Hd. change (drop 0 t) with t in Hd.
    set (start := skipStart (String.length t) t 0 (String.length t)) in *.
    destruct (skipEnd_spec t start (String.length t) (String.length t) ltac:(lia) ltac:(lia))
      as [He Ht].
    cbv zeta in He, Ht. rewrite Ht, <- Hd.
    replace (String.length t - start)%nat with (String.length (drop start t))
      by (rewrite length_drop; reflexivity).
    rewrite take_all. reflexivity. }
  rewrite !Hloops. split; [reflexivity|]. split; [apply trimSpace_decompose|].
  split; [|split].
  - intros c x H. unfold trimSpace in H.
    destruct (trimLeft s) as [|d t] eqn:El; [discriminate H|].
    pose proof (trimLeft_head s d t El) as Hd.
    rewrite (trimRight_head d t Hd) in H. injection H as <- _. exact Hd.
  - intros x c H. unfold trimSpace in H. exact (trimRight_last _ _ _ H).
  - unfold trimSpace.
    destruct (trimLeft s) as [|d t] eqn:El; [reflexivity|].
    pose proof (trimLeft_head s d t El) as Hd.
    rewrite (trimRight_head d t Hd). cbn [trimLeft]. rewrite Hd.
    rewrite (trimRight_head d _ Hd), trimRight_idempotent. reflexivity.
Qed.

(** The loops on a header value: the tab and the spaces go, the inner space
    stays. *)
Example trimSpaceLoops_sample :
  trimSpaceLoops (String "009" " 198.51.100.4 x  ") = "198.51.100.4 x".
Proof. vm_compute. reflexivity. Qed.

Section AnyNet.
Variable validIP : string -> bool.
Variable SplitHostPort : string -> option (string * string).

Lemma parseIP_fromHeader (r : Request) (name : string) :
  parseIP validIP (HeaderGet r name) = fromHeader validIP r name.
Proof. unfold parseIP, fromHeader, headElement. rewrite upToComma_head. reflexivity. Qed.

Lemma guarded_parseIP (r : Request) (name : string) :
  (if negb (String.eqb (HeaderGet r name) "") then parseIP validIP (HeaderGet r name) else "")
  = fromHeader validIP r name.
Proof.
  destruct (String.eqb (HeaderGet r name) "") eqn:E; cbn [negb].
  - apply String.eqb_eq in E. unfold fromHeader, headElement. rewrite E. cbn.
    destruct (validIP ""); reflexivity.
  - apply parseIP_fromHeader.
Qed.

Lemma fromHeader_valid (r : Request) (name : string) :
  fromHeader validIP r name <> "" -> validIP (fromHeader validIP r name) = true.
Proof.
  unfold fromHeader. cbv zeta.
  destruct (validIP (headElement (HeaderGet r name))) eqn:E; [intros _; exact E | congruence].
Qed.

(** C7 (amended): [getClientIP] returns the first comma-separated element of
    [X-Forwarded-For], trimmed of spaces and tabs, when that element is a
    valid IP; else the [X-Real-IP] value read the same way; else the host part
    of the remote address when [net.SplitHostPort] splits it, and the raw
    remote address when it does not.  The result is a valid IP whenever a
    header supplied it; otherwise it is the host part of the remote address,
    or the raw remote address, as it stands. *)
Theorem getClientIP_order (r : Request) :
  let ip := getClientIP validIP SplitHostPort r in
  let xff := fromHeader validIP r "X-Forwarded-For" in
  let xri := fromHeader validIP r "X-Real-IP" in
  (xff <> "" -> ip = xff) /\
  (xff = "" -> xri <> "" -> ip = xri) /\
  (xff = "" -> xri = "" ->
   ip = match SplitHostPort (RemoteAddr r) with
        | Some (host, _) => host
        | None => RemoteAddr r
        end) /\
  (validIP ip = true \/
   (xff = "" /\ xri = "" /\
    ((exists port, SplitHostPort (RemoteAddr r) = Some (ip, port)) \/
     (SplitHostPort (RemoteAddr r) = None /\ ip = RemoteAddr r)))).
Proof.
  cbv zeta. unfold getClientIP. cbv zeta. rewrite !guarded_parseIP.
  pose proof (fromHeader_valid r "X-Forwarded-For") as Vf.
  pose proof (fromHeader_valid r "X-Real-IP") as Vr.
  destruct (String.eqb (fromHeader validIP r "X-Forwarded-For") "") eqn:Ef; cbn [negb].
  - apply String.eqb_eq in Ef.
    destruct (String.eqb (fromHeader validIP r "X-Real-IP") "") eqn:Er; cbn [negb].
    + apply String.eqb_eq in Er.
      repeat split; try congruence.
      right. split; [exact Ef|]. split; [exact Er|].
      destruct (SplitHostPort (RemoteAddr r)) as [[host port]|]; [left; eauto | right; auto].
    + apply String.eqb_neq in Er. repeat split; try congruence. left. auto.
  - apply String.eqb_neq in Ef. repeat split; try congruence. left. auto.
Qed.

End AnyNet.

(** C7 (as stated): a counterexample, with the library functions as Go
    defines them.  For [X-Forwarded-For: unknown, 203.0.113.7] the first valid
    IP of the list is 203.0.113.7, yet the answer is the remote host 10.0.0.1:
    only the first element is looked at.  And for a link-local IPv6 peer the
    answer is [fe80::1%eth0], which [net.ParseIP] refuses and which is not the
    raw remote address either. *)
Lemma getClientIP_first_valid_cex :
  (firstValidIP GoNet.validIP (HeaderGet viaProxy "X-Forwarded-For") = Some "203.0.113.7" /\
   getClientIP GoNet.validIP GoNet.SplitHostPort viaProxy = "10.0.0.1") /\
  (getClientIP GoNet.validIP GoNet.SplitHostPort linkLocal = "fe80::1%eth0" /\
   GoNet.validIP "fe80::1%eth0" = false /\
   "fe80::1%eth0" <> RemoteAddr linkLocal).
Proof.
  split; split; try (vm_compute; reflexivity).
  split; [vm_compute; reflexivity | discriminate].
Qed.

(** The common case: a well-formed first element wins. *)
Example getClientIP_direct :
  getClientIP GoNet.validIP GoNet.SplitHostPort direct = "198.51.100.4".
Proof. vm_compute. reflexivity. Qed.

End ClientIPProps.
(** ** Cache reads *)

Section CacheProps.
Import GoStrings OS Cache.
Local Open Scope string_scope.
Local Open Scope Z_scope.

(** A saturated difference within a TTL short of the largest duration is a
    true difference within the TTL. *)
Lemma Since_within (now t ttl : Z) :
  GoTime.Since now t <= ttl -> ttl < GoTime.maxDuration -> now - t <= ttl.
Proof.
  unfold GoTime.Since, GoTime.Sub, GoTime.maxDuration, GoTime.minDuration.
  destruct (2 ^ 63 - 1 <? now - t) eqn:E1; [lia|].
  destruct (now - t <? - 2 ^ 63) eqn:E2; [apply Z.ltb_lt in E2; lia | lia].
Qed.

(** C4: a cache read, in the original and in the resized tier, answers a hit
    only when the payload file exists at the stat and its age [now - mtime]
    is within the TTL; and when the stat succeeds on a fresh entry but the
    file is gone at the read, the answer is the miss [(nil, false)].  The
    result carries no error at all. *)
Theorem cache_read_hit_only_fresh
  (hash : string -> string) (m : Manager) (fs : World) (now : Z) (fs' : World)
  (iconURL : string) (size : Z) (format : string) :
  (let '(b, hit) := ReadOrigFromCache hash m fs now fs' iconURL in
   readOutcome (TTL m) fs now fs' (origPath hash m iconURL) b hit) /\
  (let '(b, hit, modTime) :=
     ReadResizedFromCacheWithMod hash m fs now fs' iconURL size format in
   readOutcome (TTL m) fs now fs' (ResizedCachePath hash m iconURL size format) b hit /\
   (hit = false -> modTime = None)).
Proof.
  assert (Hgen : forall p f,
             fs !! p = Some f ->
             (if TTL m <? GoTime.Since now (mtime f) then True
              else match fs' !! p with
                   | None => readOutcome (TTL m) fs now fs' p None false
                   | Some f' => readOutcome (TTL m) fs now fs' p (Some (content f')) true
                   end) /\
             ((TTL m <? GoTime.Since now (mtime f)) = true ->
              readOutcome (TTL m) fs now fs' p None false)).
  { intros p f Ef. split.
    - destruct (TTL m <? GoTime.Since now (mtime f)) eqn:Ettl; [exact I|].
      apply Z.ltb_ge in Ettl.
      destruct (fs' !! p) as [f'|] eqn:Ef'.
      + split.
        * intros _. exists f, f'. repeat split; auto.
          intros Hlt. eapply Since_within; eassumption.
        * intros f0 _ _ Hgone. rewrite Ef' in Hgone. discriminate.
      + split; [discriminate | auto].
    - intros Ettl. apply Z.ltb_lt in Ettl. split; [discriminate|].
      intros f0 Hf0 Hfresh _. assert (f0 = f) by congruence. subst f0. lia. }
  assert (Hnone : forall p, fs !! p = None -> readOutcome (TTL m) fs now fs' p None false).
  { intros p Ef. split; [discriminate|]. intros f Hf. rewrite Ef in Hf. discriminate. }
  split.
  - unfold ReadOrigFromCache, Stat, ReadFile. cbv zeta.
    set (p := origPath hash m iconURL).
    destruct (fs !! p) as [f|] eqn:Ef; [|apply Hnone, Ef].
    destruct (Hgen p f Ef) as [Hfresh Hstale].
    destruct (TTL m <? GoTime.Since now (mtime f)); [apply Hstale; reflexivity|].
    destruct (fs' !! p) as [f'|]; exact Hfresh.
  - unfold ReadResizedFromCacheWithMod, Stat, ReadFile. cbv zeta.
    set (p := ResizedCachePath hash m iconURL size format).
    destruct (fs !! p) as [f|] eqn:Ef; [|split; [apply Hnone, Ef | reflexivity]].
    destruct (Hgen p f Ef) as [Hfresh Hstale].
    destruct (TTL m <? GoTime.Since now (mtime f));
      [split; [apply Hstale; reflexivity | reflexivity]|].
    destruct (fs' !! p) as [f'|]; cbn [fmap option_fmap option_map];
      (split; [exact Hfresh | first [discriminate | reflexivity]]).
Qed.

(** ** Atomic writes *)

Lemma freshTemp_spec (fs : World) (dir : string) (candidates : list string) (name : string) :
  freshTemp fs dir candidates = Some name ->
  fs !! name = None /\ exists r, r ∈ candidates /\ name = joinPath dir (".tmp-" +:+ r)%string.
Proof.
  induction candidates as [|r rest IH]; cbn [freshTemp]; [discriminate|].
  destruct (fs !! joinPath dir (".tmp-" +:+ r)%string) eqn:E.
  - intros H. destruct (IH H) as (Hn & r' & Hin & Hr').
    split; [exact Hn|]. exists r'. split; [right; exact Hin | exact Hr'].
  - intros H. injection H as <-. split; [exact E|]. exists r. split; [left | reflexivity].
Qed.

(** Creating the temporary file, filling it and unlinking it leaves the
    world as it was. *)
Lemma temp_cleanup (fs : World) (tmp : string) (f g : File) :
  fs !! tmp = None ->
  RemoveQuietly (<[tmp := f]> (<[tmp := g]> fs)) tmp = fs.
Proof.
  intros Hfree. unfold RemoveQuietly, Remove.
  rewrite lookup_insert_eq, insert_insert_eq, delete_insert_eq.
  apply delete_id, Hfree.
Qed.

Lemma atomicWriteFile_outcome (env : Env) (fs : World) (p : string) (data : list Byte.byte) :
  writeOutcome env fs p data (atomicWriteFile env fs p data).
Proof.
  unfold writeOutcome.
  unfold atomicWriteFile, osCreateTemp, calm. cbv zeta.
  destruct (createFails env) eqn:Ec; cbn [negb andb].
  { split; [discriminate|].
    intros _. split; [eauto|]. split; [reflexivity|].
    intros dir pat tmp Hin. inversion Hin. }
  destruct (freshTemp fs (Dir p) (randoms env)) as [tmp|] eqn:Ef.
  2:{ split; [discriminate|].
      intros _. split; [eauto|]. split; [reflexivity|].
      intros dir pat tmp Hin. inversion Hin. }
  destruct (freshTemp_spec _ _ _ _ Ef) as (Hfree & r & _ & Hname).
  assert (Hsame : forall (cs : list Call) dir pat t,
             CreateTemp dir pat t ∈ (CreateTemp (Dir p) ".tmp-*" tmp :: cs) ->
             (forall d q n, CreateTemp d q n ∉ cs) -> t = tmp).
  { intros cs dir pat t Hin Hcs.
    apply elem_of_cons in Hin as [Hin|Hin]; [congruence | exfalso; eapply Hcs; eauto]. }
  assert (Hnone : forall (cs : list Call),
             Forall (fun c => match c with CreateTemp _ _ _ => False | _ => True end) cs ->
             forall d q n, CreateTemp d q n ∉ cs).
  { intros cs Hall d q n Hin. eapply Forall_forall in Hall; [|exact Hin]. exact Hall. }
  destruct (writeFails env) as [n|] eqn:Ew.
  { split; [discriminate|].
    intros _. rewrite temp_cleanup by exact Hfree.
    split; [eauto|]. split; [reflexivity|].
    intros dir pat t Hin.
    assert (t = tmp) as ->
      by (eapply Hsame; [exact Hin | apply Hnone; repeat constructor]).
    split; [reflexivity | exact Hfree]. }
  destruct (syncFails env) eqn:Es; cbn [negb andb].
  { split; [discriminate|].
    intros _. rewrite temp_cleanup by exact Hfree.
    split; [eauto|]. split; [reflexivity|].
    intros dir pat t Hin.
    assert (t = tmp) as ->
      by (eapply Hsame; [exact Hin | apply Hnone; repeat constructor]).
    split; [reflexivity | exact Hfree]. }
  destruct (closeFails env) eqn:Ecl; cbn [negb andb].
  { split; [discriminate|].
    intros _. rewrite temp_cleanup by exact Hfree.
    split; [eauto|]. split; [reflexivity|].
    intros dir pat t Hin.
    assert (t = tmp) as ->
      by (eapply Hsame; [exact Hin | apply Hnone; repeat constructor]).
    split; [reflexivity | exact Hfree]. }
  unfold osRename.
  destruct (renameFails env) eqn:Er; cbn [negb].
  { split; [discriminate|].
    intros _. rewrite temp_cleanup by exact Hfree.
    split; [eauto|]. split; [reflexivity|].
    intros dir pat t Hin.
    assert (t = tmp) as ->
      by (eapply Hsame; [exact Hin | apply Hnone; repeat constructor]).
    split; [reflexivity | exact Hfree]. }
  rewrite lookup_insert_eq.
  split; [|intros [H|H]; discriminate].
  intros tmp' _ Htmp. injection Htmp as <-.
  split; [reflexivity|]. split; [reflexivity|]. split; [eauto|]. split; [exact Hfree|].
  rewrite insert_insert_eq, delete_insert_eq, delete_id by exact Hfree. reflexivity.
Qed.

(** C3: every cache write (original payload, validator sidecar, resized
    payload) goes through [atomicWriteFile], which creates a temporary file
    named [.tmp-...] in the directory of the destination, writes the whole
    contents, syncs, closes and renames it over the final name; when any of
    these calls fails it returns the error, has left every path of the world
    (the final one included) as it was, and has unlinked the temporary
    file. *)
Theorem atomicWriteFile_all_or_nothing
  (hash : string -> string) (env : Env) (m : Manager) (fs : World)
  (p url format : string) (size : Z) (data : list Byte.byte) :
  writeOutcome env fs p data (atomicWriteFile env fs p data) /\
  writeOutcome env fs (origPath hash m url) data
    (WriteOrigToCache hash env m fs url data) /\
  writeOutcome env fs (origMetaPath hash m url) data
    (WriteOrigMeta hash env m fs url data) /\
  writeOutcome env fs (ResizedCachePath hash m url size format) data
    (WriteResizedToCache hash env m fs url size format data).
Proof.
  assert (Hany : forall q, writeOutcome env fs q data (atomicWriteFile env fs q data))
    by (intros q; apply atomicWriteFile_outcome).
  split; [apply Hany|].
  split; [unfold WriteOrigToCache; apply Hany|].
  split; [unfold WriteOrigMeta; apply Hany|].
  unfold WriteResizedToCache. apply Hany.
Qed.

(** ** Writes, reads and touches together *)

(** A write either puts the whole file under its name, or changes nothing. *)
Lemma atomicWriteFile_world (env : Env) (fs : World) (p : string) (data : list Byte.byte) :
  let '(err, fs', _) := atomicWriteFile env fs p data in
  (calm env = true /\ is_Some (freshTemp fs (Dir p) (randoms env)) /\
   err = None /\ fs' = <[p := mkFile data (stamp env)]> fs) \/
  ((calm env = false \/ freshTemp fs (Dir p) (randoms env) = None) /\
   (exists e, err = Some e) /\ fs' = fs).
Proof.
  pose proof (atomicWriteFile_outcome env fs p data) as H. unfold writeOutcome in H.
  destruct (atomicWriteFile env fs p data) as [[err fs'] calls].
  destruct H as [Hok Hfail].
  destruct (calm env) eqn:Ec.
  - destruct (freshTemp fs (Dir p) (randoms env)) as [tmp|] eqn:Et.
    + left. destruct (Hok tmp eq_refl eq_refl) as (-> & _ & _ & _ & ->). eauto.
    + right. destruct Hfail as (He & -> & _); auto.
  - right. destruct Hfail as (He & -> & _); auto.
Qed.

(** A read looks at one path only. *)
Lemma ReadOrigFromCache_at (hash : string -> string) (m : Manager) (fs fs' : World)
  (now : Z) (url : string) :
  fs' !! origPath hash m url = fs !! origPath hash m url ->
  ReadOrigFromCache hash m fs' now fs' url = ReadOrigFromCache hash m fs now fs url.
Proof. intros H. unfold ReadOrigFromCache, Stat, ReadFile. cbv zeta. rewrite H. reflexivity. Qed.

Lemma ReadResized_at (hash : string -> string) (m : Manager) (fs fs' : World)
  (now : Z) (url : string) (size : Z) (format : string) :
  fs' !! ResizedCachePath hash m url size format = fs !! ResizedCachePath hash m url size format ->
  ReadResizedFromCacheWithMod hash m fs' now fs' url size format =
  ReadResizedFromCacheWithMod hash m fs now fs url size format.
Proof.
  intros H. unfold ReadResizedFromCacheWithMod, Stat, ReadFile. cbv zeta. rewrite H.
  reflexivity.
Qed.

Lemma read_fresh (hash : string -> string) (m : Manager) (fs : World) (now : Z)
  (url : string) (f : File) :
  fs !! origPath hash m url = Some f -> GoTime.Since now (mtime f) <= TTL m ->
  ReadOrigFromCache hash m fs now fs url = (Some (content f), true).
Proof.
  intros Hf Hage. unfold ReadOrigFromCache, Stat, ReadFile. cbv zeta. rewrite Hf.
  cbn [fmap option_fmap option_map].
  destruct (TTL m <? GoTime.Since now (mtime f)) eqn:E; [apply Z.ltb_lt in E; lia|].
  reflexivity.
Qed.

Lemma read_resized_fresh (hash : string -> string) (m : Manager) (fs : World) (now : Z)
  (url : string) (size : Z) (format : string) (f : File) :
  fs !! ResizedCachePath hash m url size format = Some f ->
  GoTime.Since now (mtime f) <= TTL m ->
  ReadResizedFromCacheWithMod hash m fs now fs url size format =
    (Some (content f), true, Some (mtime f)).
Proof.
  intros Hf Hage. unfold ReadResizedFromCacheWithMod, Stat, ReadFile. cbv zeta. rewrite Hf.
  cbn [fmap option_fmap option_map].
  destruct (TTL m <? GoTime.Since now (mtime f)) eqn:E; [apply Z.ltb_lt in E; lia|].
  reflexivity.
Qed.

(** X10: what is written can be read back.  After a write in which no call
    fails, a read of the same entry within the TTL of the time stamped on the
    file is a hit with exactly the bytes written, in the original tier and in
    the resized tier; the resized read also reports that time stamp.  This
    holds whatever was cached under the entry before. *)
Theorem cache_write_then_read
  (hash : string -> string) (env : Env) (m : Manager) (fs : World) (now : Z)
  (url format : string) (size : Z) (b : list Byte.byte) :
  calm env = true ->
  is_Some (freshTemp fs (Dir (origPath hash m url)) (randoms env)) ->
  is_Some (freshTemp fs (Dir (ResizedCachePath hash m url size format)) (randoms env)) ->
  GoTime.Since now (stamp env) <= TTL m ->
  (let '(err, fs', _) := WriteOrigToCache hash env m fs url b in
   err = None /\ ReadOrigFromCache hash m fs' now fs' url = (Some b, true)) /\
  (let '(err, fs', _) := WriteResizedToCache hash env m fs url size format b in
   err = None /\
   ReadResizedFromCacheWithMod hash m fs' now fs' url size format =
     (Some b, true, Some (stamp env))).
Proof.
  intros Hcalm Ht1 Ht2 Hage. split.
  - unfold WriteOrigToCache.
    pose proof (atomicWriteFile_world env fs (origPath hash m url) b) as H.
    destruct (atomicWriteFile env fs (origPath hash m url) b) as [[err fs'] calls].
    destruct H as [(_ & _ & -> & ->)|([Hc|Hn] & _)].
    + split; [reflexivity|].
      apply (read_fresh hash m _ now url (mkFile b (stamp env)));
        [apply lookup_insert_eq | exact Hage].
    + congruence.
    + rewrite Hn in Ht1. destruct Ht1; discriminate.
  - unfold WriteResizedToCache.
    pose proof (atomicWriteFile_world env fs (ResizedCachePath hash m url size format) b) as H.
    destruct (atomicWriteFile env fs (ResizedCachePath hash m url size format) b)
      as [[err fs'] calls].
    destruct H as [(_ & _ & -> & ->)|([Hc|Hn] & _)].
    + split; [reflexivity|].
      apply (read_resized_fresh hash m _ now url size format (mkFile b (stamp env)));
        [apply lookup_insert_eq | exact Hage].
    + congruence.
    + rewrite Hn in Ht2. destruct Ht2; discriminate.
Qed.

(** X11: touching an entry refreshes it.  [TouchOrigCache] fails, and changes
    nothing, when the payload is not in the cache; otherwise it restamps the
    payload and leaves its bytes and every other file alone, so that any read
    within the TTL of the touch is a hit with the old bytes, however old the
    entry was before. *)
Theorem TouchOrigCache_refreshes
  (hash : string -> string) (m : Manager) (fs : World) (now : Z) (url : string) :
  (fs !! origPath hash m url = None -> TouchOrigCache hash m fs now url = None) /\
  (forall f, fs !! origPath hash m url = Some f ->
     exists fs',
       TouchOrigCache hash m fs now url = Some fs' /\
       fs' !! origPath hash m url = Some (mkFile (content f) now) /\
       (forall q, q <> origPath hash m url -> fs' !! q = fs !! q) /\
       (forall now', GoTime.Since now' now <= TTL m ->
          ReadOrigFromCache hash m fs' now' fs' url = (Some (content f), true))).
Proof.
  unfold TouchOrigCache, Chtimes. split.
  - intros ->. reflexivity.
  - intros f ->. eexists. split; [reflexivity|]. split; [apply lookup_insert_eq|]. split.
    + intros q Hq. apply lookup_insert_ne. congruence.
    + intros now' Hage.
      apply (read_fresh hash m _ now' url (mkFile (content f) now));
        [apply lookup_insert_eq | exact Hage].
Qed.

(** *** The paths of the cache *)

Lemma OrigCacheDir_form (m : Manager) :
  OrigCacheDir m = inDir (Clean (CacheDir m)) "orig".
Proof. apply Join_name. reflexivity. Qed.

Lemma ResizedCacheDir_form (m : Manager) :
  ResizedCacheDir m = inDir (Clean (CacheDir m)) "resized".
Proof. apply Join_name. reflexivity. Qed.

(** The directories of the two tiers start no common path. *)
Lemma orig_not_resized (m : Manager) (x y : string) :
  (OrigCacheDir m +:+ x)%string <> (ResizedCacheDir m +:+ y)%string.
Proof.
  rewrite OrigCacheDir_form, ResizedCacheDir_form. unfold inDir.
  destruct (String.eqb (Clean (CacheDir m)) "."); [|destruct (String.eqb (Clean (CacheDir m)) "/")].
  - intros H. vm_compute in H. discriminate.
  - intros H. vm_compute in H. discriminate.
  - rewrite !append_assoc. intros H. apply append_inv_head in H. vm_compute in H. discriminate.
Qed.

Section CachePaths.
Variable hash : string -> string.
Hypothesis hash_hex : forall s, hexDigest (hash s) = true.

Lemma hash_name (s : string) : isName (hash s) = true.
Proof.
  rewrite <- (append_nil_r (hash s)). apply hexDigest_name; [apply hash_hex | reflexivity].
Qed.

(** With a hash that is a hex digest, a cached original lies in the
    directory of its tier under the name the hash gives, and its validator
    beside it. *)
Lemma origPath_form (m : Manager) (url : string) :
  origPath hash m url = (OrigCacheDir m +:+ "/" +:+ hash ("orig|" +:+ url))%string.
Proof. unfold origPath, OrigCacheDir. apply Join_Join; [reflexivity | apply hash_name]. Qed.

Lemma origMetaPath_form (m : Manager) (url : string) :
  origMetaPath hash m url = (origPath hash m url +:+ ".meta")%string.
Proof.
  rewrite origPath_form. unfold origMetaPath, OrigCacheDir.
  rewrite Join_Join; [|reflexivity | apply hexDigest_name; [apply hash_hex | reflexivity]].
  rewrite !append_assoc. reflexivity.
Qed.

Lemma ResizedCachePath_form (m : Manager) (url : string) (size : Z) (format : string) :
  IndexByte format "/" = None ->
  ResizedCachePath hash m url size format =
    (ResizedCacheDir m +:+ "/" +:+
     hash ("res|" +:+ url +:+ "|" +:+ Itoa size +:+ "|" +:+ format) +:+ "." +:+ format)%string.
Proof.
  intros Hf. unfold ResizedCachePath, ResizedCacheDir. cbv zeta.
  apply Join_Join; [reflexivity|].
  apply hexDigest_name; [apply hash_hex|].
  change ("." +:+ format) with (String "." format). cbn [IndexByte].
  change (Ascii.eqb "." "/") with false. cbv iota. rewrite Hf. reflexivity.
Qed.

Lemma origPath_not_resized (m : Manager) (url url' format : string) (size : Z)
  (suffix : string) :
  IndexByte format "/" = None ->
  (origPath hash m url +:+ suffix)%string <> ResizedCachePath hash m url' size format.
Proof.
  intros Hf. rewrite origPath_form, (ResizedCachePath_form m url' size format Hf).
  rewrite append_assoc. apply orig_not_resized.
Qed.

Lemma origMetaPath_not_orig (m : Manager) (url url' : string) :
  origMetaPath hash m url <> origPath hash m url'.
Proof.
  rewrite origMetaPath_form, !origPath_form. intros E.
  apply (f_equal String.length) in E. rewrite !length_append in E.
  destruct (hexDigest_shape _ (hash_hex ("orig|" +:+ url)%string)) as (L1 & _).
  destruct (hexDigest_shape _ (hash_hex ("orig|" +:+ url')%string)) as (L2 & _).
  rewrite L1, L2 in E. cbn [String.length] in E. lia.
Qed.

End CachePaths.

Lemma write_elsewhere (env : Env) (fs : World) (p : string) (data : list Byte.byte) :
  let '(_, fs', _) := atomicWriteFile env fs p data in
  forall q, q <> p -> fs' !! q = fs !! q.
Proof.
  pose proof (atomicWriteFile_world env fs p data) as H.
  destruct (atomicWriteFile env fs p data) as [[err fs'] calls].
  destruct H as [(_ & _ & _ & ->)|(_ & _ & ->)]; intros q Hq; [|reflexivity].
  apply lookup_insert_ne. congruence.
Qed.


(** Without that proviso the tiers can collide: a format that climbs out of
    its directory makes [ResizedCachePath] name a file of the original
    tier. *)
Example ResizedCachePath_escapes :
  ResizedCachePath fixedHash manager "http://a/i.png" 32 "/../../orig/x" = "cache/orig/x".
Proof. vm_compute. reflexivity. Qed.

Lemma atomicWriteFile_all_or_nothing_witness :
  fst (atomicWriteFile quiet ∅ "cache/orig/h7" payload) =
    (None, <["cache/orig/h7"%string := mkFile payload 1000]> ∅) /\
  snd (fst (atomicWriteFile syncBroken ∅ "cache/orig/h7" payload)) = ∅.
Proof.
  split.
  - pose proof (proj1 (atomicWriteFile_all_or_nothing
                         toyHash quiet manager ∅ "cache/orig/h7" "" "" 0 payload)) as H.
    unfold writeOutcome in H.
    destruct (atomicWriteFile quiet ∅ "cache/orig/h7" payload) as [[err fs'] calls].
    destruct H as (Hok & _).
    destruct (Hok "cache/orig/.tmp-1"%string) as (-> & _ & _ & _ & ->);
      [reflexivity | reflexivity | reflexivity].
  - pose proof (proj1 (atomicWriteFile_all_or_nothing
                         toyHash syncBroken manager ∅ "cache/orig/h7" "" "" 0 payload)) as H.
    unfold writeOutcome in H.
    destruct (atomicWriteFile syncBroken ∅ "cache/orig/h7" payload) as [[err fs'] calls].
    destruct H as (_ & Hfail).
    destruct Hfail as (_ & -> & _); [left; reflexivity | reflexivity].
Defined.

Lemma cache_read_hit_only_fresh_witness :
  let fs : World := {[ origPath toyHash manager "http://a/i.png" := mkFile payload 1000 ]} in
  ReadOrigFromCache toyHash manager fs 2000 ∅ "http://a/i.png" = (None, false).
Proof.
  intros fs.
  pose proof (cache_read_hit_only_fresh toyHash manager fs 2000 ∅ "http://a/i.png" 32 "png")
    as [H _].
  destruct (ReadOrigFromCache toyHash manager fs 2000 ∅ "http://a/i.png") as [b hit].
  destruct H as [_ Hmiss].
  destruct (Hmiss (mkFile payload 1000)) as [-> ->];
    [reflexivity | vm_compute; discriminate | reflexivity | reflexivity].
Defined.

Lemma cache_write_then_read_witness :
  let '(err, fs', _) := WriteOrigToCache toyHash quiet manager ∅ "http://a/i.png" payload in
  err = None /\
  ReadOrigFromCache toyHash manager fs' 2000 fs' "http://a/i.png" = (Some payload, true).
Proof.
  apply (cache_write_then_read toyHash quiet manager ∅ 2000 "http://a/i.png" "png" 32 payload).
  - reflexivity.
  - vm_compute. eauto.
  - vm_compute. eauto.
  - vm_compute. discriminate.
Defined.

Lemma TouchOrigCache_refreshes_witness :
  let fs : World := {[ origPath toyHash manager "http://a/i.png" := mkFile payload 1000 ]} in
  exists fs',
    TouchOrigCache toyHash manager fs (5000 * GoTime.Second) "http://a/i.png" = Some fs' /\
    ReadOrigFromCache toyHash manager fs' (5001 * GoTime.Second) fs' "http://a/i.png"
      = (Some payload, true).
Proof.
  intros fs.
  destruct (proj2 (TouchOrigCache_refreshes toyHash manager fs (5000 * GoTime.Second)
                     "http://a/i.png") (mkFile payload 1000))
    as (fs' & Ht & _ & _ & Hread); [reflexivity|].
  exists fs'. split; [exact Ht|]. apply Hread. vm_compute. discriminate.
Defined.


End CacheProps.
(** ** The janitor *)

Section JanitorProps.
Import GoStrings OS Loop Janitor.
Local Open Scope Z_scope.

(** *** The expiry instant *)

(** For every TTL but the smallest [Duration] the expiry instant is
    [now - ttl]; the smallest [Duration] is its own negation, and the expiry
    instant then lies some 292 years before [now]. *)
Lemma expiry_plain (now ttl : Z) :
  GoTime.minDuration < ttl <= GoTime.maxDuration -> expiry now ttl = now - ttl.
Proof.
  unfold expiry, GoTime.Add, GoTime.Neg, GoTime.minDuration, GoTime.maxDuration. intros H.
  rewrite Z.mod_small by lia. lia.
Qed.

Lemma expiry_min (now : Z) : expiry now GoTime.minDuration = now - 2 ^ 63.
Proof. unfold expiry, GoTime.Add, GoTime.Neg, GoTime.minDuration. reflexivity. Qed.

(** *** Removing files *)

Lemma RemoveQuietly_delete (fs : World) (p : string) : RemoveQuietly fs p = delete p fs.
Proof.
  unfold RemoveQuietly, Remove. destruct (fs !! p) eqn:E; [reflexivity|].
  symmetry. apply delete_id, E.
Qed.

Lemma present_after_delete (fs : World) (p q : string) :
  is_Some (delete p fs !! q) -> q <> p /\ is_Some (fs !! q).
Proof.
  intros H. destruct (decide (q = p)) as [->|Hne].
  - rewrite lookup_delete_eq in H. destruct H; discriminate.
  - rewrite lookup_delete_ne in H by congruence. auto.
Qed.

Lemma Remove_Some (fs : World) (p : string) (f : File) :
  fs !! p = Some f -> Remove fs p = Some (delete p fs).
Proof. intros H. unfold Remove. rewrite H. reflexivity. Qed.

(** *** The three classes are disjoint, and a validator names its payload *)

Lemma isData_not_meta (p : string) : isData p = true -> isMeta p = false.
Proof.
  unfold isData, isMeta. intros H.
  apply andb_true_iff in H as [_ H]. apply negb_true_iff in H. rewrite H.
  apply andb_false_r.
Qed.

Lemma isData_not_temp (p : string) : isData p = true -> isTemp p = false.
Proof.
  unfold isData, isTemp. intros H.
  apply andb_true_iff in H as [H _]. apply andb_true_iff in H as [_ H].
  apply negb_true_iff in H. rewrite H. apply andb_false_r.
Qed.

Lemma isMeta_suffix (p : string) : isMeta p = true -> HasSuffix p ".meta" = true.
Proof. unfold isMeta. intros H. apply andb_true_iff in H as [_ H]. exact H. Qed.

Lemma isMeta_paired (m : string) :
  isMeta m = true -> (TrimSuffix m ".meta" +:+ ".meta")%string = m.
Proof. intros H. apply HasSuffix_TrimSuffix, isMeta_suffix, H. Qed.

Lemma sidecar_not_data (p : string) : isData (p +:+ ".meta")%string = false.
Proof.
  unfold isData. rewrite HasSuffix_append. cbn [negb]. apply andb_false_r.
Qed.

(** The walk callbacks test the classes in this order. *)
Lemma class_cases (p : string) :
  isCacheFile p = false \/ isTemp p = true \/ isMeta p = true \/ isData p = true.
Proof.
  unfold isTemp, isMeta, isData.
  destruct (isCacheFile p); [right | left; reflexivity].
  destruct (HasPrefix (Base p) ".tmp-"); [left; reflexivity | right].
  destruct (HasSuffix p ".meta"); [left | right]; reflexivity.
Qed.

(** *** Loops that only remove files *)

Section Sweeps.
Context {S X : Type} (w : S -> World) (g : S -> X -> S).
Hypothesis g_shrinks : forall s x, w (g s x) ⊆ w s.

Lemma sweep_shrinks (l : list X) : forall s, w (fold_left g l s) ⊆ w s.
Proof.
  induction l as [|x l IH]; intros s; cbn [fold_left]; [reflexivity|].
  etrans; [apply IH | apply g_shrinks].
Qed.

Lemma sweep_invariant (I : S -> Prop) (l : list X) :
  (forall s x, x ∈ l -> I s -> I (g s x)) ->
  forall s, I s -> I (fold_left g l s).
Proof.
  induction l as [|x l IH]; intros Hstep s Hs; cbn [fold_left]; [exact Hs|].
  apply IH.
  - intros s' x' Hin. apply Hstep. right. exact Hin.
  - apply Hstep; [left | exact Hs].
Qed.

(** What a step settles about its element stays settled, as long as it is a
    property that removing files cannot break. *)
Lemma sweep_settles (I : S -> Prop) (Q : X -> World -> Prop) (l : list X) :
  (forall x fs fs', fs' ⊆ fs -> Q x fs -> Q x fs') ->
  (forall s x, x ∈ l -> I s -> I (g s x) /\ Q x (w (g s x))) ->
  forall s, I s -> forall x, x ∈ l -> Q x (w (fold_left g l s)).
Proof.
  intros Hdown. induction l as [|y l IH]; intros Hstep s Hs x Hin; [inversion Hin|].
  cbn [fold_left].
  destruct (Hstep s y ltac:(left) Hs) as [Hs' Hq].
  apply elem_of_cons in Hin as [->|Hin].
  - eapply Hdown; [apply sweep_shrinks | exact Hq].
  - apply IH; [|exact Hs' | exact Hin].
    intros s' x' Hin'. apply Hstep. right. exact Hin'.
Qed.

End Sweeps.

(** *** The walk *)

Lemma WalkDir_perm (fs : World) : WalkDir fs ≡ₚ map_to_list fs.
Proof. apply merge_sort_Permutation. Qed.

Lemma elem_of_WalkDir (fs : World) (p : string) (f : File) :
  (p, f) ∈ WalkDir fs <-> fs !! p = Some f.
Proof. rewrite WalkDir_perm. apply elem_of_map_to_list. Qed.


(** *** The collecting walk *)

Lemma collect_cases (acc : Collected) (e : string * File) :
  (isCacheFile (fst e) = false /\ collect acc e = acc) \/
  (isTemp (fst e) = true /\
   collect acc e = mkCollected (dataFiles acc) (tempFiles acc ++ [fst e]) (metaFiles acc)) \/
  (isMeta (fst e) = true /\
   collect acc e = mkCollected (dataFiles acc) (tempFiles acc)
                     (<[TrimSuffix (fst e) ".meta" := fst e]> (metaFiles acc))) \/
  (isData (fst e) = true /\
   collect acc e = mkCollected (dataFiles acc ++ [fst e]) (tempFiles acc) (metaFiles acc)).
Proof.
  unfold collect, isTemp, isMeta, isData. cbv zeta.
  destruct (isCacheFile (fst e)); cbn [negb andb]; [right | left; auto].
  destruct (HasPrefix (Base (fst e)) ".tmp-"); cbn [negb andb]; [left; auto | right].
  destruct (HasSuffix (fst e) ".meta"); cbn [negb]; [left | right]; auto.
Qed.

Lemma collect_data (l : list (string * File)) :
  forall acc p,
    p ∈ dataFiles (fold_left collect l acc) <->
    p ∈ dataFiles acc \/ (p ∈ map fst l /\ isData p = true).
Proof.
  induction l as [|e l IH]; intros acc p; cbn [fold_left map].
  - split; [auto | intros [H|[H _]]; [exact H | inversion H]].
  - rewrite IH, elem_of_cons.
    destruct (collect_cases acc e) as [[Hc ->]|[[Hc ->]|[[Hc ->]|[Hc ->]]]];
      cbn [dataFiles]; rewrite ?elem_of_app, ?list_elem_of_singleton.
    4: { split; [intros [[H| ->]|H] | intros [H|[[->|H] Hd]]]; tauto. }
    all: split; [intros [H|H]; [| destruct H]; auto | intros [H|[[->|H] Hd]]; auto].
    + unfold isData in Hd. rewrite Hc in Hd. discriminate.
    + rewrite isData_not_temp in Hc by exact Hd. discriminate.
    + rewrite isData_not_meta in Hc by exact Hd. discriminate.
Qed.

Lemma isTemp_not_data (p : string) : isTemp p = true -> isData p = false.
Proof.
  intros H. destruct (isData p) eqn:E; [|reflexivity].
  rewrite isData_not_temp in H by exact E. discriminate.
Qed.

Lemma isMeta_not_data (p : string) : isMeta p = true -> isData p = false.
Proof.
  intros H. destruct (isData p) eqn:E; [|reflexivity].
  rewrite isData_not_meta in H by exact E. discriminate.
Qed.

Lemma isMeta_not_temp (p : string) : isMeta p = true -> isTemp p = false.
Proof.
  unfold isMeta, isTemp. intros H.
  apply andb_true_iff in H as [H _]. apply andb_true_iff in H as [_ H].
  apply negb_true_iff in H. rewrite H. apply andb_false_r.
Qed.

Lemma collect_temp (l : list (string * File)) :
  forall acc p,
    p ∈ tempFiles (fold_left collect l acc) <->
    p ∈ tempFiles acc \/ (p ∈ map fst l /\ isTemp p = true).
Proof.
  induction l as [|e l IH]; intros acc p; cbn [fold_left map].
  - split; [auto | intros [H|[H _]]; [exact H | inversion H]].
  - rewrite IH, elem_of_cons.
    destruct (collect_cases acc e) as [[Hc ->]|[[Hc ->]|[[Hc ->]|[Hc ->]]]];
      cbn [tempFiles]; rewrite ?elem_of_app, ?list_elem_of_singleton.
    2: { split; [intros [[H| ->]|H] | intros [H|[[->|H] Hd]]]; tauto. }
    all: split; [intros [H|H]; [| destruct H]; auto | intros [H|[[->|H] Hd]]; auto].
    + unfold isTemp in Hd. rewrite Hc in Hd. discriminate.
    + rewrite isMeta_not_temp in Hd by exact Hc. discriminate.
    + rewrite isData_not_temp in Hd by exact Hc. discriminate.
Qed.

(** Two validators with the same base path are the same file. *)
Lemma isMeta_base_inj (m m' : string) :
  isMeta m = true -> isMeta m' = true ->
  TrimSuffix m ".meta" = TrimSuffix m' ".meta" -> m = m'.
Proof.
  intros H H' E. rewrite <- (isMeta_paired m H), <- (isMeta_paired m' H'), E. reflexivity.
Qed.

Lemma collect_meta_sound (l : list (string * File)) :
  forall acc b m,
    metaFiles (fold_left collect l acc) !! b = Some m ->
    metaFiles acc !! b = Some m \/
    (m ∈ map fst l /\ isMeta m = true /\ b = TrimSuffix m ".meta").
Proof.
  induction l as [|e l IH]; intros acc b m; cbn [fold_left map]; [auto|].
  intros H. apply IH in H as [H|(Hin & Hm & Hb)].
  - destruct (collect_cases acc e) as [[Hc E]|[[Hc E]|[[Hc E]|[Hc E]]]];
      rewrite E in H; cbn [metaFiles] in H; auto.
    destruct (decide (TrimSuffix (fst e) ".meta" = b)) as [<-|Hne].
    + rewrite lookup_insert_eq in H. injection H as <-.
      right. split; [left|]; auto.
    + rewrite lookup_insert_ne in H by exact Hne. auto.
  - right. split; [right|]; auto.
Qed.

Lemma collect_meta_complete (l : list (string * File)) :
  forall acc m,
    (m ∈ map fst l \/ metaFiles acc !! TrimSuffix m ".meta" = Some m) ->
    isMeta m = true ->
    metaFiles (fold_left collect l acc) !! TrimSuffix m ".meta" = Some m.
Proof.
  induction l as [|e l IH]; intros acc m Hin Hm; cbn [fold_left map] in *.
  - destruct Hin as [Hin|Hin]; [inversion Hin | exact Hin].
  - apply IH; [|exact Hm].
    destruct Hin as [Hin|Hacc].
    + apply elem_of_cons in Hin as [->|Hin]; [right | left; exact Hin].
      destruct (collect_cases acc e) as [[Hc E]|[[Hc E]|[[Hc E]|[Hc E]]]]; rewrite E;
        cbn [metaFiles].
      * unfold isMeta in Hm. rewrite Hc in Hm. discriminate.
      * rewrite isMeta_not_temp in Hc by exact Hm. discriminate.
      * apply lookup_insert_eq.
      * rewrite isMeta_not_data in Hc by exact Hm. discriminate.
    + right.
      destruct (collect_cases acc e) as [[Hc E]|[[Hc E]|[[Hc E]|[Hc E]]]]; rewrite E;
        cbn [metaFiles]; try exact Hacc.
      destruct (decide (TrimSuffix (fst e) ".meta" = TrimSuffix m ".meta")) as [Heq|Hne].
      * rewrite Heq, lookup_insert_eq. f_equal. apply isMeta_base_inj; auto.
      * rewrite lookup_insert_ne by exact Hne. exact Hacc.
Qed.


(** *** The expiry loop *)

Lemma expireStep_shrinks (limit : Z) (st : World * gmap string string) (p : string) :
  fst (expireStep limit st p) ⊆ fst st.
Proof.
  destruct st as [fs metas]. unfold expireStep, Stat, Remove.
  destruct (fs !! p) as [info|]; [|reflexivity].
  destruct (mtime info <? limit); [|reflexivity].
  destruct (metas !! p) as [metaPath|]; cbn [fst].
  - rewrite RemoveQuietly_delete. etrans; apply delete_subseteq.
  - apply delete_subseteq.
Qed.

Lemma settled_down (limit : Z) (p : string) (fs fs' : World) :
  fs' ⊆ fs -> settled limit p fs -> settled limit p fs'.
Proof. intros Hsub H f Hf. apply H. eapply lookup_weaken; eassumption. Qed.

Lemma expireStep_inv (limit : Z) (data0 : list string)
  (st : World * gmap string string) (p : string) :
  (forall q, q ∈ data0 -> isData q = true) ->
  isData p = true ->
  expireInv data0 st ->
  expireInv data0 (expireStep limit st p) /\ settled limit p (fst (expireStep limit st p)).
Proof.
  intros Hdata Hp (I1 & I2 & I3). destruct st as [fs metas]. cbn [fst snd] in *.
  unfold expireStep, Stat, Remove.
  destruct (fs !! p) as [info|] eqn:Ep.
  2:{ split; [exact (conj I1 (conj I2 I3))|]. intros f Hf. cbn [fst] in Hf. congruence. }
  destruct (mtime info <? limit) eqn:Eold.
  2:{ apply Z.ltb_ge in Eold. split; [exact (conj I1 (conj I2 I3))|].
      intros f Hf. cbn [fst] in Hf. assert (f = info) by congruence. subst. lia. }
  destruct (metas !! p) as [metaPath|] eqn:Em.
  - destruct (I2 _ _ Em) as [Hmeta Hbase].
    rewrite RemoveQuietly_delete. split; [split; [|split]|]; cbn [fst snd].
    + intros m Hm Hin.
      apply present_after_delete in Hin as [Hne Hin].
      apply present_after_delete in Hin as [Hnp Hin].
      pose proof (I1 m Hm Hin) as Hl.
      rewrite lookup_delete_ne; [exact Hl|].
      intros Heq. rewrite <- Heq in Hl. congruence.
    + intros b m Hl. apply lookup_delete_Some in Hl as [_ Hl]. apply I2, Hl.
    + intros m Hm Hin Hd.
      apply present_after_delete in Hin as [Hne Hin].
      apply present_after_delete in Hin as [Hnp Hin].
      pose proof (I1 m Hm Hin) as Hl. pose proof (I3 m Hm Hin Hd) as Hpair.
      rewrite lookup_delete_ne.
      * rewrite lookup_delete_ne; [exact Hpair|].
        intros Heq. rewrite <- Heq in Hl. congruence.
      * intros Heq. apply Hdata in Hd. rewrite <- Heq in Hd.
        rewrite isMeta_not_data in Hd by exact Hmeta. discriminate.
    + intros f Hf. destruct (decide (p = metaPath)) as [->|Hne].
      * rewrite lookup_delete_eq in Hf. discriminate.
      * rewrite lookup_delete_ne, lookup_delete_eq in Hf by congruence. discriminate.
  - split; [split; [|split]|]; cbn [fst snd].
    + intros m Hm Hin.
      apply present_after_delete in Hin as [Hnp Hin]. apply I1; assumption.
    + exact I2.
    + intros m Hm Hin Hd.
      apply present_after_delete in Hin as [Hnp Hin].
      pose proof (I1 m Hm Hin) as Hl.
      rewrite lookup_delete_ne; [apply I3; assumption|].
      intros Heq. rewrite <- Heq in Hl. congruence.
    + intros f Hf. rewrite lookup_delete_eq in Hf. discriminate.
Qed.

Lemma expire_loop (limit : Z) (data0 l : list string) (st : World * gmap string string) :
  (forall q, q ∈ data0 -> isData q = true) ->
  (forall q, q ∈ l -> isData q = true) ->
  expireInv data0 st ->
  let st' := fold_left (expireStep limit) l st in
  expireInv data0 st' /\ fst st' ⊆ fst st /\
  forall p, p ∈ l -> settled limit p (fst st').
Proof.
  intros Hdata Hl Hinv. cbv zeta. split; [|split].
  - apply (sweep_invariant (expireStep limit) (expireInv data0)); [|exact Hinv].
    intros s x Hx Hs. apply expireStep_inv; auto.
  - apply (sweep_shrinks fst (expireStep limit)). apply expireStep_shrinks.
  - intros p Hp.
    apply (sweep_settles fst (expireStep limit) (expireStep_shrinks limit)
             (expireInv data0) (settled limit)); auto.
    + intros x fs fs'. apply settled_down.
    + intros s x Hx Hs. apply expireStep_inv; auto.
Qed.

(** *** The orphan loop and the temp-file loop *)

Lemma orphanStep_shrinks (set : gset string) (fs : World) (e : string * string) :
  orphanStep set fs e ⊆ fs.
Proof.
  destruct e as [b m]. unfold orphanStep. destruct (decide (b ∈ set)); [reflexivity|].
  rewrite RemoveQuietly_delete. apply delete_subseteq.
Qed.

Lemma tempStep_shrinks (limit : Z) (fs : World) (p : string) : tempStep limit fs p ⊆ fs.
Proof.
  unfold tempStep, Stat. destruct (fs !! p) as [info|]; [|reflexivity].
  destruct (mtime info <? limit); [|reflexivity].
  rewrite RemoveQuietly_delete. apply delete_subseteq.
Qed.

Lemma tempStep_settles (limit : Z) (fs : World) (p : string) :
  settled limit p (tempStep limit fs p).
Proof.
  unfold tempStep, Stat, settled. destruct (fs !! p) as [info|] eqn:E.
  - destruct (mtime info <? limit) eqn:Eold.
    + rewrite RemoveQuietly_delete. intros f Hf. rewrite lookup_delete_eq in Hf. discriminate.
    + apply Z.ltb_ge in Eold. intros f Hf. assert (f = info) by congruence. subst. lia.
  - intros f Hf. congruence.
Qed.

(** Removing a file that is not a payload leaves every validator paired. *)
Lemma paired_delete_other (fs : World) (t : string) :
  isData t = false -> paired fs -> paired (delete t fs).
Proof.
  intros Ht Hp m Hm Hin.
  apply present_after_delete in Hin as [Hne Hin].
  destruct (Hp m Hm Hin) as [Hd Hpair]. split; [exact Hd|].
  rewrite lookup_delete_ne; [exact Hpair|]. intros Heq. rewrite <- Heq in Hd. congruence.
Qed.

(** Removing a payload together with its sidecar does too. *)
Lemma paired_delete_pair (fs : World) (x : string) :
  paired fs -> paired (delete (x +:+ ".meta")%string (delete x fs)).
Proof.
  intros Hp m Hm Hin.
  apply present_after_delete in Hin as [Hne Hin].
  apply present_after_delete in Hin as [Hnx Hin].
  destruct (Hp m Hm Hin) as [Hd Hpair]. split; [exact Hd|].
  rewrite lookup_delete_ne.
  - rewrite lookup_delete_ne; [exact Hpair|].
    intros Heq. apply Hne. rewrite Heq. symmetry. apply isMeta_paired, Hm.
  - intros Heq. rewrite <- Heq, sidecar_not_data in Hd. discriminate.
Qed.

Lemma paired_tempStep (limit : Z) (fs : World) (p : string) :
  isTemp p = true -> paired fs -> paired (tempStep limit fs p).
Proof.
  intros Ht Hp. unfold tempStep, Stat. destruct (fs !! p) as [info|]; [|exact Hp].
  destruct (mtime info <? limit); [|exact Hp].
  rewrite RemoveQuietly_delete. apply paired_delete_other; [apply isTemp_not_data, Ht | exact Hp].
Qed.


(** *** Payload entries and their total *)

Lemma wrap64_id (z : Z) : - 2 ^ 63 <= z <= maxInt64 -> wrap64 z = z.
Proof.
  unfold wrap64, maxInt64. intros H.
  rewrite Z.mod_small by lia. lia.
Qed.

Lemma Size_nonneg (f : File) : 0 <= Size f.
Proof. unfold Size. lia. Qed.

Lemma filter_perm {A : Type} (p : A -> bool) (l l' : list A) :
  l ≡ₚ l' -> List.filter p l ≡ₚ List.filter p l'.
Proof.
  induction 1 as [|x l l' _ IH|x y l|l l' l'' _ IH1 _ IH2]; cbn [List.filter].
  - reflexivity.
  - destruct (p x); [constructor|]; exact IH.
  - destruct (p x), (p y); try reflexivity. constructor.
  - etrans; eassumption.
Qed.

Lemma totalSize_perm (l l' : list fileEntry) : l ≡ₚ l' -> totalSize l = totalSize l'.
Proof.
  unfold totalSize.
  induction 1 as [|x l l' _ IH|x y l|l l' l'' _ IH1 _ IH2]; cbn [map foldr]; lia.
Qed.

Lemma totalSize_cons (fe : fileEntry) (l : list fileEntry) :
  totalSize (fe :: l) = size fe + totalSize l.
Proof. reflexivity. Qed.

Lemma totalSize_app (l l' : list fileEntry) :
  totalSize (l ++ l') = totalSize l + totalSize l'.
Proof.
  induction l as [|fe l IH]; [reflexivity|].
  cbn [app]. rewrite !totalSize_cons, IH. lia.
Qed.

(** The entries the size walk would list from [l]. *)
Lemma elem_of_entries (l : list (string * File)) (fe : fileEntry) :
  fe ∈ map toEntry (List.filter (fun e => isData (fst e)) l) <->
  exists f, (path fe, f) ∈ l /\ isData (path fe) = true /\ fe = toEntry (path fe, f).
Proof.
  rewrite list_elem_of_In, in_map_iff. split.
  - intros ([p f] & <- & Hin). apply filter_In in Hin as [Hin Hd].
    exists f. cbn. rewrite list_elem_of_In. auto.
  - intros (f & Hin & Hd & ->). exists (path fe, f).
    split; [reflexivity|]. apply filter_In. rewrite <- list_elem_of_In. auto.
Qed.

Lemma elem_of_dataEntries (fs : World) (fe : fileEntry) :
  fe ∈ dataEntries fs <->
  exists f, fs !! path fe = Some f /\ isData (path fe) = true /\ fe = toEntry (path fe, f).
Proof.
  unfold dataEntries. rewrite elem_of_entries.
  split; intros (f & H & Hd & E); exists f; (split; [|auto]);
    apply elem_of_map_to_list; exact H.
Qed.

Lemma entries_size_nonneg (l : list (string * File)) (fe : fileEntry) :
  fe ∈ map toEntry (List.filter (fun e => isData (fst e)) l) -> 0 <= size fe.
Proof.
  intros H. apply elem_of_entries in H as (f & _ & _ & ->). apply Size_nonneg.
Qed.

Lemma totalSize_nonneg (l : list fileEntry) :
  (forall fe, fe ∈ l -> 0 <= size fe) -> 0 <= totalSize l.
Proof.
  induction l as [|fe l IH]; intros H; [reflexivity|].
  rewrite totalSize_cons.
  assert (0 <= size fe) by (apply H; left).
  assert (0 <= totalSize l) by (apply IH; intros; apply H; right; assumption). lia.
Qed.

Lemma dataEntries_delete_data (fs : World) (p : string) (f : File) :
  fs !! p = Some f -> isData p = true ->
  toEntry (p, f) :: dataEntries (delete p fs) ≡ₚ dataEntries fs.
Proof.
  intros Hf Hd. unfold dataEntries.
  rewrite <- (filter_perm _ _ _ (map_to_list_delete fs p f Hf)).
  cbn [List.filter fst]. rewrite Hd. reflexivity.
Qed.

Lemma dataEntries_delete_other (fs : World) (p : string) :
  isData p = false -> dataEntries (delete p fs) ≡ₚ dataEntries fs.
Proof.
  intros Hd. destruct (fs !! p) as [f|] eqn:Hf.
  - unfold dataEntries.
    rewrite <- (filter_perm _ _ _ (map_to_list_delete fs p f Hf)).
    cbn [List.filter fst]. rewrite Hd. reflexivity.
  - rewrite delete_id by exact Hf. reflexivity.
Qed.

Lemma payloadBytes_total (fs : World) : payloadBytes fs = totalSize (dataEntries fs).
Proof.
  unfold payloadBytes, totalSize, dataEntries. rewrite map_map. reflexivity.
Qed.

(** Removing files cannot raise the payload total. *)
Lemma totalSize_submseteq (l l' : list fileEntry) :
  (forall fe, fe ∈ l' -> 0 <= size fe) -> l ⊆+ l' -> totalSize l <= totalSize l'.
Proof.
  intros Hpos Hsub. induction Hsub as [|x l l' _ IH|x y l|x l l' _ IH|l l' l'' _ IH1 H23 IH2].
  - reflexivity.
  - rewrite !totalSize_cons.
    assert (totalSize l <= totalSize l') by (apply IH; intros; apply Hpos; right; assumption).
    lia.
  - rewrite !totalSize_cons. lia.
  - rewrite totalSize_cons.
    assert (0 <= size x) by (apply Hpos; left).
    assert (totalSize l <= totalSize l') by (apply IH; intros; apply Hpos; right; assumption).
    lia.
  - assert (Hl' : forall fe, fe ∈ l' -> 0 <= size fe).
    { intros fe Hfe. apply Hpos. eapply elem_of_submseteq; [exact Hfe | exact H23]. }
    specialize (IH1 Hl'). specialize (IH2 Hpos). lia.
Qed.

Lemma filter_submseteq {A : Type} (p : A -> bool) (l l' : list A) :
  l ⊆+ l' -> List.filter p l ⊆+ List.filter p l'.
Proof.
  induction 1 as [|x l l' _ IH|x y l|x l l' _ IH|l l' l'' _ IH1 _ IH2]; cbn [List.filter].
  - constructor.
  - destruct (p x); [constructor|]; exact IH.
  - destruct (p x), (p y); try reflexivity. constructor.
  - destruct (p x); [constructor|]; exact IH.
  - etrans; eassumption.
Qed.

Lemma payloadBytes_mono (fs fs' : World) : fs' ⊆ fs -> payloadBytes fs' <= payloadBytes fs.
Proof.
  intros Hsub. rewrite !payloadBytes_total. apply totalSize_submseteq.
  - intros fe Hfe. apply elem_of_dataEntries in Hfe as (f & _ & _ & ->). apply Size_nonneg.
  - unfold dataEntries. apply fmap_submseteq, filter_submseteq, map_to_list_submseteq, Hsub.
Qed.


(** *** The size pass *)

Lemma sizeWalk_class (acc : list fileEntry * Z) (e : string * File) :
  sizeWalk acc e =
    if isData (fst e) then (fst acc ++ [toEntry e], wrap64 (snd acc + Size (snd e))) else acc.
Proof.
  destruct acc as [files total]. unfold sizeWalk, isData. cbv zeta.
  destruct (isCacheFile (fst e)); cbn [negb andb]; [|reflexivity].
  destruct (HasSuffix (fst e) ".meta"), (HasPrefix (Base (fst e)) ".tmp-"); reflexivity.
Qed.

Lemma sizeWalk_fold (l : list (string * File)) :
  forall files total,
    0 <= total ->
    total + totalSize (map toEntry (List.filter (fun e => isData (fst e)) l)) <= maxInt64 ->
    fold_left sizeWalk l (files, total) =
      (files ++ map toEntry (List.filter (fun e => isData (fst e)) l),
       total + totalSize (map toEntry (List.filter (fun e => isData (fst e)) l))).
Proof.
  induction l as [|e l IH]; intros files total Hlo Hhi; cbn [fold_left List.filter map].
  - rewrite app_nil_r. unfold totalSize. cbn. rewrite Z.add_0_r. reflexivity.
  - rewrite sizeWalk_class. cbn [fst snd]. cbn [List.filter] in Hhi.
    destruct (isData (fst e)) eqn:Hd; cbn [map] in *.
    + rewrite totalSize_cons in Hhi. cbn [toEntry size] in Hhi.
      pose proof (Size_nonneg (snd e)).
      assert (0 <= totalSize (map toEntry (List.filter (fun e => isData (fst e)) l))).
      { apply totalSize_nonneg. intros fe. apply entries_size_nonneg. }
      rewrite wrap64_id by (unfold maxInt64 in *; lia).
      rewrite IH by lia. rewrite <- app_assoc, totalSize_cons. cbn [app toEntry size].
      f_equal. lia.
    + apply IH; assumption.
Qed.

Lemma walkEntries_perm (fs : World) : walkEntries fs ≡ₚ dataEntries fs.
Proof.
  unfold walkEntries, dataEntries. apply fmap_Permutation, filter_perm, WalkDir_perm.
Qed.

Lemma evict_cons (maxSize : Z) (fe : fileEntry) (l : list fileEntry) (st : World * Z) :
  evict maxSize (fe :: l) st =
    match evictStep maxSize st fe with
    | Continue st' => evict maxSize l st'
    | Return st' => st'
    end.
Proof. unfold evict. cbn [for_each]. destruct (evictStep maxSize st fe); reflexivity. Qed.

(** The eviction loop removes a prefix of its list: the shortest one that
    brings the total to the limit. *)
Lemma evict_loop (maxSize : Z) (l : list fileEntry) :
  forall fs total,
    dataEntries fs ≡ₚ l -> total = totalSize l -> total <= maxInt64 ->
    exists k, (k <= length l)%nat /\
      evict maxSize l (fs, total) = (withoutPairs (firstn k l) fs, totalSize (skipn k l)) /\
      dataEntries (withoutPairs (firstn k l) fs) ≡ₚ skipn k l /\
      (skipn k l = [] \/ totalSize (skipn k l) <= maxSize) /\
      (forall j, (j < k)%nat -> maxSize < totalSize (skipn j l)).
Proof.
  induction l as [|fe l IH]; intros fs total Hperm Htotal Hfit.
  - exists O. cbn. repeat split; auto; [subst; reflexivity | intros j Hj; lia].
  - rewrite evict_cons. unfold evictStep.
    destruct (total <=? maxSize) eqn:Estop.
    + apply Z.leb_le in Estop. exists O. cbn [firstn skipn withoutPairs fold_left length].
      split; [lia|]. split; [subst; reflexivity|]. split; [exact Hperm|].
      split; [right; lia | intros j Hj; lia].
    + apply Z.leb_gt in Estop.
      assert (Hin : fe ∈ dataEntries fs) by (rewrite Hperm; left).
      apply elem_of_dataEntries in Hin as (f & Hf & Hd & Hfe).
      rewrite (Remove_Some _ _ _ Hf). cbv zeta.
      set (fs2 := delete (path fe +:+ ".meta")%string (delete (path fe) fs)).
      assert (Hstep : match Stat (delete (path fe) fs) (path fe +:+ ".meta")%string with
                      | Some _ => Continue (RemoveQuietly (delete (path fe) fs)
                                              (path fe +:+ ".meta")%string,
                                            wrap64 (total - size fe))
                      | None => Continue (delete (path fe) fs, wrap64 (total - size fe))
                      end = (Continue (fs2, wrap64 (total - size fe))
                             : step (World * Z) (World * Z))).
      { unfold Stat, fs2. destruct (delete (path fe) fs !! (path fe +:+ ".meta")%string) eqn:E.
        - rewrite RemoveQuietly_delete. reflexivity.
        - rewrite (delete_id _ _ E). reflexivity. }
      rewrite Hstep. clear Hstep.
      assert (Hperm2 : dataEntries fs2 ≡ₚ l).
      { unfold fs2. rewrite dataEntries_delete_other by apply sidecar_not_data.
        apply (Permutation_cons_inv (a := fe)).
        rewrite Hfe at 1. rewrite (dataEntries_delete_data _ _ _ Hf Hd). exact Hperm. }
      assert (Hpos : 0 <= totalSize l).
      { apply totalSize_nonneg. intros x Hx. rewrite <- Hperm2 in Hx.
        apply elem_of_dataEntries in Hx as (g & _ & _ & ->). apply Size_nonneg. }
      assert (Hsz : 0 <= size fe) by (rewrite Hfe; apply Size_nonneg).
      rewrite totalSize_cons in Htotal.
      assert (Htot2 : wrap64 (total - size fe) = totalSize l).
      { rewrite wrap64_id by (unfold maxInt64 in *; lia). lia. }
      rewrite Htot2.
      destruct (IH fs2 (totalSize l) Hperm2 eq_refl ltac:(lia))
        as (k & Hk & Hev & Hperm' & Hstop & Hmin).
      exists (S k). cbn [firstn skipn length withoutPairs fold_left].
      split; [lia|]. split; [exact Hev|]. split; [exact Hperm'|]. split; [exact Hstop|].
      intros [|j] Hj; cbn [skipn].
      * rewrite totalSize_cons. lia.
      * apply Hmin. lia.
Qed.

Lemma withoutPairs_shrinks (evicted : list fileEntry) : forall fs, withoutPairs evicted fs ⊆ fs.
Proof.
  induction evicted as [|fe l IH]; intros fs; cbn [withoutPairs fold_left]; [reflexivity|].
  etrans; [apply IH|]. etrans; apply delete_subseteq.
Qed.

Lemma withoutPairs_paired (evicted : list fileEntry) :
  forall fs, paired fs -> paired (withoutPairs evicted fs).
Proof.
  induction evicted as [|fe l IH]; intros fs Hp; cbn [withoutPairs fold_left]; [exact Hp|].
  apply IH, paired_delete_pair, Hp.
Qed.

(** Exactly the listed payloads and their sidecars are gone. *)
Lemma withoutPairs_lookup (evicted : list fileEntry) :
  forall fs q,
    withoutPairs evicted fs !! q =
      if decide (Exists (fun fe => q = path fe \/ q = (path fe +:+ ".meta")%string) evicted)
      then None else fs !! q.
Proof.
  induction evicted as [|fe l IH]; intros fs q; cbn [withoutPairs fold_left].
  - rewrite decide_False; [reflexivity|]. intros H. inversion H.
  - fold (withoutPairs l (delete (path fe +:+ ".meta")%string (delete (path fe) fs))).
    rewrite IH. destruct (decide (Exists _ l)) as [Hl|Hl].
    + rewrite decide_True; [reflexivity | right; exact Hl].
    + destruct (decide (q = path fe \/ q = (path fe +:+ ".meta")%string)) as [Hq|Hq].
      * rewrite decide_True by (left; exact Hq).
        destruct Hq as [->| ->].
        -- destruct (decide (path fe = (path fe +:+ ".meta")%string)) as [E|E].
           ++ rewrite <- E. apply lookup_delete_eq.
           ++ rewrite lookup_delete_ne by congruence. apply lookup_delete_eq.
        -- apply lookup_delete_eq.
      * rewrite decide_False.
        -- rewrite !lookup_delete_ne by (intros E; apply Hq; auto). reflexivity.
        -- intros H. apply Exists_cons in H as [H|H]; contradiction.
Qed.


Section SizeLimit.
Variable sortSlice : (fileEntry -> fileEntry -> bool) -> list fileEntry -> list fileEntry.
Hypothesis sortSlice_perm : forall l, sortSlice before l ≡ₚ l.

Lemma purgeBySizeLimit_core (fs : World) (maxSize : Z) :
  payloadBytes fs <= maxInt64 ->
  let sorted := sortSlice before (walkEntries fs) in
  exists k, (k <= length sorted)%nat /\
    purgeBySizeLimit sortSlice fs maxSize = withoutPairs (firstn k sorted) fs /\
    dataEntries (withoutPairs (firstn k sorted) fs) ≡ₚ skipn k sorted /\
    (skipn k sorted = [] \/ totalSize (skipn k sorted) <= maxSize) /\
    (forall j, (j < k)%nat -> maxSize < totalSize (skipn j sorted)).
Proof.
  intros Hfit. cbv zeta.
  assert (Hsorted : dataEntries fs ≡ₚ sortSlice before (walkEntries fs)).
  { rewrite sortSlice_perm. symmetry. apply walkEntries_perm. }
  assert (Htotal : totalSize (walkEntries fs) = payloadBytes fs).
  { rewrite payloadBytes_total. apply totalSize_perm, walkEntries_perm. }
  assert (Htotal' : totalSize (sortSlice before (walkEntries fs)) = payloadBytes fs).
  { rewrite <- Htotal. apply totalSize_perm, sortSlice_perm. }
  unfold purgeBySizeLimit.
  rewrite sizeWalk_fold by (fold (walkEntries fs); rewrite ?Htotal; lia).
  fold (walkEntries fs). cbn [app]. rewrite Z.add_0_l, Htotal.
  destruct (payloadBytes fs <=? maxSize) eqn:Elow; cbn [orb].
  { apply Z.leb_le in Elow. exists O. cbn [firstn skipn withoutPairs fold_left].
    split; [lia|]. split; [reflexivity|]. split; [exact Hsorted|].
    split; [right; change (totalSize (sortSlice before (walkEntries fs)) <= maxSize);
            rewrite Htotal'; lia | intros j Hj; lia]. }
  destruct (Nat.eqb (length (walkEntries fs)) 0) eqn:Eempty.
  { apply Nat.eqb_eq in Eempty. apply nil_length_inv in Eempty.
    assert (Hnil : sortSlice before (walkEntries fs) = []).
    { apply Permutation_nil_r. rewrite sortSlice_perm, Eempty. reflexivity. }
    exists O. cbn [firstn skipn withoutPairs fold_left].
    split; [lia|]. split; [reflexivity|]. split; [exact Hsorted|].
    split; [left; exact Hnil | intros j Hj; lia]. }
  destruct (evict_loop maxSize (sortSlice before (walkEntries fs)) fs (payloadBytes fs)
              Hsorted (eq_sym Htotal') Hfit) as (k & Hk & Hev & Hperm & Hstop & Hmin).
  exists k. rewrite Hev. cbn [fst]. auto.
Qed.

(** C5: the size pass lists payload files only, so validator sidecars and
    temporary files are not in the total it compares with the limit; it then
    removes payloads in ascending order of modification time, each with its
    [.meta] sidecar, and stops as soon as the remaining total is at or below
    the limit (or nothing is left): the evicted files are a prefix of the
    sorted list, and before each eviction the total was still above the
    limit. *)
Theorem purgeBySizeLimit_evicts_oldest (fs : World) (maxSize : Z) :
  (forall l, StronglySorted (fun a b => before b a = false) (sortSlice before l)) ->
  payloadBytes fs <= maxInt64 ->
  let files := walkEntries fs in
  let sorted := sortSlice before files in
  let fs' := purgeBySizeLimit sortSlice fs maxSize in
  (forall fe, fe ∈ files <->
     exists f, fs !! path fe = Some f /\ isData (path fe) = true /\
               fe = mkEntry (path fe) (Size f) (mtime f)) /\
  totalSize files = payloadBytes fs /\
  StronglySorted (fun a b => modTime a <= modTime b) sorted /\
  exists k, (k <= length sorted)%nat /\
    fs' = withoutPairs (firstn k sorted) fs /\
    (forall q, fs' !! q =
       if decide (Exists (fun fe => q = path fe \/ q = (path fe +:+ ".meta")%string)
                    (firstn k sorted))
       then None else fs !! q) /\
    payloadBytes fs' = totalSize (skipn k sorted) /\
    (skipn k sorted = [] \/ payloadBytes fs' <= maxSize) /\
    (forall j, (j < k)%nat -> maxSize < totalSize (skipn j sorted)).
Proof.
  intros Hsorted Hfit. cbv zeta.
  split; [|split; [|split]].
  - intros fe. rewrite walkEntries_perm. apply elem_of_dataEntries.
  - rewrite payloadBytes_total. apply totalSize_perm, walkEntries_perm.
  - specialize (Hsorted (walkEntries fs)).
    induction Hsorted as [|a l Hl IH Hall]; constructor; [exact IH|].
    eapply Forall_impl; [exact Hall|]. intros b Hb. unfold before in Hb.
    apply Z.ltb_ge in Hb. exact Hb.
  - destruct (purgeBySizeLimit_core fs maxSize Hfit) as (k & Hk & Hev & Hperm & Hstop & Hmin).
    exists k. rewrite Hev.
    assert (Hbytes : payloadBytes (withoutPairs (firstn k (sortSlice before (walkEntries fs))) fs)
                     = totalSize (skipn k (sortSlice before (walkEntries fs)))).
    { rewrite payloadBytes_total. apply totalSize_perm, Hperm. }
    split; [exact Hk|]. split; [reflexivity|]. split; [apply withoutPairs_lookup|].
    split; [exact Hbytes|]. rewrite Hbytes. auto.
Qed.

End SizeLimit.

(** *** One pass of the janitor *)

Section Pass.
Variable rangeOrder : list (string * string) -> list (string * string).
Variable sortSlice : (fileEntry -> fileEntry -> bool) -> list fileEntry -> list fileEntry.
Hypothesis rangeOrder_perm : forall l, rangeOrder l ≡ₚ l.
Hypothesis sortSlice_perm : forall l, sortSlice before l ≡ₚ l.

Lemma noneOlder_down (cls : string -> bool) (limit : Z) (fs fs' : World) :
  fs' ⊆ fs -> noneOlder cls limit fs -> noneOlder cls limit fs'.
Proof. intros Hsub H p f Hf. apply H. eapply lookup_weaken; eassumption. Qed.

Lemma walk_paths (fs : World) (p : string) :
  p ∈ map fst (WalkDir fs) <-> is_Some (fs !! p).
Proof.
  rewrite list_elem_of_In, in_map_iff. split.
  - intros ([q f] & <- & Hin). exists f. apply elem_of_WalkDir, list_elem_of_In, Hin.
  - intros [f Hf]. exists (p, f). split; [reflexivity|].
    apply list_elem_of_In, elem_of_WalkDir, Hf.
Qed.

(** What a pass establishes among the files it takes for cache files: no
    payload is older than the expiry instant, every [.meta] sidecar has its
    payload, no [.tmp-] file is older than 5 minutes, and with a positive
    [maxSize] the payloads total at most [maxSize] bytes.  The pass only
    removes files. *)
Lemma purgeOnce_establishes (fs : World) (now now' ttl maxSize : Z) :
  payloadBytes fs <= maxInt64 ->
  let fs' := purgeOnce rangeOrder sortSlice fs now now' ttl maxSize in
  fs' ⊆ fs /\
  noneOlder isData (expiry now ttl) fs' /\
  paired fs' /\
  noneOlder isTemp (now' - 5 * GoTime.Minute) fs' /\
  (0 < maxSize -> payloadBytes fs' <= maxSize).
Proof.
  intros Hfit. cbv zeta. unfold purgeOnce. cbv zeta.
  set (c := fold_left collect (WalkDir fs) (mkCollected [] [] ∅)).
  (* what the walk collected *)
  assert (Hdata : forall p, p ∈ dataFiles c <-> is_Some (fs !! p) /\ isData p = true).
  { intros p. unfold c. rewrite collect_data, walk_paths. cbn [dataFiles].
    split; [intros [H|H]; [inversion H | exact H] | auto]. }
  assert (Htemp : forall p, p ∈ tempFiles c <-> is_Some (fs !! p) /\ isTemp p = true).
  { intros p. unfold c. rewrite collect_temp, walk_paths. cbn [tempFiles].
    split; [intros [H|H]; [inversion H | exact H] | auto]. }
  assert (Hinv0 : expireInv (dataFiles c) (fs, metaFiles c)).
  { split; [|split]; cbn [fst snd].
    - intros m Hm Hin. apply collect_meta_complete; [left; apply walk_paths, Hin | exact Hm].
    - intros b m Hl. apply collect_meta_sound in Hl as [Hl|(_ & Hm & Hb)]; [|auto].
      cbn [metaFiles] in Hl. rewrite lookup_empty in Hl. discriminate.
    - intros m _ _ Hd. apply Hdata in Hd as [Hd _]. exact Hd. }
  (* the expiry loop *)
  destruct (expire_loop (expiry now ttl) (dataFiles c) (dataFiles c) (fs, metaFiles c))
    as (Hinv1 & Hsub1 & Hset1); try exact Hinv0; try (intros q Hq; apply Hdata, Hq).
  destruct (fold_left (expireStep (expiry now ttl)) (dataFiles c) (fs, metaFiles c))
    as [fs1 metas1]. cbn [fst snd] in *.
  destruct Hinv1 as (I1 & I2 & I3). cbn [fst snd] in *.
  (* the orphan loop *)
  set (set := (list_to_set (dataFiles c) : gset string)).
  set (ents := rangeOrder (map_to_list metas1)).
  set (fs2 := fold_left (orphanStep set) ents fs1).
  assert (Hents : forall b m, (b, m) ∈ ents <-> metas1 !! b = Some m).
  { intros b m. unfold ents. rewrite rangeOrder_perm. apply elem_of_map_to_list. }
  assert (Hsub2 : fs2 ⊆ fs1)
    by apply (sweep_shrinks (fun fs => fs) (orphanStep set) (orphanStep_shrinks set)).
  assert (Hkeep2 : forall m, isMeta m = true -> is_Some (fs2 !! m) ->
                     TrimSuffix m ".meta" ∈ dataFiles c -> is_Some (fs2 !! TrimSuffix m ".meta")).
  { unfold fs2.
    apply (sweep_invariant (orphanStep set)
             (fun fs => forall m, isMeta m = true -> is_Some (fs !! m) ->
                TrimSuffix m ".meta" ∈ dataFiles c -> is_Some (fs !! TrimSuffix m ".meta")));
      [|exact I3].
    intros s [b mp] Hx Hs m Hm Hin Hd. unfold orphanStep in *.
    destruct (decide (b ∈ set)); [apply Hs; assumption|].
    rewrite RemoveQuietly_delete in *.
    apply present_after_delete in Hin as [Hne Hin].
    rewrite lookup_delete_ne; [apply Hs; assumption|].
    intros Heq. apply Hents, I2 in Hx as [Hmp _].
    apply Hdata in Hd as [_ Hd]. rewrite <- Heq, (isMeta_not_data _ Hmp) in Hd. discriminate. }
  assert (Hgone2 : forall b m, (b, m) ∈ ents -> b ∉ set -> fs2 !! m = None).
  { intros b m Hin.
    pose (Q := fun (e : string * string) (s : World) => fst e ∉ set -> s !! snd e = None).
    assert (Hdown : forall x s s', s' ⊆ s -> Q x s -> Q x s').
    { intros x s s' Hsub Hq Hn. specialize (Hq Hn).
      destruct (s' !! snd x) eqn:E; [|reflexivity].
      eapply lookup_weaken in E; [|exact Hsub]. congruence. }
    assert (Hstep : forall s x, x ∈ ents -> True -> True /\ Q x (orphanStep set s x)).
    { intros s [b' m'] _ _. split; [exact I|]. intros Hn. cbn [fst snd] in *.
      unfold orphanStep. rewrite decide_False by exact Hn.
      rewrite RemoveQuietly_delete. apply lookup_delete_eq. }
    exact (sweep_settles (fun s => s) (orphanStep set) (orphanStep_shrinks set)
             (fun _ => True) Q ents Hdown Hstep fs1 I (b, m) Hin). }
  assert (Hpaired2 : paired fs2).
  { intros m Hm Hin.
    assert (Hin1 : is_Some (fs1 !! m)).
    { destruct Hin as [f Hf]. exists f. eapply lookup_weaken; eassumption. }
    pose proof (I1 m Hm Hin1) as Hl. apply Hents in Hl.
    assert (Hd : TrimSuffix m ".meta" ∈ set).
    { destruct (decide (TrimSuffix m ".meta" ∈ set)) as [H|H]; [exact H|].
      rewrite (Hgone2 _ _ Hl H) in Hin. destruct Hin; discriminate. }
    unfold set in Hd. apply elem_of_list_to_set in Hd.
    split; [apply Hdata, Hd | apply Hkeep2; assumption]. }
  (* the temp-file loop *)
  set (fs3 := fold_left (tempStep (now' - 5 * GoTime.Minute)) (tempFiles c) fs2).
  assert (Hsub3 : fs3 ⊆ fs2)
    by apply (sweep_shrinks (fun fs => fs) (tempStep _) (tempStep_shrinks _)).
  assert (Hpaired3 : paired fs3).
  { unfold fs3. apply (sweep_invariant (tempStep _) paired); [|exact Hpaired2].
    intros s p Hp Hs. apply paired_tempStep; [apply Htemp, Hp | exact Hs]. }
  assert (Hset3 : forall p, p ∈ tempFiles c -> settled (now' - 5 * GoTime.Minute) p fs3).
  { intros p Hp.
    assert (Hstep : forall s x, x ∈ tempFiles c -> True ->
                      True /\ settled (now' - 5 * GoTime.Minute) x
                                (tempStep (now' - 5 * GoTime.Minute) s x)).
    { intros s x _ _. split; [exact I | apply tempStep_settles]. }
    exact (sweep_settles (fun s => s) (tempStep _) (tempStep_shrinks _)
             (fun _ => True) (settled (now' - 5 * GoTime.Minute)) (tempFiles c)
             (settled_down _) Hstep fs2 I p Hp). }
  assert (Hsub03 : fs3 ⊆ fs) by (etrans; [exact Hsub3 | etrans; [exact Hsub2 | exact Hsub1]]).
  assert (Ha3 : noneOlder isData (expiry now ttl) fs3).
  { intros p f Hf Hd.
    assert (Hf1 : fs1 !! p = Some f).
    { eapply lookup_weaken; [exact Hf | etrans; [exact Hsub3 | exact Hsub2]]. }
    apply (Hset1 p); [|exact Hf1]. apply Hdata. split; [|exact Hd].
    exists f. eapply lookup_weaken; eassumption. }
  assert (Hc3 : noneOlder isTemp (now' - 5 * GoTime.Minute) fs3).
  { intros p f Hf Ht. apply (Hset3 p); [|exact Hf]. apply Htemp. split; [|exact Ht].
    exists f. eapply lookup_weaken; eassumption. }
  (* the size pass *)
  destruct (0 <? maxSize) eqn:Emax.
  - assert (Hfit3 : payloadBytes fs3 <= maxInt64).
    { etrans; [apply payloadBytes_mono, Hsub03 | exact Hfit]. }
    destruct (purgeBySizeLimit_core sortSlice sortSlice_perm fs3 maxSize Hfit3)
      as (k & _ & Hev & Hperm & Hstop & _).
    rewrite Hev.
    set (gone := firstn k (sortSlice before (walkEntries fs3))) in *.
    assert (Hsub4 : withoutPairs gone fs3 ⊆ fs3) by apply withoutPairs_shrinks.
    split; [etrans; [exact Hsub4 | exact Hsub03]|].
    split; [eapply noneOlder_down; [exact Hsub4 | exact Ha3]|].
    split; [apply withoutPairs_paired, Hpaired3|].
    split; [eapply noneOlder_down; [exact Hsub4 | exact Hc3]|].
    intros Hpos. rewrite payloadBytes_total, (totalSize_perm _ _ Hperm).
    destruct Hstop as [-> | Hle]; [unfold totalSize; cbn; lia | exact Hle].
  - apply Z.ltb_ge in Emax.
    split; [exact Hsub03|]. split; [exact Ha3|]. split; [exact Hpaired3|].
    split; [exact Hc3 | lia].
Qed.

(** *** What the three sweeps remove, exactly *)

Lemma olderThan_lookup (fs : World) (limit : Z) (p : string) :
  olderThan fs limit p = true <-> exists f, fs !! p = Some f /\ mtime f < limit.
Proof.
  unfold olderThan. destruct (fs !! p) as [f|]; split.
  - intros H. exists f. split; [reflexivity | apply Z.ltb_lt, H].
  - intros (g & Hg & Hlt). injection Hg as <-. apply Z.ltb_lt, Hlt.
  - discriminate.
  - intros (g & Hg & _). discriminate.
Qed.

(** The expiry loop, in terms of the world it started from. *)
Lemma expire_exact (fs : World) (metas0 : gmap string string) (limit : Z) (l : list string) :
  (forall b m, metas0 !! b = Some m -> isMeta m = true) ->
  (forall p, p ∈ l -> isData p = true) ->
  let st' := fold_left (expireStep limit) l (fs, metas0) in
  (forall q, fst st' !! q =
     if existsb (goesWith fs metas0 limit q) l then None else fs !! q) /\
  (forall b, snd st' !! b =
     if existsb (fun b' => olderThan fs limit b' && bool_decide (b = b')) l
     then None else metas0 !! b).
Proof.
  intros Hmeta. induction l as [|p l IH] using rev_ind; intros Hl; cbv zeta.
  - cbn. auto.
  - rewrite fold_left_app. cbn [fold_left].
    destruct IH as [IHf IHm]. { intros q Hq. apply Hl, elem_of_app. left. exact Hq. }
    assert (Hp : isData p = true).
    { apply Hl, elem_of_app. right. apply list_elem_of_singleton. reflexivity. }
    destruct (fold_left (expireStep limit) l (fs, metas0)) as [fsl ml]. cbn [fst snd] in *.
    assert (HG : forall q, existsb (goesWith fs metas0 limit q) (l ++ [p]) =
                           existsb (goesWith fs metas0 limit q) l || goesWith fs metas0 limit q p).
    { intros q. rewrite existsb_app. cbn [existsb]. rewrite orb_false_r. reflexivity. }
    assert (HM : forall b,
               existsb (fun b' => olderThan fs limit b' && bool_decide (b = b')) (l ++ [p]) =
               existsb (fun b' => olderThan fs limit b' && bool_decide (b = b')) l
               || (olderThan fs limit p && bool_decide (b = p))).
    { intros b. rewrite existsb_app. cbn [existsb]. rewrite orb_false_r. reflexivity. }
    (* a payload is gone only by having been visited *)
    assert (Hvisited : existsb (goesWith fs metas0 limit p) l = true ->
                       p ∈ l /\ olderThan fs limit p = true).
    { intros H. apply existsb_exists in H as (b & Hb & Hg). unfold goesWith in Hg.
      apply andb_true_iff in Hg as [Hold Hg]. apply orb_true_iff in Hg as [Hg|Hg].
      - apply bool_decide_eq_true in Hg. subst b. split; [apply list_elem_of_In, Hb | exact Hold].
      - apply bool_decide_eq_true, Hmeta in Hg.
        rewrite (isMeta_not_data _ Hg) in Hp. discriminate. }
    assert (Hsame : fsl = fst (expireStep limit (fsl, ml) p) ->
                    ml = snd (expireStep limit (fsl, ml) p) ->
                    (forall q, goesWith fs metas0 limit q p = true ->
                               existsb (goesWith fs metas0 limit q) l = true) ->
                    (forall q, fst (expireStep limit (fsl, ml) p) !! q =
                       if existsb (goesWith fs metas0 limit q) (l ++ [p]) then None else fs !! q) /\
                    (forall b, snd (expireStep limit (fsl, ml) p) !! b =
                       if existsb (fun b' => olderThan fs limit b' && bool_decide (b = b'))
                            (l ++ [p])
                       then None else metas0 !! b)).
    { intros <- <- Hin. split.
      - intros q. rewrite HG, IHf.
        destruct (existsb (goesWith fs metas0 limit q) l) eqn:E; [reflexivity|].
        destruct (goesWith fs metas0 limit q p) eqn:E'; [|reflexivity].
        rewrite (Hin q E') in E. discriminate.
      - intros b. rewrite HM, IHm.
        destruct (existsb (fun b' => olderThan fs limit b' && bool_decide (b = b')) l) eqn:E;
          [reflexivity|]. cbn [orb].
        destruct (olderThan fs limit p && bool_decide (b = p)) eqn:E'; [|reflexivity].
        apply andb_true_iff in E' as [Hold Hb]. apply bool_decide_eq_true in Hb. subst b.
        specialize (Hin p). unfold goesWith in Hin. rewrite Hold in Hin.
        rewrite bool_decide_eq_true_2 in Hin by reflexivity. specialize (Hin eq_refl).
        apply Hvisited in Hin as [Hin _].
        assert (existsb (fun b' => olderThan fs limit b' && bool_decide (p = b')) l = true).
        { apply existsb_exists. exists p. split; [apply list_elem_of_In, Hin|].
          rewrite Hold. apply bool_decide_eq_true_2. reflexivity. }
        congruence. }
    destruct (olderThan fs limit p) eqn:Eold.
    2:{ (* not expired: the step changes nothing *)
      assert (Hstay : expireStep limit (fsl, ml) p = (fsl, ml)).
      { unfold expireStep, Stat. rewrite IHf.
        destruct (existsb (goesWith fs metas0 limit p) l); [reflexivity|].
        unfold olderThan in Eold. destruct (fs !! p) as [f|]; [|reflexivity].
        rewrite Eold. reflexivity. }
      apply Hsame; rewrite ?Hstay; try reflexivity.
      intros q Hq. unfold goesWith in Hq. rewrite Eold in Hq. discriminate. }
    destruct (existsb (goesWith fs metas0 limit p) l) eqn:EG.
    { (* expired and visited before: it is gone already *)
      assert (Hstay : expireStep limit (fsl, ml) p = (fsl, ml)).
      { unfold expireStep, Stat. rewrite IHf, EG. reflexivity. }
      apply Hsame; rewrite ?Hstay; try reflexivity.
      intros q Hq. destruct (Hvisited eq_refl) as [Hin _].
      apply existsb_exists. exists p. split; [apply list_elem_of_In, Hin | exact Hq]. }
    (* expired, first visit: removed, with its validator *)
    pose proof Eold as Hf. apply olderThan_lookup in Hf as (f & Hf & Hlt).
    assert (Hml : ml !! p = metas0 !! p).
    { rewrite IHm.
      destruct (existsb (fun b' => olderThan fs limit b' && bool_decide (p = b')) l) eqn:E;
        [|reflexivity].
      apply existsb_exists in E as (b & Hb & Hg). apply andb_true_iff in Hg as [Hold Hg].
      apply bool_decide_eq_true in Hg. subst b.
      assert (existsb (goesWith fs metas0 limit p) l = true); [|congruence].
      apply existsb_exists. exists p. split; [exact Hb|]. unfold goesWith.
      rewrite Hold. rewrite bool_decide_eq_true_2 by reflexivity. reflexivity. }
    unfold expireStep, Stat, Remove. rewrite IHf, EG, Hf.
    apply Z.ltb_lt in Hlt. rewrite Hlt, Hml.
    destruct (metas0 !! p) as [mp|] eqn:Emp; cbn [fst snd].
    + rewrite RemoveQuietly_delete. split.
      * intros q. rewrite HG. unfold goesWith at 2. rewrite Eold, Emp. cbn [andb].
        destruct (decide (q = mp)) as [->|Hne].
        { rewrite lookup_delete_eq, (bool_decide_eq_true_2 (Some mp = Some mp)) by reflexivity.
          rewrite !orb_true_r. reflexivity. }
        rewrite lookup_delete_ne by congruence.
        rewrite (bool_decide_eq_false_2 (Some mp = Some q)) by congruence.
        rewrite orb_false_r.
        destruct (decide (q = p)) as [->|Hnp].
        { rewrite lookup_delete_eq, bool_decide_eq_true_2 by reflexivity.
          rewrite orb_true_r. reflexivity. }
        rewrite lookup_delete_ne by congruence.
        rewrite (bool_decide_eq_false_2 (q = p)) by exact Hnp.
        rewrite orb_false_r. apply IHf.
      * intros b. rewrite HM. cbn [andb].
        destruct (decide (b = p)) as [->|Hne].
        { rewrite lookup_delete_eq, bool_decide_eq_true_2 by reflexivity.
          rewrite orb_true_r. reflexivity. }
        rewrite lookup_delete_ne by congruence.
        rewrite (bool_decide_eq_false_2 (b = p)) by exact Hne.
        rewrite orb_false_r. apply IHm.
    + split.
      * intros q. rewrite HG. unfold goesWith at 2. rewrite Eold, Emp. cbn [andb].
        rewrite (bool_decide_eq_false_2 (None = Some q)) by congruence.
        rewrite orb_false_r.
        destruct (decide (q = p)) as [->|Hnp].
        { rewrite lookup_delete_eq, bool_decide_eq_true_2 by reflexivity.
          rewrite orb_true_r. reflexivity. }
        rewrite lookup_delete_ne by congruence.
        rewrite (bool_decide_eq_false_2 (q = p)) by exact Hnp.
        rewrite orb_false_r. apply IHf.
      * intros b. rewrite HM. cbn [andb].
        destruct (decide (b = p)) as [->|Hne].
        { rewrite bool_decide_eq_true_2 by reflexivity.
          rewrite orb_true_r, Hml. reflexivity. }
        rewrite (bool_decide_eq_false_2 (b = p)) by exact Hne.
        rewrite orb_false_r. apply IHm.
Qed.

(** The orphan loop removes the validators listed with a base path that is
    not in the set. *)
Lemma orphan_exact (set : gset string) (l : list (string * string)) :
  forall fs q,
    fold_left (orphanStep set) l fs !! q =
      if existsb (fun e => bool_decide (fst e ∉ set) && bool_decide (snd e = q)) l
      then None else fs !! q.
Proof.
  induction l as [|[b m] l IH]; intros fs q; cbn [fold_left existsb fst snd]; [reflexivity|].
  rewrite IH. unfold orphanStep.
  destruct (existsb _ l); [rewrite orb_true_r; reflexivity|]. rewrite orb_false_r.
  destruct (decide (b ∈ set)) as [Hin|Hout].
  - rewrite (bool_decide_eq_false_2 (b ∉ set)) by tauto. reflexivity.
  - rewrite (bool_decide_eq_true_2 (b ∉ set)) by exact Hout. cbn [andb].
    rewrite RemoveQuietly_delete.
    destruct (decide (m = q)) as [->|Hne].
    + rewrite bool_decide_eq_true_2 by reflexivity. apply lookup_delete_eq.
    + rewrite bool_decide_eq_false_2 by exact Hne. apply lookup_delete_ne. exact Hne.
Qed.

(** The temp-file loop removes the listed files that are older than the
    limit. *)
Lemma temp_exact (limit : Z) (l : list string) :
  forall fs q,
    fold_left (tempStep limit) l fs !! q =
      if bool_decide (q ∈ l) && olderThan fs limit q then None else fs !! q.
Proof.
  induction l as [|p l IH]; intros fs q; cbn [fold_left].
  - rewrite bool_decide_eq_false_2 by (intros H; inversion H). reflexivity.
  - rewrite IH.
    assert (Hstep : tempStep limit fs p = if olderThan fs limit p then delete p fs else fs).
    { unfold tempStep, olderThan, Stat. destruct (fs !! p) as [f|]; [|reflexivity].
      destruct (mtime f <? limit); [apply RemoveQuietly_delete | reflexivity]. }
    rewrite Hstep.
    destruct (decide (q = p)) as [->|Hne].
    + rewrite (bool_decide_eq_true_2 (p ∈ p :: l)) by left. cbn [andb].
      destruct (olderThan fs limit p) eqn:Eold.
      * rewrite lookup_delete_eq. destruct (_ && _); reflexivity.
      * rewrite Eold, andb_false_r. reflexivity.
    + assert (Hb : bool_decide (q ∈ p :: l) = bool_decide (q ∈ l)).
      { apply bool_decide_ext. rewrite elem_of_cons. tauto. }
      rewrite Hb.
      destruct (olderThan fs limit p); [|reflexivity].
      unfold olderThan. rewrite !lookup_delete_ne by congruence. reflexivity.
Qed.

Lemma nested_none {A : Type} (b1 b2 b3 : bool) (x : option A) :
  (if b1 then None else if b2 then None else if b3 then None else x) =
  if b1 || b2 || b3 then None else x.
Proof. destruct b1, b2, b3; reflexivity. Qed.

(** The three sweeps of a pass, put together: what is left of the world is
    what [swept] spares; the size pass, when there is one, starts from
    there. *)
Lemma purgeOnce_sweeps (fs : World) (now now' ttl maxSize : Z) :
  exists fs3 : World,
    (forall p, fs3 !! p = if swept fs now now' ttl p then None else fs !! p) /\
    purgeOnce rangeOrder sortSlice fs now now' ttl maxSize =
      if 0 <? maxSize then purgeBySizeLimit sortSlice fs3 maxSize else fs3.
Proof.
  unfold purgeOnce. cbv zeta.
  set (c := fold_left collect (WalkDir fs) (mkCollected [] [] ∅)).
  set (limit := expiry now ttl). set (limit' := now' - 5 * GoTime.Minute).
  assert (Hdata : forall p, p ∈ dataFiles c <-> is_Some (fs !! p) /\ isData p = true).
  { intros p. unfold c. rewrite collect_data, walk_paths. cbn [dataFiles].
    split; [intros [H|H]; [inversion H | exact H] | auto]. }
  assert (Htemp : forall p, p ∈ tempFiles c <-> is_Some (fs !! p) /\ isTemp p = true).
  { intros p. unfold c. rewrite collect_temp, walk_paths. cbn [tempFiles].
    split; [intros [H|H]; [inversion H | exact H] | auto]. }
  assert (Hsound : forall b m, metaFiles c !! b = Some m ->
                     is_Some (fs !! m) /\ isMeta m = true /\ b = TrimSuffix m ".meta").
  { intros b m Hl. apply collect_meta_sound in Hl as [Hl|(Hin & Hm & Hb)].
    - cbn [metaFiles] in Hl. rewrite lookup_empty in Hl. discriminate.
    - split; [apply walk_paths, Hin | auto]. }
  assert (Hcomplete : forall m, is_Some (fs !! m) -> isMeta m = true ->
                        metaFiles c !! TrimSuffix m ".meta" = Some m).
  { intros m Hin Hm. apply collect_meta_complete; [left; apply walk_paths, Hin | exact Hm]. }
  destruct (expire_exact fs (metaFiles c) limit (dataFiles c)) as [Hf1 Hm1].
  { intros b m Hl. apply Hsound in Hl. tauto. }
  { intros p Hp. apply Hdata, Hp. }
  destruct (fold_left (expireStep limit) (dataFiles c) (fs, metaFiles c)) as [fs1 metas1].
  cbn [fst snd] in Hf1, Hm1.
  set (set := list_to_set (dataFiles c) : gset string).
  set (ents := rangeOrder (map_to_list metas1)).
  exists (fold_left (tempStep limit') (tempFiles c) (fold_left (orphanStep set) ents fs1)).
  split; [|reflexivity].
  (* the three tests, read back *)
  assert (HA : forall q, existsb (goesWith fs (metaFiles c) limit q) (dataFiles c) = true <->
     (isData q = true /\ olderThan fs limit q = true) \/
     (isMeta q = true /\ is_Some (fs !! q) /\ isData (TrimSuffix q ".meta") = true /\
      olderThan fs limit (TrimSuffix q ".meta") = true)).
  { intros q. rewrite existsb_exists. split.
    - intros (b & Hb & Hg). apply list_elem_of_In, Hdata in Hb as [Hb Hd].
      unfold goesWith in Hg. apply andb_true_iff in Hg as [Hold Hg].
      apply orb_true_iff in Hg as [Hg|Hg]; apply bool_decide_eq_true in Hg.
      + subst q. left. auto.
      + apply Hsound in Hg as (Hin & Hm & ->). right. auto.
    - intros [[Hd Hold]|(Hm & Hin & Hd & Hold)].
      + exists q. split.
        * apply list_elem_of_In, Hdata. split; [|exact Hd].
          apply olderThan_lookup in Hold as (f & Hf & _). eauto.
        * unfold goesWith. rewrite Hold, bool_decide_eq_true_2 by reflexivity. reflexivity.
      + exists (TrimSuffix q ".meta"). split.
        * apply list_elem_of_In, Hdata. split; [|exact Hd].
          apply olderThan_lookup in Hold as (f & Hf & _). eauto.
        * unfold goesWith. rewrite Hold, (bool_decide_eq_true_2 (_ !! _ = _)) by auto.
          apply orb_true_r. }
  assert (HM : forall b,
     existsb (fun b' => olderThan fs limit b' && bool_decide (b = b')) (dataFiles c) = true <->
     isData b = true /\ olderThan fs limit b = true).
  { intros b. rewrite existsb_exists. split.
    - intros (b' & Hb & Hg). apply andb_true_iff in Hg as [Hold Hg].
      apply bool_decide_eq_true in Hg. subst b'.
      apply list_elem_of_In, Hdata in Hb as [_ Hd]. auto.
    - intros [Hd Hold]. exists b. split.
      + apply list_elem_of_In, Hdata. split; [|exact Hd].
        apply olderThan_lookup in Hold as (f & Hf & _). eauto.
      + rewrite Hold, bool_decide_eq_true_2 by reflexivity. reflexivity. }
  assert (HB : forall q,
     existsb (fun e => bool_decide (fst e ∉ set) && bool_decide (snd e = q)) ents = true <->
     exists b, metas1 !! b = Some q /\ b ∉ dataFiles c).
  { intros q. rewrite existsb_exists. split.
    - intros ([b m] & Hin & Hg). cbn [fst snd] in Hg.
      apply andb_true_iff in Hg as [Hout Hq].
      apply bool_decide_eq_true in Hout, Hq. subst m. exists b. split.
      + apply list_elem_of_In in Hin. unfold ents in Hin. rewrite rangeOrder_perm in Hin.
        apply elem_of_map_to_list in Hin. exact Hin.
      + intros H. apply Hout. unfold set. apply elem_of_list_to_set. exact H.
    - intros (b & Hl & Hout). exists (b, q). split.
      + apply list_elem_of_In. unfold ents. rewrite rangeOrder_perm.
        apply elem_of_map_to_list. exact Hl.
      + cbn [fst snd]. rewrite (bool_decide_eq_true_2 (q = q)) by reflexivity.
        rewrite bool_decide_eq_true_2; [reflexivity|].
        intros H. apply Hout. unfold set in H. apply elem_of_list_to_set in H. exact H. }
  assert (Hmeta1 : forall b q, metas1 !! b = Some q ->
            isMeta q = true /\ is_Some (fs !! q) /\ b = TrimSuffix q ".meta" /\
            ~ (isData b = true /\ olderThan fs limit b = true)).
  { intros b q Hl. rewrite Hm1 in Hl.
    destruct (existsb (fun b' => olderThan fs limit b' && bool_decide (b = b')) (dataFiles c))
      eqn:E; [discriminate|].
    apply Hsound in Hl as (Hin & Hm & Hb). repeat split; auto.
    intros H. apply HM in H. congruence. }
  intros p. rewrite temp_exact.
  assert (H2 : forall q, fold_left (orphanStep set) ents fs1 !! q =
            if existsb (fun e => bool_decide (fst e ∉ set) && bool_decide (snd e = q)) ents
               || existsb (goesWith fs (metaFiles c) limit q) (dataFiles c)
            then None else fs !! q).
  { intros q. rewrite orphan_exact, Hf1. destruct (existsb _ ents), (existsb _ (dataFiles c));
      reflexivity. }
  rewrite H2. unfold olderThan at 1. rewrite H2.
  unfold swept. fold limit limit'.
  destruct (isData p) eqn:Ed.
  { (* a payload *)
    assert (EB : existsb (fun e => bool_decide (fst e ∉ set) && bool_decide (snd e = p)) ents
                 = false).
    { apply not_true_is_false. intros H. apply HB in H as (b & Hl & _).
      apply Hmeta1 in Hl as (Hm & _). rewrite (isMeta_not_data _ Hm) in Ed. discriminate. }
    assert (EC : bool_decide (p ∈ tempFiles c) = false).
    { apply bool_decide_eq_false_2. intros H. apply Htemp in H as [_ H].
      rewrite (isTemp_not_data _ H) in Ed. discriminate. }
    rewrite EB, EC. cbn [orb andb].
    assert (EA : existsb (goesWith fs (metaFiles c) limit p) (dataFiles c)
                 = olderThan fs limit p).
    { apply Bool.eq_iff_eq_true. rewrite HA. split; [intros [[_ H]|(Hm & _)]; [exact H|] | auto].
      rewrite (isMeta_not_data _ Hm) in Ed. discriminate. }
    rewrite EA. reflexivity. }
  destruct (isMeta p) eqn:Em.
  { (* a validator *)
    assert (EC : bool_decide (p ∈ tempFiles c) = false).
    { apply bool_decide_eq_false_2. intros H. apply Htemp in H as [_ H].
      rewrite (isMeta_not_temp _ Em) in H. discriminate. }
    rewrite EC. cbn [andb].
    destruct (fs !! p) as [f|] eqn:Ep; [|destruct (_ || _), (_ || _); reflexivity].
    assert (Hrec : metaFiles c !! TrimSuffix p ".meta" = Some p) by (apply Hcomplete; eauto).
    match goal with |- (if ?X then _ else _) = (if ?Y then _ else _) =>
      assert (E : X = Y); [|rewrite E; reflexivity] end.
    apply Bool.eq_iff_eq_true. rewrite orb_true_iff, HB, HA, orb_true_iff, negb_true_iff.
    split.
    - intros [(b & Hl & Hout)|[[Hd _]|(_ & _ & Hd & Hold)]].
      + apply Hmeta1 in Hl as (_ & _ & -> & _).
        destruct (isData (TrimSuffix p ".meta")) eqn:Edb; [right | left; reflexivity].
        destruct (fs !! (TrimSuffix p ".meta")) as [g|] eqn:Eb; [|reflexivity].
        exfalso. apply Hout, Hdata. eauto.
      + congruence.
      + right. apply olderThan_lookup in Hold as (g & Hg & Hlt). rewrite Hg.
        apply Z.ltb_lt, Hlt.
    - intros Hsw.
      destruct (isData (TrimSuffix p ".meta")) eqn:Edb.
      + destruct Hsw as [Hsw|Hsw]; [discriminate|].
        destruct (fs !! (TrimSuffix p ".meta")) as [g|] eqn:Eb.
        * right. right. repeat split; eauto. unfold olderThan. rewrite Eb. exact Hsw.
        * left. exists (TrimSuffix p ".meta"). split.
          -- rewrite Hm1.
             destruct (existsb (fun b' => olderThan fs limit b'
                                         && bool_decide (TrimSuffix p ".meta" = b'))
                         (dataFiles c)) eqn:E; [|exact Hrec].
             apply HM in E as [_ E]. unfold olderThan in E. rewrite Eb in E. discriminate.
          -- intros H. apply Hdata in H as [[g Hg] _]. congruence.
      + left. exists (TrimSuffix p ".meta"). split.
        * rewrite Hm1.
          destruct (existsb (fun b' => olderThan fs limit b'
                                      && bool_decide (TrimSuffix p ".meta" = b'))
                      (dataFiles c)) eqn:E; [|exact Hrec].
          apply HM in E as [E _]. congruence.
        * intros H. apply Hdata in H as [_ H]. congruence. }
  (* neither: only the temp-file loop can touch it *)
  assert (EB : existsb (fun e => bool_decide (fst e ∉ set) && bool_decide (snd e = p)) ents
               = false).
  { apply not_true_is_false. intros H. apply HB in H as (b & Hl & _).
    apply Hmeta1 in Hl as (Hm & _). congruence. }
  assert (EA : existsb (goesWith fs (metaFiles c) limit p) (dataFiles c) = false).
  { apply not_true_is_false. intros H. apply HA in H as [[H _]|[H _]]; congruence. }
  rewrite EB, EA. cbn [orb]. fold (olderThan fs limit' p).
  destruct (isTemp p) eqn:Et.
  - destruct (olderThan fs limit' p) eqn:Eold; [|rewrite andb_false_r; reflexivity].
    rewrite bool_decide_eq_true_2; [reflexivity|].
    apply Htemp. split; [|exact Et]. apply olderThan_lookup in Eold as (f & Hf & _). eauto.
  - rewrite bool_decide_eq_false_2; [reflexivity|].
    intros H. apply Htemp in H as [_ H]. congruence.
Qed.

Lemma clean_sweeps (fs fs3 : World) (now now' ttl : Z) :
  clean fs now now' ttl ->
  (forall p, fs3 !! p = if swept fs now now' ttl p then None else fs !! p) ->
  fs3 = fs.
Proof.
  intros Hc H. apply map_eq. intros p. rewrite H.
  destruct (fs !! p) as [f|] eqn:E.
  - rewrite (Hc p); [reflexivity | rewrite E; eauto].
  - destruct (swept fs now now' ttl p); reflexivity.
Qed.

(** What the sweeps leave behind has nothing left to sweep. *)
Lemma sweeps_clean (fs fs3 : World) (now now' ttl : Z) :
  (forall p, fs3 !! p = if swept fs now now' ttl p then None else fs !! p) ->
  clean fs3 now now' ttl.
Proof.
  intros H p [f Hf].
  assert (Hkeep : forall q g, fs3 !! q = Some g ->
                    swept fs now now' ttl q = false /\ fs !! q = Some g).
  { intros q g Hq. rewrite H in Hq.
    destruct (swept fs now now' ttl q); [discriminate | auto]. }
  destruct (Hkeep p f Hf) as [Hsw Hp]. unfold swept, olderThan in *.
  destruct (isData p).
  { rewrite Hf. rewrite Hp in Hsw. exact Hsw. }
  destruct (isMeta p).
  { apply orb_false_iff in Hsw as [Hd Hb]. rewrite Hd. cbn [orb].
    destruct (fs !! TrimSuffix p ".meta") as [g|] eqn:Eb; [|discriminate].
    rewrite H. apply negb_false_iff in Hd. rewrite Hd, Eb, Hb. exact Hb. }
  destruct (isTemp p); [|reflexivity].
  rewrite Hf. rewrite Hp in Hsw. exact Hsw.
Qed.

(** Evicting payloads with their sidecars keeps a clean cache clean. *)
Lemma withoutPairs_clean (evicted : list fileEntry) (fs : World) (now now' ttl : Z) :
  clean fs now now' ttl -> clean (withoutPairs evicted fs) now now' ttl.
Proof.
  intros Hc p [f Hf].
  assert (Hp : fs !! p = Some f).
  { eapply lookup_weaken; [exact Hf | apply withoutPairs_shrinks]. }
  pose proof (Hc p ltac:(eauto)) as Hsw. unfold swept, olderThan in *.
  destruct (isData p).
  { rewrite Hf. rewrite Hp in Hsw. exact Hsw. }
  destruct (isMeta p) eqn:Em.
  { apply orb_false_iff in Hsw as [Hd Hb]. rewrite Hd. cbn [orb].
    destruct (fs !! TrimSuffix p ".meta") as [g|] eqn:Eb; [|discriminate].
    apply negb_false_iff in Hd.
    rewrite withoutPairs_lookup.
    destruct (decide (Exists _ evicted)) as [Hex|_]; [exfalso | rewrite Eb; exact Hb].
    apply Exists_exists in Hex as (fe & Hfe & [Hq|Hq]).
    - rewrite withoutPairs_lookup, decide_True in Hf; [discriminate|].
      apply Exists_exists. exists fe. split; [exact Hfe|]. right.
      rewrite <- Hq. symmetry. apply isMeta_paired, Em.
    - rewrite Hq, sidecar_not_data in Hd. discriminate. }
  destruct (isTemp p); [|reflexivity].
  rewrite Hf. rewrite Hp in Hsw. exact Hsw.
Qed.

(** Under the limit, or with no payload at all, the size pass removes
    nothing. *)
Lemma purgeBySizeLimit_under (fs : World) (maxSize : Z) :
  payloadBytes fs <= maxInt64 ->
  payloadBytes fs <= maxSize \/ dataEntries fs = [] ->
  purgeBySizeLimit sortSlice fs maxSize = fs.
Proof.
  intros Hfit Hlow.
  assert (Htotal : totalSize (walkEntries fs) = payloadBytes fs).
  { rewrite payloadBytes_total. apply totalSize_perm, walkEntries_perm. }
  unfold purgeBySizeLimit.
  rewrite sizeWalk_fold by (fold (walkEntries fs); rewrite ?Htotal; lia).
  fold (walkEntries fs). cbn [app]. rewrite Z.add_0_l, Htotal.
  destruct Hlow as [Hlow|Hnone].
  - apply Z.leb_le in Hlow. rewrite Hlow. reflexivity.
  - assert (Hnil : walkEntries fs = []).
    { apply Permutation_nil_r. rewrite <- Hnone. apply walkEntries_perm. }
    rewrite Hnil. cbn [length Nat.eqb]. rewrite orb_true_r. reflexivity.
Qed.

(** The size pass removes payload files and the files named after them with
    [.meta] appended, nothing else; this does not depend on the total. *)
Lemma sizeWalk_files (l : list (string * File)) :
  forall acc,
    fst (fold_left sizeWalk l acc) =
      (fst acc ++ map toEntry (List.filter (fun e => isData (fst e)) l))%list.
Proof.
  induction l as [|e l IH]; intros acc; cbn [fold_left List.filter map].
  - rewrite app_nil_r. reflexivity.
  - rewrite IH, sizeWalk_class.
    destruct (isData (fst e)); cbn [fst map]; [|reflexivity].
    rewrite <- app_assoc. reflexivity.
Qed.

Lemma evict_spares (maxSize : Z) (q : string) (l : list fileEntry) :
  (forall fe, fe ∈ l -> q <> path fe /\ q <> (path fe +:+ ".meta")%string) ->
  forall st, fst (evict maxSize l st) !! q = fst st !! q.
Proof.
  induction l as [|fe l IH]; intros Hq st; [reflexivity|].
  rewrite evict_cons.
  destruct (Hq fe ltac:(left)) as [H1 H2].
  assert (IH' : forall st', fst (evict maxSize l st') !! q = fst st' !! q).
  { apply IH. intros fe' Hin. apply Hq. right. exact Hin. }
  destruct st as [fs total]. unfold evictStep, Remove, Stat.
  destruct (total <=? maxSize); [reflexivity|].
  destruct (fs !! path fe) as [f|]; [|apply IH'].
  destruct (delete (path fe) fs !! (path fe +:+ ".meta")%string).
  - rewrite IH'. cbn [fst]. rewrite RemoveQuietly_delete.
    rewrite !lookup_delete_ne by congruence. reflexivity.
  - rewrite IH'. cbn [fst]. rewrite lookup_delete_ne by congruence. reflexivity.
Qed.

Lemma purgeBySizeLimit_spares (fs : World) (maxSize : Z) (q : string) :
  (forall p, isData p = true -> q <> p /\ q <> (p +:+ ".meta")%string) ->
  purgeBySizeLimit sortSlice fs maxSize !! q = fs !! q.
Proof.
  intros Hq. unfold purgeBySizeLimit.
  pose proof (sizeWalk_files (WalkDir fs) ([], 0)) as Hfiles.
  destruct (fold_left sizeWalk (WalkDir fs) ([], 0)) as [files total].
  cbn [fst app] in Hfiles.
  destruct ((total <=? maxSize) || Nat.eqb (length files) 0); [reflexivity|].
  rewrite evict_spares; [reflexivity|].
  intros fe Hfe. apply Hq. rewrite sortSlice_perm, Hfiles in Hfe.
  apply list_elem_of_fmap in Hfe as (e & -> & He).
  apply list_elem_of_In, filter_In in He as [_ He]. exact He.
Qed.

Lemma isCacheFile_append (p s : string) :
  isCacheFile p = true -> isCacheFile (p +:+ s)%string = true.
Proof.
  unfold isCacheFile. rewrite !orb_true_iff.
  intros [[H|H]|H]; [left; left | left; right | right]; apply Contains_append, H.
Qed.

Lemma not_cache_no_class (p : string) :
  isCacheFile p = false -> isData p = false /\ isMeta p = false /\ isTemp p = false.
Proof. unfold isData, isMeta, isTemp. intros ->. auto. Qed.


(** X6: a pass never touches a file outside the cache directories, with or
    without a size limit: a path that does not contain [/orig/], [/resized/]
    or [/fallback/] holds after the pass what it held before. *)
Theorem purgeOnce_spares_other_files (fs : World) (now now' ttl maxSize : Z) (p : string) :
  isCacheFile p = false ->
  purgeOnce rangeOrder sortSlice fs now now' ttl maxSize !! p = fs !! p.
Proof.
  intros Hp.
  destruct (purgeOnce_sweeps fs now now' ttl maxSize) as (fs3 & H3 & ->).
  assert (H : fs3 !! p = fs !! p).
  { rewrite H3. unfold swept.
    destruct (not_cache_no_class p Hp) as (-> & -> & ->). reflexivity. }
  destruct (0 <? maxSize); [|exact H].
  rewrite purgeBySizeLimit_spares; [exact H|].
  intros d Hd.
  assert (Hc : isCacheFile d = true).
  { unfold isData in Hd. apply andb_true_iff in Hd as [Hd _].
    apply andb_true_iff in Hd as [Hd _]. exact Hd. }
  split; intros ->; [|rewrite isCacheFile_append in Hp by exact Hc]; congruence.
Qed.

(** X7: a cache in which no payload is expired, every validator has its
    unexpired payload and no temporary file is older than five minutes is
    left exactly as it is by a pass, provided there is no size limit or the
    payload bytes are within it. *)
Theorem purgeOnce_clean_cache_fixed (fs : World) (now now' ttl maxSize : Z) :
  clean fs now now' ttl ->
  maxSize <= 0 \/ payloadBytes fs <= maxSize <= maxInt64 ->
  purgeOnce rangeOrder sortSlice fs now now' ttl maxSize = fs.
Proof.
  intros Hclean Hsize.
  destruct (purgeOnce_sweeps fs now now' ttl maxSize) as (fs3 & H3 & ->).
  rewrite (clean_sweeps fs fs3 now now' ttl Hclean H3).
  destruct (0 <? maxSize) eqn:E; [|reflexivity].
  apply Z.ltb_lt in E. destruct Hsize as [Hsize|Hsize]; [lia|].
  apply purgeBySizeLimit_under; [lia | left; lia].
Qed.

(** X8: a pass is idempotent.  Running the janitor again on what a pass has
    left, with the same clock readings, TTL and size limit, removes nothing
    more. *)
Theorem purgeOnce_idempotent (fs : World) (now now' ttl maxSize : Z) :
  payloadBytes fs <= maxInt64 ->
  let fs' := purgeOnce rangeOrder sortSlice fs now now' ttl maxSize in
  purgeOnce rangeOrder sortSlice fs' now now' ttl maxSize = fs'.
Proof.
  intros Hfit. cbv zeta.
  destruct (purgeOnce_sweeps fs now now' ttl maxSize) as (fs3 & H3 & ->).
  pose proof (sweeps_clean fs fs3 now now' ttl H3) as Hclean3.
  assert (Hsub3 : fs3 ⊆ fs).
  { apply map_subseteq_spec. intros p f Hp. rewrite H3 in Hp.
    destruct (swept fs now now' ttl p); [discriminate | exact Hp]. }
  assert (Hfit3 : payloadBytes fs3 <= maxInt64).
  { pose proof (payloadBytes_mono fs fs3 Hsub3). lia. }
  destruct (0 <? maxSize) eqn:E.
  - destruct (purgeBySizeLimit_core sortSlice sortSlice_perm fs3 maxSize Hfit3)
      as (k & _ & -> & Hperm & Hstop & _).
    set (fs' := withoutPairs _ fs3) in *.
    assert (Hclean' : clean fs' now now' ttl) by apply withoutPairs_clean, Hclean3.
    destruct (purgeOnce_sweeps fs' now now' ttl maxSize) as (fs3' & H3' & ->).
    rewrite (clean_sweeps fs' fs3' now now' ttl Hclean' H3'), E.
    apply purgeBySizeLimit_under.
    + pose proof (payloadBytes_mono fs3 fs' (withoutPairs_shrinks _ fs3)). lia.
    + destruct Hstop as [Hnil|Hlow].
      * right. apply Permutation_nil_r. rewrite <- Hnil. exact Hperm.
      * left. rewrite payloadBytes_total, (totalSize_perm _ _ Hperm). exact Hlow.
  - destruct (purgeOnce_sweeps fs3 now now' ttl maxSize) as (fs3' & H3' & ->).
    rewrite E. apply (clean_sweeps fs3 fs3' now now' ttl Hclean3 H3').
Qed.

(** *** The janitor and the readers of the cache *)

(** With the TTL of the cache, the expiry sweep removes a payload exactly
    when a read at the same instant finds it too old. *)
Lemma kept_iff_fresh (fs : World) (now now' ttl maxSize : Z) (p : string) :
  maxSize <= 0 -> isData p = true ->
  GoTime.minDuration < ttl <= GoTime.maxDuration ->
  (forall f, fs !! p = Some f ->
     GoTime.minDuration <= now - mtime f <= GoTime.maxDuration) ->
  purgeOnce rangeOrder sortSlice fs now now' ttl maxSize !! p =
    match fs !! p with
    | Some f => if ttl <? GoTime.Since now (mtime f) then None else Some f
    | None => None
    end.
Proof.
  intros Hmax Hd Httl Hfit.
  destruct (purgeOnce_sweeps fs now now' ttl maxSize) as (fs3 & H3 & ->).
  assert (E : (0 <? maxSize) = false) by (apply Z.ltb_ge; exact Hmax). rewrite E.
  rewrite H3. unfold swept, olderThan. rewrite Hd, (expiry_plain now ttl Httl).
  destruct (fs !! p) as [f|] eqn:Ef; [|reflexivity].
  specialize (Hfit f eq_refl).
  assert (ES : GoTime.Since now (mtime f) = now - mtime f).
  { unfold GoTime.Since, GoTime.Sub.
    destruct (GoTime.maxDuration <? now - mtime f) eqn:E1; [apply Z.ltb_lt in E1; lia|].
    destruct (now - mtime f <? GoTime.minDuration) eqn:E2; [apply Z.ltb_lt in E2; lia|].
    reflexivity. }
  rewrite ES.
  destruct (mtime f <? now - ttl) eqn:E1, (ttl <? now - mtime f) eqn:E2; try reflexivity.
  - apply Z.ltb_lt in E1. apply Z.ltb_ge in E2. lia.
  - apply Z.ltb_ge in E1. apply Z.ltb_lt in E2. lia.
Qed.

End Pass.


(** *** The files the cache writes, as the janitor sees them *)

Lemma stripSlashes_plain (h : string) : IndexByte h "/" = None -> stripSlashes h = h.
Proof.
  induction h as [|c h IH]; intros H; [reflexivity|].
  cbn [IndexByte] in H. cbn [stripSlashes].
  destruct (Ascii.eqb c "/"); [discriminate|].
  destruct (IndexByte h "/"); [discriminate|]. rewrite IH; reflexivity.
Qed.

Lemma stripSlashes_append (a h : string) :
  stripSlashes h = h -> h <> ""%string -> stripSlashes (a +:+ h)%string = (a +:+ h)%string.
Proof.
  intros Hh Hne. induction a as [|c a IH]; [exact Hh|].
  rewrite append_cons. cbn [stripSlashes]. rewrite IH.
  assert (E : String.eqb (a +:+ h) "" = false).
  { apply String.eqb_neq. intros E. apply (f_equal String.length) in E.
    rewrite length_append in E. destruct h; [contradiction | cbn in E; lia]. }
  rewrite E, andb_false_r. reflexivity.
Qed.

Lemma slash_not_empty (a h : string) : String.eqb (a +:+ "/" +:+ h) "" = false.
Proof.
  apply String.eqb_neq. intros E. apply (f_equal String.length) in E.
  rewrite !length_append in E. cbn in E. lia.
Qed.

(** The last element and the directory of [a/h]. *)
Lemma Base_slash (a h : string) :
  IndexByte h "/" = None -> h <> ""%string -> Base (a +:+ "/" +:+ h) = h.
Proof.
  intros Hh Hne. unfold Base. rewrite slash_not_empty.
  assert (Hstrip : stripSlashes (a +:+ "/" +:+ h) = (a +:+ "/" +:+ h)%string).
  { rewrite <- append_assoc.
    apply stripSlashes_append; [apply stripSlashes_plain, Hh | exact Hne]. }
  rewrite Hstrip, slash_not_empty.
  change (a +:+ "/" +:+ h)%string with (a +:+ String "/" h)%string.
  rewrite (LastIndexByte_join a h "/" Hh).
  replace (S (String.length a)) with (String.length a + 1)%nat by lia.
  rewrite drop_plus. reflexivity.
Qed.

Lemma Dir_slash (a h : string) :
  IndexByte h "/" = None -> stripSlashes a = a -> a <> ""%string ->
  Dir (a +:+ "/" +:+ h) = a.
Proof.
  intros Hh Ha Hne. unfold Dir.
  change (a +:+ "/" +:+ h)%string with (a +:+ String "/" h)%string.
  rewrite (LastIndexByte_join a h "/" Hh), take_append, Ha.
  destruct a; [contradiction | reflexivity].
Qed.

Lemma prefix_head (c d : ascii) (w h : string) :
  c <> d -> String.prefix (String c w) (String d h) = false.
Proof. intros H. cbn [String.prefix]. destruct (ascii_dec c d); [contradiction | reflexivity]. Qed.

Lemma prefix_bytes (w s : string) (c : ascii) :
  String.prefix w s = true -> In c (String.list_ascii_of_string w) ->
  In c (String.list_ascii_of_string s).
Proof.
  revert s. induction w as [|d w IH]; intros s H Hin; [destruct Hin|].
  destruct s as [|e s]; [discriminate H|].
  cbn [String.prefix] in H. destruct (ascii_dec d e) as [<-|]; [|discriminate H].
  destruct Hin as [<-|Hin]; [left; reflexivity | right; apply (IH s H Hin)].
Qed.

(** A string without the byte [c] holds no substring that starts with it. *)
Lemma Contains_absent (s w : string) (c : ascii) :
  IndexByte s c = None -> Contains s (String c w) = false.
Proof.
  induction s as [|d s IH]; intros H; [reflexivity|].
  cbn [IndexByte] in H. destruct (Ascii.eqb d c) eqn:E; [discriminate|].
  destruct (IndexByte s c) eqn:Es; [discriminate|].
  cbn [Contains]. rewrite IH by reflexivity.
  rewrite prefix_head; [reflexivity|]. apply Ascii.eqb_neq in E. congruence.
Qed.

(** A path with a single separator holds no substring with two. *)
Lemma Contains_one_slash (a name w : string) :
  IndexByte a "/" = None -> IndexByte name "/" = None ->
  In "/"%char (String.list_ascii_of_string w) ->
  Contains (a +:+ "/" +:+ name) (String "/" w) = false.
Proof.
  intros Ha Hn Hw. induction a as [|c a IH].
  - change ("" +:+ "/" +:+ name)%string with (String "/" name). cbn [Contains].
    rewrite (Contains_absent name w "/" Hn), orb_false_r.
    destruct (String.prefix (String "/" w) (String "/" name)) eqn:E; [|reflexivity].
    exfalso. apply prefix_cons in E as [_ E].
    apply (IndexByte_none name "/" "/" Hn); [|reflexivity].
    apply (prefix_bytes w name "/" E Hw).
  - cbn [IndexByte] in Ha. destruct (Ascii.eqb c "/") eqn:E; [discriminate|].
    destruct (IndexByte a "/") eqn:Ea; [discriminate|].
    rewrite append_cons. cbn [Contains]. rewrite IH by reflexivity.
    rewrite prefix_head; [reflexivity|]. apply Ascii.eqb_neq in E. congruence.
Qed.

Lemma HasSuffix_append_r (a s t : string) :
  (String.length t <= String.length s)%nat -> HasSuffix (a +:+ s) t = HasSuffix s t.
Proof.
  intros H. unfold HasSuffix. rewrite length_append.
  replace (String.length a + String.length s - String.length t)%nat
    with (String.length a + (String.length s - String.length t))%nat by lia.
  rewrite drop_plus.
  replace (String.length t <=? String.length a + String.length s)%nat with true
    by (symmetry; apply Nat.leb_le; lia).
  replace (String.length t <=? String.length s)%nat with true
    by (symmetry; apply Nat.leb_le; lia).
  reflexivity.
Qed.

Lemma orig_dir_plain (m : Cache.Manager) :
  stripSlashes (Cache.OrigCacheDir m) = Cache.OrigCacheDir m /\
  Cache.OrigCacheDir m <> ""%string /\
  HasSuffix (Cache.OrigCacheDir m) "/" = false.
Proof.
  rewrite OrigCacheDir_form. unfold inDir.
  destruct (String.eqb (Clean (Cache.CacheDir m)) ".");
    [|destruct (String.eqb (Clean (Cache.CacheDir m)) "/")].
  - repeat split. discriminate.
  - repeat split. discriminate.
  - rewrite <- append_assoc. split; [|split].
    + apply stripSlashes_append; [reflexivity | discriminate].
    + intros E. apply (f_equal String.length) in E. rewrite length_append in E.
      cbn in E. lia.
    + rewrite HasSuffix_append_r by (cbn; lia). reflexivity.
Qed.

(** Whether the janitor takes a file in the directory of the originals for a
    cache file hangs on the cache root: every such file is one unless the
    root cleans to [.], and then none is. *)
Lemma in_orig_dir (m : Cache.Manager) (name : string) :
  Clean (Cache.CacheDir m) <> "."%string ->
  isCacheFile (Cache.OrigCacheDir m +:+ "/" +:+ name) = true.
Proof.
  intros Hc. apply String.eqb_neq in Hc.
  unfold isCacheFile. rewrite OrigCacheDir_form. unfold inDir. rewrite Hc.
  destruct (String.eqb (Clean (Cache.CacheDir m)) "/").
  - change (("/" +:+ "orig") +:+ "/" +:+ name)%string with ("" +:+ "/orig/" +:+ name)%string.
    rewrite Contains_middle. reflexivity.
  - rewrite append_assoc.
    change (("/" +:+ "orig") +:+ "/" +:+ name)%string with ("/orig/" +:+ name)%string.
    rewrite Contains_middle. reflexivity.
Qed.

Lemma off_orig_dir (m : Cache.Manager) (name : string) :
  Clean (Cache.CacheDir m) = "."%string -> IndexByte name "/" = None ->
  isCacheFile (Cache.OrigCacheDir m +:+ "/" +:+ name) = false.
Proof.
  intros Hc Hn. unfold isCacheFile. rewrite OrigCacheDir_form, Hc. unfold inDir.
  cbn [String.eqb Ascii.eqb Bool.eqb andb].
  rewrite !Contains_one_slash; try reflexivity; try exact Hn; cbn; tauto.
Qed.

Lemma in_resized_dir (m : Cache.Manager) (name : string) :
  Clean (Cache.CacheDir m) <> "."%string ->
  isCacheFile (Cache.ResizedCacheDir m +:+ "/" +:+ name) = true.
Proof.
  intros Hc. apply String.eqb_neq in Hc.
  unfold isCacheFile. rewrite ResizedCacheDir_form. unfold inDir. rewrite Hc.
  destruct (String.eqb (Clean (Cache.CacheDir m)) "/").
  - change (("/" +:+ "resized") +:+ "/" +:+ name)%string
      with ("" +:+ "/resized/" +:+ name)%string.
    rewrite Contains_middle, orb_true_r. reflexivity.
  - rewrite append_assoc.
    change (("/" +:+ "resized") +:+ "/" +:+ name)%string with ("/resized/" +:+ name)%string.
    rewrite Contains_middle, orb_true_r. reflexivity.
Qed.

Lemma drop_append_l (n : nat) (k s : string) :
  (n <= String.length k)%nat -> drop n (k +:+ s) = (drop n k +:+ s)%string.
Proof.
  revert k. induction n as [|n IH]; intros k H; [reflexivity|].
  destruct k as [|c k]; [cbn in H; lia|]. rewrite append_cons. cbn [drop].
  apply IH. cbn in H. lia.
Qed.

(** After a name without a dot, only the extension decides whether the file
    name ends in [.meta]. *)
Lemma HasSuffix_after_name (k s : string) :
  (5 <= String.length k)%nat ->
  (forall c, In c (String.list_ascii_of_string k) -> c <> "."%char) ->
  HasSuffix (k +:+ s) ".meta" = HasSuffix s ".meta".
Proof.
  intros Hlen Hdot.
  destruct (le_lt_dec (String.length ".meta") (String.length s)) as [Hs|Hs].
  - apply HasSuffix_append_r, Hs.
  - unfold HasSuffix. rewrite length_append.
    replace (String.length ".meta" <=? String.length s)%nat with false
      by (symmetry; apply Nat.leb_gt; exact Hs).
    cbn [andb]. apply andb_false_iff. right.
    cbn [String.length] in *.
    rewrite drop_append_l by lia.
    destruct (drop_not_empty (String.length k + String.length s - 5) k ltac:(lia))
      as (c & rest & E).
    rewrite E, append_cons. apply String.eqb_neq. intros Heq. injection Heq as -> _.
    apply (Hdot "."%char); [|reflexivity].
    apply (drop_bytes (String.length k + String.length s - 5)). rewrite E. left. reflexivity.
Qed.

Section CacheFiles.
Variable hash : string -> string.
Hypothesis hash_hex : forall s, Cache.hexDigest (hash s) = true.


Variable rangeOrder : list (string * string) -> list (string * string).
Variable sortSlice : (fileEntry -> fileEntry -> bool) -> list fileEntry -> list fileEntry.
Hypothesis rangeOrder_perm : forall l, rangeOrder l ≡ₚ l.

(** The files of an original, as the janitor classifies them. *)
Lemma orig_classes (m : Cache.Manager) (url : string) :
  Clean (Cache.CacheDir m) <> "."%string ->
  isData (Cache.origPath hash m url) = true /\
  isMeta (Cache.origMetaPath hash m url) = true /\
  TrimSuffix (Cache.origMetaPath hash m url) ".meta" = Cache.origPath hash m url.
Proof.
  intros Hroot. rewrite (origMetaPath_form hash hash_hex), (origPath_form hash hash_hex).
  destruct (hexDigest_shape _ (hash_hex ("orig|" +:+ url)%string))
    as (Hlen & Hslash & Hne & Hdot).
  generalize dependent (hash ("orig|" +:+ url)%string). intros h Hlen Hslash Hne Hdot.
  set (A := Cache.OrigCacheDir m) in *.
  assert (Hmeta_slash : IndexByte (h +:+ ".meta")%string "/" = None).
  { apply IndexByte_absent. intros d Hd. apply bytes_append in Hd as [Hd|Hd].
    - apply (IndexByte_none h "/" d Hslash Hd).
    - cbn in Hd. intuition (subst; discriminate). }
  assert (Hmeta_join : ((A +:+ "/" +:+ h) +:+ ".meta")%string = (A +:+ "/" +:+ h +:+ ".meta")%string)
    by (rewrite !append_assoc; reflexivity).
  assert (Hnosuffix : HasSuffix (A +:+ "/" +:+ h) ".meta" = false).
  { rewrite <- append_assoc, HasSuffix_append_r by (rewrite Hlen; cbn; lia).
    unfold HasSuffix. apply andb_false_iff. right. rewrite Hlen.
    change (64 - String.length ".meta")%nat with 59%nat.
    destruct (drop_not_empty 59 h ltac:(lia)) as (c & rest & E). rewrite E.
    apply String.eqb_neq. intros Heq. injection Heq as -> _.
    apply (Hdot "."%char); [|reflexivity].
    apply (drop_bytes 59). rewrite E. left. reflexivity. }
  assert (Hbase : Base (A +:+ "/" +:+ h) = h) by (apply Base_slash; assumption).
  destruct h as [|d h']; [contradiction|].
  assert (Hd : "."%char <> d).
  { intros <-. apply (Hdot "."%char); [left|]; reflexivity. }
  split; [|split].
  - unfold isData. rewrite (in_orig_dir m _ Hroot), Hbase. unfold HasPrefix.
    rewrite (prefix_head "." d "tmp-" h' Hd), Hnosuffix. reflexivity.
  - unfold isMeta. rewrite HasSuffix_append.
    rewrite isCacheFile_append by apply (in_orig_dir m _ Hroot).
    rewrite Hmeta_join, Base_slash; [|exact Hmeta_slash | discriminate].
    unfold HasPrefix. rewrite append_cons, (prefix_head "." d "tmp-" _ Hd). reflexivity.
  - apply TrimSuffix_append.
Qed.

(** A resized entry, as the janitor classifies it: a payload, unless the
    format makes its name end in [.meta]. *)
Lemma resized_class (m : Cache.Manager) (url : string) (size : Z) (format : string) :
  Clean (Cache.CacheDir m) <> "."%string ->
  IndexByte format "/" = None -> HasSuffix ("." +:+ format) ".meta" = false ->
  isData (Cache.ResizedCachePath hash m url size format) = true.
Proof.
  intros Hroot Hf Hmeta. rewrite (ResizedCachePath_form hash hash_hex m url size format Hf).
  set (k := hash _).
  destruct (hexDigest_shape k (hash_hex _)) as (Hlen & Hslash & Hne & Hdot).
  clearbody k.
  assert (Hname : IndexByte (k +:+ "." +:+ format)%string "/" = None).
  { apply IndexByte_absent. intros d Hd. apply bytes_append in Hd as [Hd|Hd].
    - apply (IndexByte_none k "/" d Hslash Hd).
    - change ("." +:+ format)%string with (String "." format) in Hd.
      destruct Hd as [<-|Hd]; [discriminate | apply (IndexByte_none format "/" d Hf Hd)]. }
  unfold isData. rewrite (in_resized_dir m _ Hroot).
  rewrite Base_slash; [|exact Hname | destruct k; [contradiction | discriminate]].
  rewrite <- (append_assoc (Cache.ResizedCacheDir m) "/"), HasSuffix_append_r
    by (rewrite length_append, Hlen; cbn; lia).
  rewrite HasSuffix_after_name, Hmeta by (assumption || lia).
  destruct k as [|d k']; [contradiction|].
  unfold HasPrefix. rewrite append_cons, prefix_head; [reflexivity|].
  intros <-. apply (Hdot "."%char); [left|]; reflexivity.
Qed.


Hypothesis sortSlice_perm : forall l, sortSlice before l ≡ₚ l.



End CacheFiles.

(** *** The earlier revision *)

Lemma expireWalk_exact (limit : Z) (l : list (string * File)) :
  forall fs q,
    fold_left (JanitorOld.expireWalk limit) l fs !! q =
      if existsb (fun e => isCacheFile (fst e) && (mtime (snd e) <? limit)
                           && bool_decide (fst e = q)) l
      then None else fs !! q.
Proof.
  induction l as [|[p f] l IH]; intros fs q; cbn [fold_left existsb fst snd]; [reflexivity|].
  rewrite IH. unfold JanitorOld.expireWalk. cbn [fst snd].
  destruct (existsb _ l); [rewrite orb_true_r; reflexivity|]. rewrite orb_false_r.
  destruct (isCacheFile p); cbn [negb andb]; [|reflexivity].
  destruct (mtime f <? limit); cbn [andb]; [|reflexivity].
  rewrite RemoveQuietly_delete.
  destruct (decide (p = q)) as [->|Hne].
  - rewrite bool_decide_eq_true_2 by reflexivity. apply lookup_delete_eq.
  - rewrite bool_decide_eq_false_2 by exact Hne. apply lookup_delete_ne. exact Hne.
Qed.


(** *** A concrete runtime: insertion sort, maps ranged in key order *)

Lemma insertSorted_perm (less : fileEntry -> fileEntry -> bool) (fe : fileEntry)
  (l : list fileEntry) : insertSorted less fe l ≡ₚ fe :: l.
Proof.
  induction l as [|x l IH]; cbn [insertSorted]; [reflexivity|].
  destruct (less x fe); [|reflexivity].
  rewrite IH. apply perm_swap.
Qed.

Lemma insertionSort_perm (less : fileEntry -> fileEntry -> bool) (l : list fileEntry) :
  insertionSort less l ≡ₚ l.
Proof.
  induction l as [|x l IH]; [reflexivity|].
  unfold insertionSort in *. cbn [foldr]. rewrite insertSorted_perm, IH. reflexivity.
Qed.

Lemma insertSorted_sorted (fe : fileEntry) (l : list fileEntry) :
  StronglySorted (fun a b => before b a = false) l ->
  StronglySorted (fun a b => before b a = false) (insertSorted before fe l).
Proof.
  induction 1 as [|x l Hl IH Hall]; cbn [insertSorted].
  - repeat constructor.
  - destruct (before x fe) eqn:E.
    + constructor; [exact IH|].
      rewrite insertSorted_perm. constructor; [|exact Hall].
      unfold before in *. apply Z.ltb_lt in E. apply Z.ltb_ge. lia.
    + constructor; [constructor; assumption|].
      constructor; [exact E|].
      eapply Forall_impl; [exact Hall|]. intros b Hb. unfold before in *.
      apply Z.ltb_ge in E, Hb. apply Z.ltb_ge. lia.
Qed.

Lemma insertionSort_sorted (l : list fileEntry) :
  StronglySorted (fun a b => before b a = false) (insertionSort before l).
Proof.
  induction l as [|x l IH]; [constructor|].
  unfold insertionSort in *. cbn [foldr]. apply insertSorted_sorted, IH.
Qed.


(** C2 (as stated): two counterexamples.  With the cache kept in the working
    directory ([-cache-dir .]) the walk reports a cached original as
    [orig/<hash>]; there is no [/orig/] in that, [isCacheFile] turns the file
    down, and the pass leaves it where it is although it lies in the [orig]
    directory of the cache and is older than [now - ttl].  And with the
    smallest [Duration] for TTL, [-ttl] wraps around to [ttl] itself: the
    expiry instant lies 292 years back, and the pass keeps the payload
    [cache/orig/aa] although its time stamp is before [now - ttl]. *)
Lemma purgeOnce_misses_cex :
  (let p := Cache.origPath Cache.fixedHash Cache.here "http://a/i.png" in
   let fs : World := {[ p := mkFile Cache.payload (10 * minute) ]} in
   OS.Base (OS.Dir p) = "orig"%string /\
   10 * minute < 120 * minute - 60 * minute /\
   purgeOnce (fun l => l) insertionSort fs (120 * minute) (120 * minute) (60 * minute) 0
     = fs) /\
  (let fs' := purgeOnce (fun l => l) insertionSort shelf (120 * minute) (120 * minute)
                GoTime.minDuration 0 in
   isData "cache/orig/aa" = true /\
   fs' !! "cache/orig/aa"%string = Some (mkFile (bytes 40) (10 * minute)) /\
   10 * minute < 120 * minute - GoTime.minDuration).
Proof.
  split; cbv zeta.
  - split; [vm_compute; reflexivity|]. split; [vm_compute; reflexivity|].
    vm_compute. reflexivity.
  - split; [vm_compute; reflexivity|]. split; vm_compute; reflexivity.
Qed.

Lemma purgeBySizeLimit_evicts_oldest_witness :
  StronglySorted (fun a b => modTime a <= modTime b) (insertionSort before (walkEntries shelf)).
Proof.
  assert (Hfit : payloadBytes shelf <= maxInt64) by (vm_compute; discriminate).
  pose proof (purgeBySizeLimit_evicts_oldest insertionSort (insertionSort_perm before)
                shelf 50 insertionSort_sorted Hfit) as H.
  cbv zeta in H. destruct H as (_ & _ & Hs & _). exact Hs.
Defined.

(** On the sample cache with a 60-minute TTL and a 50-byte limit, the pass at
    minute 120 keeps the newest resized payload, the recent temporary file
    and the file outside the cache directories. *)
Example purgeOnce_shelf :
  map fst (map_to_list (purgeOnce (fun l => l) insertionSort shelf
                          (120 * minute) (120 * minute) (60 * minute) 50)) =
    ["cache/orig/.tmp-2"; "cache/resized/ee.png"; "cache/README"]%string.
Proof. vm_compute. reflexivity. Qed.


Lemma purgeOnce_spares_other_files_witness :
  purgeOnce (fun l => l) insertionSort shelf (120 * minute) (120 * minute) (60 * minute) 50
    !! "cache/README"%string = shelf !! "cache/README"%string.
Proof.
  apply (purgeOnce_spares_other_files (fun l => l) insertionSort (fun l => reflexivity l)
           (insertionSort_perm before)).
  vm_compute. reflexivity.
Defined.

Lemma purgeOnce_clean_cache_fixed_witness :
  purgeOnce (fun l => l) insertionSort tidy (120 * minute) (120 * minute) (60 * minute) 50
    = tidy.
Proof.
  apply (purgeOnce_clean_cache_fixed (fun l => l) insertionSort (fun l => reflexivity l)).
  - assert (H : map_Forall (fun p _ => swept tidy (120 * minute) (120 * minute)
                                        (60 * minute) p = false) tidy)
      by (apply (bool_decide_unpack _); vm_compute; exact I).
    intros p [f Hf]. exact (H p f Hf).
  - right. vm_compute. split; discriminate.
Defined.

Lemma purgeOnce_idempotent_witness :
  let fs' := purgeOnce (fun l => l) insertionSort shelf
               (120 * minute) (120 * minute) (60 * minute) 50 in
  purgeOnce (fun l => l) insertionSort fs' (120 * minute) (120 * minute) (60 * minute) 50
    = fs'.
Proof.
  apply (purgeOnce_idempotent (fun l => l) insertionSort (fun l => reflexivity l)
           (insertionSort_perm before)).
  vm_compute. discriminate.
Defined.





(** The earlier revision of the janitor, on the same cache (TTL pass only):
    with nothing to tell a validator or a temporary file from a payload, it
    leaves the orphan [cc.meta] behind and keeps the 20-minute-old temporary
    file until the TTL. *)
Example JanitorOld_leaves_orphans :
  let fs' := JanitorOld.purgeOnce insertionSort shelf (120 * minute) (60 * minute) 0 in
  is_Some (fs' !! "cache/orig/cc.meta"%string) /\ fs' !! "cache/orig/cc"%string = None /\
  is_Some (fs' !! "cache/orig/.tmp-1"%string).
Proof.
  cbv zeta. split; [|split].
  - eexists. vm_compute. reflexivity.
  - vm_compute. reflexivity.
  - eexists. vm_compute. reflexivity.
Qed.

End JanitorProps.
(** ** The singleflight group *)

Section SingleFlightProps.
Import SingleFlight.
Local Open Scope nat_scope.

Variable key : nat -> string.
Variable fn : nat -> Result.

(** *** Moving one caller *)

Lemma pcOf_moved (s : State) (t : nat) (p : pc) m' heap' next' ran' (a : nat) :
  pcOf (mkState m' heap' next' (goto s t p) ran') a =
    if decide (a = t) then p else pcOf s a.
Proof.
  unfold pcOf, goto. cbn [callers].
  destruct (decide (a = t)) as [->|Hne].
  - rewrite lookup_insert_eq. reflexivity.
  - rewrite lookup_insert_ne by congruence. reflexivity.
Qed.

Lemma leads_moved_other (s : State) (t : nat) (p : pc) m' heap' next' ran' (a c : nat) :
  a <> t ->
  (leads (mkState m' heap' next' (goto s t p) ran') a c <-> leads s a c).
Proof. intros Hne. unfold leads. rewrite pcOf_moved, decide_False by exact Hne. reflexivity. Qed.

Lemma inFlight_moved_other (s : State) (t : nat) (p : pc) m' heap' next' ran' (a c : nat) :
  a <> t ->
  (inFlight (mkState m' heap' next' (goto s t p) ran') a c <-> inFlight s a c).
Proof.
  intros Hne. unfold inFlight. rewrite pcOf_moved, decide_False by exact Hne. reflexivity.
Qed.

Lemma follows_moved_other (s : State) (t : nat) (p : pc) m' heap' next' ran' (a c : nat) :
  a <> t ->
  (follows (mkState m' heap' next' (goto s t p) ran') a c <-> follows s a c).
Proof.
  intros Hne. unfold follows. rewrite pcOf_moved, decide_False by exact Hne. reflexivity.
Qed.

Lemma inFlight_leads (s : State) (t c : nat) : inFlight s t c -> leads s t c.
Proof. unfold inFlight, leads. destruct (pcOf s t) as [| | | | |[|] ? ?]; tauto. Qed.

Lemma runs_snoc (s : State) (t a : nat) m' heap' next' callers' :
  runs (mkState m' heap' next' callers' (ran s ++ [t])) a =
    runs s a + (if decide (t = a) then 1 else 0).
Proof.
  unfold runs. cbn [ran]. rewrite count_occ_app. cbn [count_occ].
  destruct (Nat.eq_dec t a), (decide (t = a)); try contradiction; reflexivity.
Qed.

(** A caller other than the one that moved keeps what held of it, provided
    the step left alone what it looks at. *)
Lemma callerOk_frame (s s' : State) (t a : nat) (p : pc) :
  callers s' = goto s t p ->
  a <> t ->
  runs s' a = runs s a ->
  (forall c, reads s a c -> heap s' !! c = heap s !! c) ->
  (forall c, inFlight s a c -> m s !! key a = Some c -> m s' !! key a = Some c) ->
  (forall c, leads s a c -> m s !! key a <> Some c -> m s' !! key a <> Some c) ->
  (forall t0 c, leads s t0 c -> leads s' t0 c) ->
  callerOk key fn s a -> callerOk key fn s' a.
Proof.
  intros Hc Hne Hruns Hheap Hin Hout Hmono.
  assert (Hpc : pcOf s' a = pcOf s a).
  { unfold pcOf. rewrite Hc. unfold goto. rewrite lookup_insert_ne by congruence. reflexivity. }
  unfold callerOk. rewrite Hpc, Hruns.
  unfold leads, reads, inFlight in Hheap, Hin, Hout.
  destruct (pcOf s a) as [|c|c|c|c|[|] c r].
  - auto.
  - intros (H0 & t0 & H1 & H2 & H3). split; [exact H0|]. exists t0. auto.
  - intros (H0 & H1 & H2). rewrite Hheap by reflexivity. auto.
  - intros (H0 & H1 & H2). rewrite Hheap by reflexivity. auto.
  - intros (H0 & H1 & H2). rewrite Hheap by reflexivity. auto.
  - intros (H0 & H1 & H2 & H3). rewrite Hheap by reflexivity. repeat split; auto.
  - intros (H0 & H1 & t0 & H2 & H3 & H4). rewrite Hheap by reflexivity.
    split; [exact H0|]. split; [exact H1|]. exists t0. auto.
Qed.

(** *** Each kind of step keeps the invariant *)

Lemma join_invariant (s : State) (t c : nat) :
  invariant key fn s -> pcOf s t = Enter -> m s !! key t = Some c ->
  invariant key fn (mkState (m s) (heap s) (next s) (goto s t (Waiting c)) (ran s)).
Proof.
  intros (Hok & Huniq & Hmap & Hfresh) Hpc Hm.
  set (s' := mkState _ _ _ _ _).
  destruct (Hmap _ _ Hm) as (t0 & Hkey & Hfl).
  assert (Hnl : forall x, ~ leads s t x) by (intros x; unfold leads; rewrite Hpc; tauto).
  assert (Hne0 : t0 <> t).
  { intros ->. apply (Hnl c), inFlight_leads, Hfl. }
  assert (Hmono : forall a x, leads s a x -> leads s' a x).
  { intros a x Hl. apply leads_moved_other; [|exact Hl].
    intros ->. exact (Hnl x Hl). }
  assert (Hback : forall a x, leads s' a x -> leads s a x).
  { intros a x Hl. destruct (decide (a = t)) as [->|Hne].
    - unfold leads, s' in Hl. rewrite pcOf_moved, decide_True in Hl by reflexivity. tauto.
    - apply (leads_moved_other s t) in Hl; assumption. }
  split; [|split; [|split]].
  - intros a. destruct (decide (a = t)) as [->|Hne].
    + pose proof (Hok t) as Ht. unfold callerOk in Ht. rewrite Hpc in Ht.
      unfold callerOk, s'. rewrite pcOf_moved, decide_True by reflexivity.
      split; [exact Ht|]. exists t0. split; [exact Hne0|]. split; [|exact Hkey].
      apply Hmono, inFlight_leads, Hfl.
    + apply (callerOk_frame s s' t a (Waiting c)); auto.
  - intros a b x Ha Hb. apply (Huniq a b x); apply Hback; assumption.
  - intros k x Hk. destruct (Hmap k x Hk) as (a & Hka & Hfa).
    exists a. split; [exact Hka|].
    apply inFlight_moved_other; [|exact Hfa].
    intros ->. apply (Hnl x), inFlight_leads, Hfa.
  - intros a x [Hl|Hf].
    + apply (Hfresh a x). left. apply Hback, Hl.
    + destruct (decide (a = t)) as [->|Hne].
      * unfold follows, s' in Hf. rewrite pcOf_moved, decide_True in Hf by reflexivity.
        subst x. apply (Hfresh t0 c). left. apply inFlight_leads, Hfl.
      * apply (Hfresh a x). right. apply (follows_moved_other s t) in Hf; assumption.
Qed.


Lemma lead_invariant (s : State) (t : nat) :
  invariant key fn s -> pcOf s t = Enter -> m s !! key t = None ->
  invariant key fn
    (mkState (<[key t := next s]> (m s)) (<[next s := mkCall 1 [] None]> (heap s))
             (S (next s)) (goto s t (Calling (next s))) (ran s)).
Proof.
  intros (Hok & Huniq & Hmap & Hfresh) Hpc Hm.
  set (s' := mkState _ _ _ _ _).
  assert (Hnl : forall x, ~ leads s t x) by (intros x; unfold leads; rewrite Hpc; tauto).
  assert (Hnf : forall x, ~ follows s t x) by (intros x; unfold follows; rewrite Hpc; tauto).
  assert (Hmono : forall a x, leads s a x -> leads s' a x).
  { intros a x Hl. apply leads_moved_other; [|exact Hl].
    intros ->. exact (Hnl x Hl). }
  assert (Hback : forall a x, leads s' a x -> (a = t /\ x = next s) \/ (a <> t /\ leads s a x)).
  { intros a x Hl. destruct (decide (a = t)) as [->|Hne].
    - unfold leads, s' in Hl. rewrite pcOf_moved, decide_True in Hl by reflexivity. auto.
    - apply (leads_moved_other s t) in Hl; auto. }
  assert (Hold : forall a x, leads s a x -> x <> next s).
  { intros a x Hl. pose proof (Hfresh a x (or_introl Hl)). lia. }
  split; [|split; [|split]].
  - intros a. destruct (decide (a = t)) as [->|Hne].
    + pose proof (Hok t) as Ht. unfold callerOk in Ht. rewrite Hpc in Ht.
      unfold callerOk, s'. rewrite pcOf_moved, decide_True by reflexivity.
      cbn [m heap]. rewrite !lookup_insert_eq. auto.
    + pose proof (Hok a) as Ha.
      apply (callerOk_frame s s' t a (Calling (next s))); auto.
      * intros x Hx. cbn [heap s']. apply lookup_insert_ne.
        assert (x < next s); [|lia].
        apply (Hfresh a x). unfold reads, leads, follows in *.
        destruct (pcOf s a) as [| | | | |[|] ? ?]; tauto.
      * intros x Hx Hmx. cbn [m s']. rewrite lookup_insert_ne; [exact Hmx|].
        intros Heq. rewrite Heq in Hm. congruence.
      * intros x Hx Hmx. cbn [m s'].
        destruct (decide (key t = key a)) as [Heq|Hnk].
        -- rewrite Heq, lookup_insert_eq. intros H. injection H as H.
           apply (Hold a x Hx). congruence.
        -- rewrite lookup_insert_ne by exact Hnk. exact Hmx.
  - intros a b x Ha Hb.
    apply Hback in Ha as [[-> ->]|[Hna Ha]], Hb as [[-> Hx]|[Hnb Hb]]; try reflexivity.
    + exfalso. exact (Hold b _ Hb eq_refl).
    + exfalso. subst x. exact (Hold a _ Ha eq_refl).
    + exact (Huniq a b x Ha Hb).
  - intros k x Hk. cbn [m s'] in Hk.
    destruct (decide (key t = k)) as [<-|Hnk].
    + rewrite lookup_insert_eq in Hk. injection Hk as <-.
      exists t. split; [reflexivity|].
      unfold inFlight, s'. rewrite pcOf_moved, decide_True by reflexivity. reflexivity.
    + rewrite lookup_insert_ne in Hk by exact Hnk.
      destruct (Hmap k x Hk) as (a & Hka & Hfa).
      exists a. split; [exact Hka|].
      apply inFlight_moved_other; [|exact Hfa]. intros ->. congruence.
  - intros a x [Hl|Hf]; cbn [next s'].
    + apply Hback in Hl as [[-> ->]|[_ Hl]]; [lia|].
      pose proof (Hfresh a x (or_introl Hl)). lia.
    + destruct (decide (a = t)) as [->|Hne].
      * unfold follows, s' in Hf. rewrite pcOf_moved, decide_True in Hf by reflexivity. tauto.
      * apply (follows_moved_other s t) in Hf; [|exact Hne].
        pose proof (Hfresh a x (or_intror Hf)). lia.
Qed.

Lemma wake_invariant (s : State) (t c : nat) (rec : call) :
  invariant key fn s -> pcOf s t = Waiting c -> heap s !! c = Some rec -> wg rec = 0 ->
  invariant key fn
    (mkState (m s) (heap s) (next s)
             (goto s t (Returned Follower c (val rec, err rec))) (ran s)).
Proof.
  intros (Hok & Huniq & Hmap & Hfresh) Hpc Hrec Hwg.
  set (s' := mkState _ _ _ _ _).
  assert (Hnl : forall x, ~ leads s t x) by (intros x; unfold leads; rewrite Hpc; tauto).
  assert (Hmono : forall a x, leads s a x -> leads s' a x).
  { intros a x Hl. apply leads_moved_other; [|exact Hl].
    intros ->. exact (Hnl x Hl). }
  assert (Hback : forall a x, leads s' a x -> leads s a x).
  { intros a x Hl. destruct (decide (a = t)) as [->|Hne].
    - unfold leads, s' in Hl. rewrite pcOf_moved, decide_True in Hl by reflexivity. tauto.
    - apply (leads_moved_other s t) in Hl; assumption. }
  split; [|split; [|split]].
  - intros a. destruct (decide (a = t)) as [->|Hne].
    + pose proof (Hok t) as Ht. unfold callerOk in Ht. rewrite Hpc in Ht.
      destruct Ht as (Hruns & t0 & Hne0 & Hl0 & Hk0).
      unfold callerOk, s'. rewrite pcOf_moved, decide_True by reflexivity.
      cbn [heap fst snd]. split; [exact Hruns|]. split.
      * rewrite Hrec. destruct rec as [w v e]. cbn in *. subst w. reflexivity.
      * exists t0. split; [exact Hne0|]. split; [apply Hmono, Hl0 | exact Hk0].
    + apply (callerOk_frame s s' t a (Returned Follower c (val rec, err rec))); auto.
  - intros a b x Ha Hb. apply (Huniq a b x); apply Hback; assumption.
  - intros k x Hk. destruct (Hmap k x Hk) as (a & Hka & Hfa).
    exists a. split; [exact Hka|].
    apply inFlight_moved_other; [|exact Hfa].
    intros ->. apply (Hnl x), inFlight_leads, Hfa.
  - intros a x [Hl|Hf].
    + apply (Hfresh a x). left. apply Hback, Hl.
    + destruct (decide (a = t)) as [->|Hne].
      * unfold follows, s' in Hf. rewrite pcOf_moved, decide_True in Hf by reflexivity.
        subst x. apply (Hfresh t c). right. unfold follows. rewrite Hpc. reflexivity.
      * apply (Hfresh a x). right. apply (follows_moved_other s t) in Hf; assumption.
Qed.


(** While the leader has not called [Done], nobody else is at a point that
    speaks of its record. *)
Lemma no_other_reader (s : State) (t c a : nat) (rec : call) :
  invariant key fn s -> leads s t c -> heap s !! c = Some rec -> wg rec = 1 ->
  a <> t -> ~ reads s a c.
Proof.
  intros (Hok & Huniq & _ & _) Hl Hrec Hwg Hne Hr.
  pose proof (Hok a) as Ha. unfold callerOk in Ha. unfold reads in Hr.
  destruct (pcOf s a) as [|x|x|x|x|[|] x r] eqn:Hpc; try contradiction; subst x.
  1-4: apply Hne, (Huniq a t c); [unfold leads; rewrite Hpc; reflexivity | exact Hl].
  destruct Ha as (_ & Hh & _). rewrite Hrec in Hh. injection Hh as ->. discriminate.
Qed.

(** A step from one leading point to the next changes nobody's lead. *)
Lemma leads_kept (s : State) (t c : nat) (p : pc) m' heap' next' ran' :
  leads s t c ->
  (match p with
   | Calling c' | Signal c' | Forget c' | Returned Leader c' _ => c' = c
   | _ => False
   end) ->
  forall a x, leads (mkState m' heap' next' (goto s t p) ran') a x <-> leads s a x.
Proof.
  intros Hl Hp a x. destruct (decide (a = t)) as [->|Hne].
  - unfold leads in *. rewrite pcOf_moved, decide_True by reflexivity.
    destruct (pcOf s t) as [| | | | |[|] ? ?]; try contradiction;
      destruct p as [| | | | |[|] ? ?]; try contradiction; subst; reflexivity.
  - apply leads_moved_other, Hne.
Qed.

Lemma follows_kept (s : State) (t c : nat) (p : pc) m' heap' next' ran' :
  leads s t c ->
  (match p with
   | Calling c' | Signal c' | Forget c' | Returned Leader c' _ => c' = c
   | _ => False
   end) ->
  forall a x, follows (mkState m' heap' next' (goto s t p) ran') a x <-> follows s a x.
Proof.
  intros Hl Hp a x. destruct (decide (a = t)) as [->|Hne].
  - unfold leads, follows in *. rewrite pcOf_moved, decide_True by reflexivity.
    destruct (pcOf s t) as [| | | | |[|] ? ?]; try contradiction;
      destruct p as [| | | | |[|] ? ?]; try contradiction; reflexivity.
  - apply follows_moved_other, Hne.
Qed.

Lemma call_invariant (s : State) (t c : nat) (rec : call) :
  invariant key fn s -> pcOf s t = Calling c -> heap s !! c = Some rec ->
  invariant key fn
    (mkState (m s) (<[c := mkCall (wg rec) (fst (fn t)) (snd (fn t))]> (heap s))
             (next s) (goto s t (Signal c)) (ran s ++ [t])).
Proof.
  intros Hinv Hpc Hrec. pose proof Hinv as (Hok & Huniq & Hmap & Hfresh).
  set (s' := mkState _ _ _ _ _).
  pose proof (Hok t) as Ht. unfold callerOk in Ht. rewrite Hpc in Ht.
  destruct Ht as (Hruns & Hh & Hm).
  assert (rec = mkCall 1 [] None) by congruence. subst rec. cbn [wg] in *.
  assert (Hl : leads s t c) by (unfold leads; rewrite Hpc; reflexivity).
  assert (Hleads : forall a x, leads s' a x <-> leads s a x)
    by (apply (leads_kept s t c); [exact Hl | reflexivity]).
  assert (Hfollows : forall a x, follows s' a x <-> follows s a x)
    by (apply (follows_kept s t c); [exact Hl | reflexivity]).
  split; [|split; [|split]].
  - intros a. destruct (decide (a = t)) as [->|Hne].
    + unfold callerOk, s'. rewrite pcOf_moved, decide_True by reflexivity.
      rewrite runs_snoc, decide_True by reflexivity. cbn [heap m].
      rewrite lookup_insert_eq. split; [lia | auto].
    + apply (callerOk_frame s s' t a (Signal c)); auto.
      * unfold s'. rewrite runs_snoc, decide_False by congruence. lia.
      * intros x Hx. cbn [heap s']. apply lookup_insert_ne. intros <-.
        exact (no_other_reader s t c a _ Hinv Hl Hh eq_refl Hne Hx).
      * intros t0 x. apply Hleads.
  - intros a b x Ha Hb. apply (Huniq a b x); apply Hleads; assumption.
  - intros k x Hk. destruct (Hmap k x Hk) as (a & Hka & Hfa).
    exists a. split; [exact Hka|].
    destruct (decide (a = t)) as [->|Hne].
    + unfold inFlight in *. unfold s'. rewrite pcOf_moved, decide_True by reflexivity.
      rewrite Hpc in Hfa. exact Hfa.
    + apply inFlight_moved_other; assumption.
  - intros a x [H|H]; apply (Hfresh a x); [left; apply Hleads | right; apply Hfollows]; exact H.
Qed.

Lemma signal_invariant (s : State) (t c : nat) (rec : call) :
  invariant key fn s -> pcOf s t = Signal c -> heap s !! c = Some rec ->
  invariant key fn
    (mkState (m s) (<[c := mkCall (wg rec - 1) (val rec) (err rec)]> (heap s))
             (next s) (goto s t (Forget c)) (ran s)).
Proof.
  intros Hinv Hpc Hrec. pose proof Hinv as (Hok & Huniq & Hmap & Hfresh).
  set (s' := mkState _ _ _ _ _).
  pose proof (Hok t) as Ht. unfold callerOk in Ht. rewrite Hpc in Ht.
  destruct Ht as (Hruns & Hh & Hm).
  assert (rec = mkCall 1 (fst (fn t)) (snd (fn t))) by congruence. subst rec.
  cbn [wg val err] in *.
  assert (Hl : leads s t c) by (unfold leads; rewrite Hpc; reflexivity).
  assert (Hleads : forall a x, leads s' a x <-> leads s a x)
    by (apply (leads_kept s t c); [exact Hl | reflexivity]).
  assert (Hfollows : forall a x, follows s' a x <-> follows s a x)
    by (apply (follows_kept s t c); [exact Hl | reflexivity]).
  split; [|split; [|split]].
  - intros a. destruct (decide (a = t)) as [->|Hne].
    + unfold callerOk, s'. rewrite pcOf_moved, decide_True by reflexivity.
      cbn [heap m]. rewrite lookup_insert_eq. auto.
    + apply (callerOk_frame s s' t a (Forget c)); auto.
      * intros x Hx. cbn [heap s']. apply lookup_insert_ne. intros <-.
        exact (no_other_reader s t c a _ Hinv Hl Hh eq_refl Hne Hx).
      * intros t0 x. apply Hleads.
  - intros a b x Ha Hb. apply (Huniq a b x); apply Hleads; assumption.
  - intros k x Hk. destruct (Hmap k x Hk) as (a & Hka & Hfa).
    exists a. split; [exact Hka|].
    destruct (decide (a = t)) as [->|Hne].
    + unfold inFlight in *. unfold s'. rewrite pcOf_moved, decide_True by reflexivity.
      rewrite Hpc in Hfa. exact Hfa.
    + apply inFlight_moved_other; assumption.
  - intros a x [H|H]; apply (Hfresh a x); [left; apply Hleads | right; apply Hfollows]; exact H.
Qed.

Lemma forget_invariant (s : State) (t c : nat) (rec : call) :
  invariant key fn s -> pcOf s t = Forget c -> heap s !! c = Some rec ->
  invariant key fn
    (mkState (delete (key t) (m s)) (heap s) (next s)
             (goto s t (Returned Leader c (val rec, err rec))) (ran s)).
Proof.
  intros Hinv Hpc Hrec. pose proof Hinv as (Hok & Huniq & Hmap & Hfresh).
  set (s' := mkState _ _ _ _ _).
  pose proof (Hok t) as Ht. unfold callerOk in Ht. rewrite Hpc in Ht.
  destruct Ht as (Hruns & Hh & Hm).
  assert (rec = mkCall 0 (fst (fn t)) (snd (fn t))) by congruence. subst rec.
  cbn [wg val err] in *.
  assert (Hl : leads s t c) by (unfold leads; rewrite Hpc; reflexivity).
  assert (Hleads : forall a x, leads s' a x <-> leads s a x)
    by (apply (leads_kept s t c); [exact Hl | reflexivity]).
  assert (Hfollows : forall a x, follows s' a x <-> follows s a x)
    by (apply (follows_kept s t c); [exact Hl | reflexivity]).
  split; [|split; [|split]].
  - intros a. destruct (decide (a = t)) as [->|Hne].
    + unfold callerOk, s'. rewrite pcOf_moved, decide_True by reflexivity.
      cbn [heap m]. rewrite lookup_delete_eq.
      split; [exact Hruns|]. split; [exact Hh|]. split; [|discriminate].
      destruct (fn t); reflexivity.
    + apply (callerOk_frame s s' t a (Returned Leader c (fst (fn t), snd (fn t)))); auto.
      * intros x Hx Hmx. cbn [m s']. rewrite lookup_delete_ne; [exact Hmx|].
        intros Heq. rewrite Heq in Hm. assert (x = c) by congruence. subst x.
        apply Hne, (Huniq a t c); [apply inFlight_leads, Hx | exact Hl].
      * intros x Hx Hmx. cbn [m s']. intros H. apply lookup_delete_Some in H as [_ H].
        contradiction.
      * intros t0 x. apply Hleads.
  - intros a b x Ha Hb. apply (Huniq a b x); apply Hleads; assumption.
  - intros k x Hk. cbn [m s'] in Hk. apply lookup_delete_Some in Hk as [Hnk Hk].
    destruct (Hmap k x Hk) as (a & Hka & Hfa).
    exists a. split; [exact Hka|].
    apply inFlight_moved_other; [|exact Hfa]. intros ->. congruence.
  - intros a x [H|H]; apply (Hfresh a x); [left; apply Hleads | right; apply Hfollows]; exact H.
Qed.

(** *** The invariant holds in every reachable state *)

Lemma init_invariant : invariant key fn init.
Proof.
  split; [|split; [|split]].
  - intros t. reflexivity.
  - intros t t' c H. contradiction.
  - intros k c H. cbn in H. rewrite lookup_empty in H. discriminate.
  - intros t c [H|H]; contradiction.
Qed.

Lemma step_invariant (t : nat) (s s' : State) :
  invariant key fn s -> step key fn t s = Some s' -> invariant key fn s'.
Proof.
  intros Hinv. unfold step.
  destruct (pcOf s t) as [|c|c|c|c|role c r] eqn:Hpc.
  - destruct (m s !! key t) as [c|] eqn:Hm; intros H; injection H as <-.
    + apply join_invariant; assumption.
    + apply lead_invariant; assumption.
  - destruct (heap s !! c) as [rec|] eqn:Hrec; [|discriminate].
    destruct (Nat.eqb (wg rec) 0) eqn:Hwg; [|discriminate].
    intros H; injection H as <-. apply Nat.eqb_eq in Hwg. apply wake_invariant; assumption.
  - destruct (heap s !! c) as [rec|] eqn:Hrec; [|discriminate].
    intros H; injection H as <-. apply call_invariant; assumption.
  - destruct (heap s !! c) as [rec|] eqn:Hrec; [|discriminate].
    intros H; injection H as <-. apply signal_invariant; assumption.
  - destruct (heap s !! c) as [rec|] eqn:Hrec; [|discriminate].
    intros H; injection H as <-. apply forget_invariant; assumption.
  - discriminate.
Qed.

Lemma reachable_invariant (s : State) : reachable key fn s -> invariant key fn s.
Proof.
  unfold reachable. revert s. apply rtc_ind_r.
  - apply init_invariant.
  - intros y z _ [t Hstep] IH. eapply step_invariant; eassumption.
Qed.

Lemma run_reachable (schedule : list nat) :
  forall s s', reachable key fn s -> run key fn schedule s = Some s' -> reachable key fn s'.
Proof.
  induction schedule as [|t rest IH]; intros s s' Hs Hrun; cbn [run] in Hrun.
  - injection Hrun as <-. exact Hs.
  - destruct (step key fn t s) as [s1|] eqn:Hstep; [|discriminate].
    apply (IH s1 s'); [|exact Hrun].
    eapply rtc_r; [exact Hs | exists t; exact Hstep].
Qed.



(** *** Progress and termination *)

(** A step takes its caller one point further and leaves the others where
    they stand. *)
Lemma step_moves (t : nat) (s s' : State) :
  step key fn t s = Some s' ->
  stepsTaken (pcOf s' t) = S (stepsTaken (pcOf s t)) /\
  stepsLeft (pcOf s' t) < stepsLeft (pcOf s t) /\
  forall a, a <> t -> pcOf s' a = pcOf s a.
Proof.
  assert (Hgo : forall p m' heap' next' ran',
    stepsTaken p = S (stepsTaken (pcOf s t)) -> stepsLeft p < stepsLeft (pcOf s t) ->
    s' = mkState m' heap' next' (goto s t p) ran' ->
    stepsTaken (pcOf s' t) = S (stepsTaken (pcOf s t)) /\
    stepsLeft (pcOf s' t) < stepsLeft (pcOf s t) /\
    forall a, a <> t -> pcOf s' a = pcOf s a).
  { intros p m' heap' next' ran' H1 H2 ->.
    rewrite pcOf_moved, decide_True by reflexivity.
    split; [exact H1|]. split; [exact H2|].
    intros a Ha. rewrite pcOf_moved, decide_False by exact Ha. reflexivity. }
  unfold step. destruct (pcOf s t) as [|c|c|c|c|role c r] eqn:Hpc.
  - destruct (m s !! key t); intros H; injection H as <-;
      refine (Hgo _ _ _ _ _ _ _ eq_refl); cbn; lia.
  - destruct (heap s !! c) as [rec|]; [|discriminate].
    destruct (Nat.eqb (wg rec) 0); [|discriminate].
    intros H; injection H as <-. refine (Hgo _ _ _ _ _ _ _ eq_refl); cbn; lia.
  - destruct (heap s !! c) as [rec|]; [|discriminate].
    intros H; injection H as <-. refine (Hgo _ _ _ _ _ _ _ eq_refl); cbn; lia.
  - destruct (heap s !! c) as [rec|]; [|discriminate].
    intros H; injection H as <-. refine (Hgo _ _ _ _ _ _ _ eq_refl); cbn; lia.
  - destruct (heap s !! c) as [rec|]; [|discriminate].
    intros H; injection H as <-. refine (Hgo _ _ _ _ _ _ _ eq_refl); cbn; lia.
  - discriminate.
Qed.

(** A caller that has not returned can move, unless it waits for a call in
    flight; and the leader of a call in flight can always move. *)
Lemma blocked_on_live_leader (s : State) (t : nat) :
  invariant key fn s -> ~ returned s t ->
  is_Some (step key fn t s) \/
  exists c t0, pcOf s t = Waiting c /\ t0 <> t /\ key t0 = key t /\
    inFlight s t0 c /\ is_Some (step key fn t0 s).
Proof.
  intros (Hok & _ & _ & _) Hnot.
  assert (Hlive : forall a c, inFlight s a c -> is_Some (step key fn a s)).
  { intros a c Ha. pose proof (Hok a) as Hoka. unfold inFlight in Ha.
    unfold callerOk in Hoka. unfold step.
    destruct (pcOf s a) as [|c'|c'|c'|c'|role c' r]; try contradiction;
      destruct Hoka as (_ & -> & _); eauto. }
  pose proof (Hok t) as Hokt. unfold callerOk in Hokt. unfold returned in Hnot.
  destruct (pcOf s t) as [|c|c|c|c|role c r] eqn:Hpc.
  - left. unfold step. rewrite Hpc. destruct (m s !! key t); eauto.
  - destruct Hokt as (_ & t0 & Hne & Hlead & Hkey).
    pose proof (Hok t0) as Hok0. unfold callerOk in Hok0. unfold leads in Hlead.
    destruct (pcOf s t0) as [|c0|c0|c0|c0|[|] c0 r0] eqn:Hpc0; try contradiction; subst c0.
    1-3: right; exists c, t0; repeat split; auto;
         [unfold inFlight; rewrite Hpc0; reflexivity
         |apply (Hlive t0 c); unfold inFlight; rewrite Hpc0; reflexivity].
    left. destruct Hok0 as (_ & Hheap & _). unfold step. rewrite Hpc, Hheap. cbn. eauto.
  - left. apply (Hlive t c). unfold inFlight. rewrite Hpc. reflexivity.
  - left. apply (Hlive t c). unfold inFlight. rewrite Hpc. reflexivity.
  - left. apply (Hlive t c). unfold inFlight. rewrite Hpc. reflexivity.
  - contradiction.
Qed.

Lemma sum_list_pos (l : list nat) :
  sum_list l <> 0 -> exists x, x ∈ l /\ x <> 0.
Proof.
  induction l as [|x l IH]; simpl; [congruence|].
  intros H. destruct x as [|x].
  - destruct IH as (y & Hy & Hy0); [exact H|]. exists y. split; [right|]; assumption.
  - exists (S x). split; [left | lia].
Qed.

Lemma sum_list_zero (l : list nat) : sum_list l = 0 -> forall x, x ∈ l -> x = 0.
Proof.
  induction l as [|y l IH]; simpl; intros H x Hx; [inversion Hx|].
  apply elem_of_cons in Hx as [->|Hx]; [lia | apply IH; [lia | exact Hx]].
Qed.

Lemma sum_list_drop (f g : nat -> nat) (u : nat) (D : list nat) :
  (forall a, a <> u -> g a = f a) -> g u < f u -> u ∈ D ->
  sum_list (map g D) < sum_list (map f D).
Proof.
  intros Hother Hu.
  assert (Hle : forall l, sum_list (map g l) <= sum_list (map f l)).
  { induction l as [|a l IH]; simpl; [lia|].
    destruct (decide (a = u)) as [->|Ha]; [lia | rewrite Hother by exact Ha; lia]. }
  induction D as [|a D IH]; intros Hin; [inversion Hin|].
  simpl. apply elem_of_cons in Hin as [<-|Hin].
  - pose proof (Hle D). lia.
  - specialize (IH Hin). destruct (decide (a = u)) as [->|Ha]; [lia|].
    rewrite Hother by exact Ha. lia.
Qed.

(** From a state that satisfies the invariant, the callers in [D] can all be
    brought to their return. *)
Lemma finish_from (n : nat) :
  forall s D, invariant key fn s ->
    (forall t, pcOf s t <> Enter -> t ∈ D) ->
    sum_list (map (fun t => stepsLeft (pcOf s t)) D) <= n ->
    exists schedule s',
      run key fn schedule s = Some s' /\ invariant key fn s' /\
      forall t, t ∈ D -> returned s' t.
Proof.
  assert (Hdone : forall s D, invariant key fn s ->
            sum_list (map (fun t => stepsLeft (pcOf s t)) D) = 0 ->
            exists schedule s',
              run key fn schedule s = Some s' /\ invariant key fn s' /\
              forall t, t ∈ D -> returned s' t).
  { intros s D Hinv H0. exists [], s. split; [reflexivity|]. split; [exact Hinv|].
    intros t Ht.
    assert (Hz : stepsLeft (pcOf s t) = 0).
    { apply (sum_list_zero _ H0). apply list_elem_of_fmap. exists t. auto. }
    unfold returned. destruct (pcOf s t); try exact I; discriminate Hz. }
  induction n as [|n IH]; intros s D Hinv Hcover Hsum.
  - apply Hdone; [exact Hinv | lia].
  - destruct (sum_list (map (fun t => stepsLeft (pcOf s t)) D)) as [|k] eqn:Esum.
    + apply Hdone; assumption.
    + destruct (sum_list_pos (map (fun t => stepsLeft (pcOf s t)) D)) as (x & Hx & Hx0);
        [lia|].
      apply list_elem_of_fmap in Hx as (t & -> & Ht).
      assert (Hnot : ~ returned s t).
      { unfold returned. destruct (pcOf s t); auto. }
      assert (Hmove : exists u s1, u ∈ D /\ step key fn u s = Some s1).
      { destruct (blocked_on_live_leader s t Hinv Hnot)
          as [[s1 Hs1]|(c & t0 & _ & _ & _ & Hfl & [s1 Hs1])].
        - exists t, s1. auto.
        - exists t0, s1. split; [|exact Hs1]. apply Hcover.
          unfold inFlight in Hfl. destruct (pcOf s t0); try contradiction; discriminate. }
      destruct Hmove as (u & s1 & Hu & Hstep).
      destruct (step_moves _ _ _ Hstep) as (_ & Hless & Hother).
      destruct (IH s1 D) as (schedule & s' & Hrun & Hinv' & Hall).
      * eapply step_invariant; eassumption.
      * intros a Ha. destruct (decide (a = u)) as [->|Hau]; [exact Hu|].
        apply Hcover. rewrite <- (Hother a Hau). exact Ha.
      * pose proof (sum_list_drop (fun a => stepsLeft (pcOf s a))
                      (fun a => stepsLeft (pcOf s1 a)) u D) as Hdrop.
        cbv beta in Hdrop.
        assert (Hsame : forall a, a <> u -> stepsLeft (pcOf s1 a) = stepsLeft (pcOf s a))
          by (intros a Ha; rewrite Hother by exact Ha; reflexivity).
        specialize (Hdrop Hsame Hless Hu). lia.
      * exists (u :: schedule), s'. cbn [run]. rewrite Hstep. auto.
Qed.

(** X1: the group keeps no record behind.  In every state it can reach, each
    record in the map belongs to a caller that stands between its insert and
    its delete; so once no caller is inside [Do], the map is empty. *)
Theorem Do_leaves_no_record (s : State) :
  reachable key fn s ->
  (forall k c, m s !! k = Some c -> exists t, key t = k /\ inFlight s t c) /\
  (quiescent s -> m s = ∅).
Proof.
  intros Hr. destruct (reachable_invariant s Hr) as (_ & _ & Hmap & _).
  split; [exact Hmap|].
  intros Hq. apply map_empty. intros k.
  destruct (m s !! k) as [c|] eqn:Hk; [|reflexivity].
  destruct (Hmap k c Hk) as (t & _ & Hfl). exfalso.
  unfold inFlight, pcOf in Hfl.
  destruct (callers s !! t) as [p|] eqn:Hp; cbn [default] in Hfl; [|contradiction].
  pose proof (Hq t p Hp) as Hout. cbv beta in Hout.
  destruct p; try contradiction; discriminate.
Qed.

(** X2: [Do] cannot deadlock.  In every reachable state a caller that has
    not returned can make its next step, unless it is blocked in
    [c.wg.Wait()]; and then the caller that runs [fn] for that record has the
    same key, is still in flight, and can make its next step. *)
Theorem Do_never_deadlocks (s : State) (t : nat) :
  reachable key fn s -> ~ returned s t ->
  is_Some (step key fn t s) \/
  exists c t0, pcOf s t = Waiting c /\ t0 <> t /\ key t0 = key t /\
    inFlight s t0 c /\ is_Some (step key fn t0 s).
Proof.
  intros Hr. apply blocked_on_live_leader, reachable_invariant, Hr.
Qed.

(** X4: every call can be brought to its return.  From any reachable state
    and for any finite set of callers there is a schedule after which all of
    them have returned from [Do]. *)
Theorem Do_can_always_finish (s : State) (T : list nat) :
  reachable key fn s ->
  exists schedule s',
    run key fn schedule s = Some s' /\ forall t, t ∈ T -> returned s' t.
Proof.
  intros Hr.
  set (D := (T ++ map fst (map_to_list (callers s)))%list).
  destruct (finish_from (sum_list (map (fun t => stepsLeft (pcOf s t)) D)) s D)
    as (schedule & s' & Hrun & _ & Hall).
  - apply reachable_invariant, Hr.
  - intros t Ht. subst D. apply elem_of_app. right.
    unfold pcOf in Ht. destruct (callers s !! t) as [p|] eqn:Hp; [|contradiction].
    apply list_elem_of_fmap. exists (t, p). split; [reflexivity|].
    apply elem_of_map_to_list, Hp.
  - lia.
  - exists schedule, s'. split; [exact Hrun|].
    intros t Ht. apply Hall. subst D. apply elem_of_app. left. exact Ht.
Qed.


End SingleFlightProps.

Section SingleFlightExamples.
Import SingleFlight.
Local Open Scope nat_scope.


Lemma Do_leaves_no_record_witness :
  exists s, run sameKey ownBytes [0; 1; 0; 0; 1; 0] init = Some s /\ m s = ∅.
Proof.
  destruct (run sameKey ownBytes [0; 1; 0; 0; 1; 0] init) as [s|] eqn:E;
    [|vm_compute in E; discriminate].
  exists s. split; [reflexivity|].
  apply (Do_leaves_no_record sameKey ownBytes s).
  - eapply run_reachable; [apply rtc_refl | exact E].
  - vm_compute in E. injection E as <-.
    unfold quiescent. apply (bool_decide_unpack _). vm_compute. exact I.
Defined.

Lemma Do_never_deadlocks_witness :
  exists s, run sameKey ownBytes [0; 1] init = Some s /\
    (is_Some (step sameKey ownBytes 1 s) \/
     exists c t0, pcOf s 1 = Waiting c /\ t0 <> 1 /\ sameKey t0 = sameKey 1 /\
       inFlight s t0 c /\ is_Some (step sameKey ownBytes t0 s)).
Proof.
  destruct (run sameKey ownBytes [0; 1] init) as [s|] eqn:E;
    [|vm_compute in E; discriminate].
  exists s. split; [reflexivity|].
  apply (Do_never_deadlocks sameKey ownBytes s 1).
  - eapply run_reachable; [apply rtc_refl | exact E].
  - vm_compute in E. injection E as <-. intros H. vm_compute in H. exact H.
Defined.

Lemma Do_can_always_finish_witness :
  exists schedule s',
    run sameKey ownBytes schedule init = Some s' /\
    forall t, t ∈ [0; 1; 2] -> returned s' t.
Proof.
  apply (Do_can_always_finish sameKey ownBytes init [0; 1; 2]). apply rtc_refl.
Defined.

(** C1 (as stated): two counterexamples.  Callers 0 and 1 have both called
    [Do] with the same key and stand before [g.mu.Lock()].  In the first
    schedule caller 0 runs through to its return before caller 1 gets the
    lock: the two calls overlap in time, yet [fn] is executed twice and the
    callers return different bytes.  In the second, caller 1 gets the lock
    only after [fn] has returned and [c.wg.Done()] has run, but before the
    leader's [delete]: its call starts after the execution is complete, yet
    it runs nothing afresh and returns the finished result. *)
Lemma Do_overlap_cex :
  (exists s, run sameKey ownBytes [0; 0; 0; 0; 1; 1; 1; 1] init = Some s /\
     pcOf s 0 = Returned Leader 0 (ownBytes 0) /\
     pcOf s 1 = Returned Leader 1 (ownBytes 1) /\
     ran s = [0; 1] /\ ownBytes 0 <> ownBytes 1) /\
  (exists s1 s, run sameKey ownBytes [0; 0; 0] init = Some s1 /\
     pcOf s1 0 = Forget 0 /\ heap s1 !! 0 = Some (mkCall 0 (fst (ownBytes 0)) None) /\
     run sameKey ownBytes [1; 1; 0] s1 = Some s /\
     pcOf s 1 = Returned Follower 0 (ownBytes 0) /\ ran s = [0]).
Proof.
  split.
  - eexists. split; [vm_compute; reflexivity|]. repeat split. discriminate.
  - eexists. eexists. split; [vm_compute; reflexivity|]. repeat split.
Qed.

(** Callers 0 and 1 overlap: 1 enters while 0's record is in the map and
    returns 0's bytes, and [fn] ran once.  Caller 2 enters after 0 has
    returned: it gets a record of its own and runs its own function. *)
Example three_callers :
  exists s, run sameKey ownBytes [0; 1; 0; 0; 1; 0; 2; 2; 2; 2] init = Some s /\
    pcOf s 0 = Returned Leader 0 (ownBytes 0) /\
    pcOf s 1 = Returned Follower 0 (ownBytes 0) /\
    pcOf s 2 = Returned Leader 1 (ownBytes 2) /\
    ran s = [0; 2] /\ m s = ∅.
Proof. eexists. split; [vm_compute; reflexivity|]. repeat split. Qed.

(** A waiter cannot pass [c.wg.Wait()] before the leader's [Done]. *)
Example waiter_blocks :
  run sameKey ownBytes [0; 1; 1] init = None.
Proof. vm_compute. reflexivity. Qed.

End SingleFlightExamples.
